(** * Lance synchronisation core: a shallow embedding and its properties

    The development follows the TypeScript sources of the engine:
    [Utils], [GameWorld], [GameEngine], [ServerEngine],
    [ExtrapolateStrategy], [FrameSyncStrategy], [Timer], [NetworkMonitor],
    [Scheduler], [Serializable], [TwoVector], [MathUtils] and
    [PhysicalObject2D].  Each module below embeds one source file; the
    statements about them come after all the definitions. *)

From Stdlib Require Import ZArith List Lia Bool.
From Stdlib Require Import Floats.PrimFloat.
From stdpp Require Import gmap strings list fin_maps sorting.

Local Open Scope Z_scope.
#[local] Set Warnings "-clear-no-such-hyp".

(** ** JavaScript conventions shared by the modules *)

Module JS.

(** Exceptions raised by the embedded code. *)
Inductive Error : Type :=
| TypeError (msg : string)
| ErrorMsg (msg : string).

(** A computation that either completes with a value or throws. *)
Inductive Result (A : Type) : Type :=
| Ok (a : A)
| Throw (e : Error).
Arguments Ok {A} a.
Arguments Throw {A} e.

Definition bind {A B} (m : Result A) (k : A → Result B) : Result B :=
  match m with
  | Ok a => k a
  | Throw e => Throw e
  end.

Definition isThrow {A} (m : Result A) : bool :=
  match m with Ok _ => false | Throw _ => true end.

(** [ToInt32]: the operand conversion of the bitwise operators. *)
Definition toInt32 (x : Z) : Z := (x + 2 ^ 31) mod 2 ^ 32 - 2 ^ 31.

(** [ToUint32]: [x >>> 0]. *)
Definition toUint32 (x : Z) : Z := x mod 2 ^ 32.

(** [a ^ b] on numbers that hold integers. *)
Definition xor (a b : Z) : Z := Z.lxor (toInt32 a) (toInt32 b).

(** The UTF-16 code units of an ASCII string, as [charCodeAt] reads them. *)
Fixpoint charCodes (s : string) : list Z :=
  match s with
  | EmptyString => []
  | String c rest => Z.of_nat (Ascii.nat_of_ascii c) :: charCodes rest
  end.

(** [Object.keys(o)] and the order of [for (k in o)] for an object whose
    keys are array indices: ascending. *)
Definition keys {A} (o : gmap Z A) : list Z :=
  merge_sort Z.le (elements (dom o)).

(** The keys that an object visits in ascending order are the array
    indices, the canonical numeric keys from 0 to 2^32 - 2.  Any other
    key (a negative id, an id from 2^32 - 1 on) is visited after them, in
    the order of insertion, which a map does not record: [keys] is the
    order of the visits of an object all of whose keys are array
    indices, and a statement that rests on the order of the visits is
    made of such objects only. *)
Definition arrayIndexKeys {A} (o : gmap Z A) : Prop :=
  map_Forall (λ k _, 0 <= k < 2 ^ 32 - 1) o.

(** [Math.min.apply(null, xs)] for a non-empty [xs]; [None] stands for
    the [Infinity] of an empty list. *)
Definition min (xs : list Z) : option Z :=
  match xs with
  | [] => None
  | x :: rest => Some (foldr Z.min x rest)
  end.

End JS.

#[global] Instance result_ret : MRet JS.Result := @JS.Ok.
#[global] Instance result_bind : MBind JS.Result := λ A B k m, JS.bind m k.

(** ** src/lib/Utils.ts *)

Module Utils.

(** One round of the loop body [hash = (hash * 33) ^ str.charCodeAt(--i)].
    [hash] is an int32 after the first round, so the product stays far
    below 2^53 and the double multiplication is exact. *)
Definition hashRound (hash c : Z) : Z := JS.xor (hash * 33) c.

(** [hashStr(str, bits)].  [str] is the list of code units of the string;
    [bits] is a whole number of bits, [None] when the argument is omitted.
    The loop walks the string from its last code unit to its first. *)
Definition hashStr (str : list Z) (bits : option Z) : Z :=
  let bits := match bits with
              | Some b => if b =? 0 then 8 else b
              | None => 8
              end in
  let hash := fold_left hashRound (rev str) 5381 in
  let hash := JS.toUint32 hash in
  Z.rem hash (2 ^ bits - 1).

(** The element of an [Int8Array] that reads the byte [b]. *)
Definition toInt8 (b : Z) : Z := (b + 128) mod 256 - 128.

(** [for (let i = 0; i !== buf1.byteLength; i++)] of [arrayBuffersEqual],
    from the index [i] on, with the number of turns that remain. *)
Fixpoint buffersLoop (turns i : nat) (dv1 dv2 : list Z) : bool :=
  match turns with
  | O => true
  | S turns' =>
      if bool_decide (dv1 !! i ≠ dv2 !! i) then false
      else buffersLoop turns' (S i) dv1 dv2
  end.

(** [arrayBuffersEqual(buf1, buf2)] on two buffers given by their bytes. *)
Definition arrayBuffersEqual (buf1 buf2 : list Z) : bool :=
  if bool_decide (length buf1 ≠ length buf2) then false
  else
    let dv1 := toInt8 <$> buf1 in
    let dv2 := toInt8 <$> buf2 in
    buffersLoop (length buf1) 0 dv1 dv2.

End Utils.

(** ** src/types: the input descriptor *)

Module Input.

(** [options] of an input; [movement] is the truthiness of
    [options.movement]. *)
Record Options : Type := { movement : bool }.

Record Descriptor : Type := {
  input : string;
  messageIndex : Z;
  step : Z;
  options : option Options
}.

#[global] Instance Options_eq_dec : EqDecision Options.
Proof. solve_decision. Defined.
#[global] Instance Descriptor_eq_dec : EqDecision Descriptor.
Proof. solve_decision. Defined.

(** [inputDesc?.options?.movement] as a condition. *)
Definition isMovement (i : Descriptor) : bool :=
  match options i with
  | Some o => movement o
  | None => false
  end.

End Input.

(** ** src/serialize/GameObject.ts: the fields the engine reads *)

Module GameObject.

(** [inputId = None] stands for an object without an own property
    [inputId]; the class field initialiser gives every constructed
    GameObject [Some 0]. *)
Record t : Type := {
  id : Z;
  playerId : Z;
  inputId : option Z;
  roomName : option string
}.

#[global] Instance t_eq_dec : EqDecision t.
Proof. solve_decision. Defined.

(** [new GameObject(gameEngine, { id }, { playerId })]. *)
Definition create (id playerId : Z) : t :=
  {| id := id; playerId := playerId; inputId := Some 0; roomName := None |}.

End GameObject.

(** ** src/GameWorld.ts *)

Module GameWorld.

Record t : Type := {
  stepCount : Z;
  playerCount : Z;
  idCount : Z;
  objects : gmap Z GameObject.t
}.

Definition create : t :=
  {| stepCount := 0; playerCount := 0; idCount := 0; objects := ∅ |}.

Definition setStepCount (n : Z) (w : t) : t :=
  {| stepCount := n; playerCount := playerCount w;
     idCount := idCount w; objects := objects w |}.

Definition setIdCount (n : Z) (w : t) : t :=
  {| stepCount := stepCount w; playerCount := playerCount w;
     idCount := n; objects := objects w |}.

Definition setObjects (m : gmap Z GameObject.t) (w : t) : t :=
  {| stepCount := stepCount w; playerCount := playerCount w;
     idCount := idCount w; objects := m |}.

(** [while (possibleId in this.objects) possibleId++], with the number of
    remaining iterations as fuel; [None] is an exhausted fuel. *)
Fixpoint findFreeId (fuel : nat) (objs : gmap Z GameObject.t)
         (possibleId : Z) : option Z :=
  match fuel with
  | O => None
  | S fuel' =>
      match objs !! possibleId with
      | Some _ => findFreeId fuel' objs (possibleId + 1)
      | None => Some possibleId
      end
  end.

(** The ids at or above [p] that are taken; the loop above strictly
    shrinks this set at every iteration. *)
Definition takenFrom (objs : gmap Z GameObject.t) (p : Z) : gset Z :=
  filter (λ k, p <= k) (dom objs).

(** [getNewId()]: the returned id and the world with its [idCount]
    updated.  A map of [n] objects stops the loop within [n + 1] tests. *)
Definition getNewId (w : t) : option (Z * t) :=
  possibleId ← findFreeId (S (size (objects w))) (objects w) (idCount w);
  Some (possibleId, setIdCount (possibleId + 1) w).

(** [addObject(object)]: [this.objects[object.id] = object]. *)
Definition addObject (o : GameObject.t) (w : t) : t :=
  setObjects (<[GameObject.id o := o]> (objects w)) w.

(** [removeObject(id)]: [delete this.objects[id]]. *)
Definition removeObject (id : Z) (w : t) : t :=
  setObjects (delete id (objects w)) w.


(** [forEachObject(callback)]: the loop [for (id in this.objects)], with
    the object keys still to visit.  The callback works on a state [S] of
    its own; the boolean it gives back is whether it returned [false],
    which ends the loop.  A key of the loop always has its object. *)
Fixpoint forEachLoop {S : Type} (callback : Z → GameObject.t → S → S * bool)
         (objs : gmap Z GameObject.t) (ids : list Z) (s : S) : S :=
  match ids with
  | [] => s
  | id :: rest =>
      match objs !! id with
      | Some o =>
          let '(s', returnedFalse) := callback id o s in
          if returnedFalse then s' else forEachLoop callback objs rest s'
      | None => forEachLoop callback objs rest s
      end
  end.

Definition forEachObject {S : Type}
           (callback : Z → GameObject.t → S → S * bool) (w : t) (s : S) : S :=
  forEachLoop callback (objects w) (JS.keys (objects w)) s.

(** The objects of the world in the order of [for (id in this.objects)]. *)
Definition objectsInOrder (w : t) : list GameObject.t :=
  omap (λ id, objects w !! id) (JS.keys (objects w)).

(** An [ObjectQuery].  [None] is a key that the query does not have.  For
    [id] and [playerId], [Some None] is a key whose value is [null] or
    [undefined], which no number equals; for [instanceType] it is
    [null].  [components] absent or [undefined] is [None]. *)
Record ObjectQuery : Type := {
  qId : option (option Z);
  qPlayerId : option (option Z);
  qInstanceType : option (option string);
  qComponents : option (list string);
  returnSingle : bool
}.

(** What [queryObjects] returns: one object or [null], or an array. *)
Inductive QueryResult : Type :=
| Single (o : option GameObject.t)
| Multiple (os : list GameObject.t).

Section Query.

(** [object instanceof instanceType] and [object.hasComponent(c)], which
    read the class and the components of the object. *)
Variable instanceOf : GameObject.t → string → bool.
Variable hasComponent : GameObject.t → string → bool.

(** The array [conditions] built for one object. *)
Definition conditions (query : ObjectQuery) (object : GameObject.t)
  : list bool :=
  [ match qId query with
    | None => true
    | Some None => false
    | Some (Some id) => bool_decide (GameObject.id object = id)
    end;
    match qPlayerId query with
    | None => true
    | Some None => false
    | Some (Some playerId) =>
        bool_decide (GameObject.playerId object = playerId)
    end;
    match qInstanceType query with
    | None => true
    | Some None => false
    | Some (Some instanceType) => instanceOf object instanceType
    end ]
  ++ match qComponents query with
     | Some components => hasComponent object <$> components
     | None => []
     end.

(** [conditions.every(value => value)]. *)
Definition qualifies (query : ObjectQuery) (object : GameObject.t) : bool :=
  forallb (λ value, value) (conditions query object).

(** The callback that [queryObjects] hands to [forEachObject]. *)
Definition queryCallback (query : ObjectQuery) (id : Z)
           (object : GameObject.t) (queriedObjects : list GameObject.t)
  : list GameObject.t * bool :=
  if qualifies query object
  then (queriedObjects ++ [object], returnSingle query)
  else (queriedObjects, false).

(** [queryObjects(query)]. *)
Definition queryObjects (query : ObjectQuery) (w : t) : QueryResult :=
  let queriedObjects := forEachObject (queryCallback query) w [] in
  if returnSingle query then Single (head queriedObjects)
  else Multiple queriedObjects.

(** [queryObject(query)]:
    [queryObjects(Object.assign(query, { returnSingle: true }))]. *)
Definition queryObject (query : ObjectQuery) (w : t) : QueryResult :=
  queryObjects {| qId := qId query; qPlayerId := qPlayerId query;
                  qInstanceType := qInstanceType query;
                  qComponents := qComponents query;
                  returnSingle := true |} w.

End Query.

(** The query [{ id }]. *)
Definition byId (id : Z) : ObjectQuery :=
  {| qId := Some (Some id); qPlayerId := None; qInstanceType := None;
     qComponents := None; returnSingle := false |}.

(** Every object sits under its own id, as [addObject] puts it. *)
Definition keyedById (w : t) : Prop :=
  ∀ k o, objects w !! k = Some o → GameObject.id o = k.

(** What a program does with the world's ids and objects. *)
Inductive Op : Type :=
| NewId
| Add (o : GameObject.t)
| Remove (id : Z).

Definition isNewId (op : Op) : bool :=
  match op with NewId => true | _ => false end.

(** One operation; the ids that [getNewId] has returned are collected. *)
Definition apply (acc : option (list Z * t)) (op : Op)
  : option (list Z * t) :=
  '(ids, w) ← acc;
  match op with
  | NewId => '(id, w') ← getNewId w; Some (ids ++ [id], w')
  | Add o => Some (ids, addObject o w)
  | Remove id => Some (ids, removeObject id w)
  end.

Definition run (ops : list Op) (w : t) : option (list Z * t) :=
  foldl apply (Some ([], w)) ops.

End GameWorld.

(** ** src/GameEngine.ts *)

Module GameEngine.

(** What the engine does to its collaborators, in the order it does it:
    calls of object hooks, emitted events, calls of the physics engine
    and of [processInput].  Trace output is left out. *)
Inductive Effect : Type :=
| CallOnAddToWorld (o : GameObject.t)
| CallOnRemoveFromWorld (o : GameObject.t)
| EmitObjectAdded (o : GameObject.t)
| EmitObjectDestroyed (o : GameObject.t)
| EmitPreStep (step : Z) (isReenact : bool)
| PhysicsStep (isReenact : bool)
| EmitPostStep (step : Z) (isReenact : bool)
| EmitServerProcessInput (i : Input.Descriptor) (playerId : Z)
| EmitProcessInput (i : Input.Descriptor) (playerId : Z)
| EmitServerPreStep (step : Z)
| EmitServerPostStep (step : Z)
| ProcessInput (i : Input.Descriptor) (playerId : Z) (isServer : bool).

#[global] Instance Effect_eq_dec : EqDecision Effect.
Proof. solve_decision. Defined.

(** [clientIDSpace = None] is the server, whose options leave it
    undefined; a comparison with [undefined] is false. *)
Record t : Type := {
  world : GameWorld.t;
  playerId : Z;
  clientIDSpace : option Z;
  physicsEngine : bool;
  ignorePhysics : bool;
  effects : list Effect
}.

Definition setWorld (w : GameWorld.t) (e : t) : t :=
  {| world := w; playerId := playerId e; clientIDSpace := clientIDSpace e;
     physicsEngine := physicsEngine e; ignorePhysics := ignorePhysics e;
     effects := effects e |}.

Definition perform (fx : list Effect) (e : t) : t :=
  {| world := world e; playerId := playerId e;
     clientIDSpace := clientIDSpace e;
     physicsEngine := physicsEngine e; ignorePhysics := ignorePhysics e;
     effects := effects e ++ fx |}.

(** [x >= this.options.clientIDSpace]. *)
Definition inClientIDSpace (e : t) (x : Z) : bool :=
  match clientIDSpace e with
  | Some c => c <=? x
  | None => false
  end.

(** [o.hasOwnProperty('inputId') && o.inputId === object.inputId]. *)
Definition sameInputId (object o : GameObject.t) : bool :=
  match GameObject.inputId o with
  | Some i => bool_decide (GameObject.inputId object = Some i)
  | None => false
  end.

(** The [forEachObject] scan of [addObjectToWorld]: it stops at the first
    match, so [serverCopyArrived] is whether some object matches. *)
Definition serverCopyArrived (e : t) (object : GameObject.t) : bool :=
  bool_decide
    (map_Exists (λ _ o, sameInputId object o = true)
                (GameWorld.objects (world e))).

(** [step(isReenact, t, dt)] without [physicsOnly]. *)
Definition step (isReenact : bool) (e : t) : t :=
  let step := GameWorld.stepCount (world e) + 1 in
  let e := setWorld (GameWorld.setStepCount step (world e)) e in
  let e := perform [EmitPreStep step isReenact] e in
  let e := if physicsEngine e && negb (ignorePhysics e)
           then perform [PhysicsStep isReenact] e else e in
  perform [EmitPostStep step isReenact] e.

(** [addObjectToWorld(object)]: the returned object ([None] for
    [undefined]) and the engine afterwards.  [onAddToWorld] is a method
    of every GameObject, so the test of its type succeeds. *)
Definition addObjectToWorld (object : GameObject.t) (e : t)
  : option GameObject.t * t :=
  if inClientIDSpace e (GameObject.id object) && serverCopyArrived e object
  then (None, e)
  else
    let e := setWorld (GameWorld.addObject object (world e)) e in
    let e := perform [CallOnAddToWorld object] e in
    let e := perform [EmitObjectAdded object] e in
    (Some object, e).

(** [processInput(inputDesc, playerId, isServer)] of the base class. *)
Definition processInput (i : Input.Descriptor) (pid : Z) (isServer : bool)
           (e : t) : t :=
  perform [ProcessInput i pid isServer] e.

(** The argument of [removeObjectFromWorld]: an id, or an object whose
    [id] is used. *)
Inductive ObjectRef : Type :=
| ById (id : Z)
| ByObject (o : GameObject.t).

Definition refId (r : ObjectRef) : Z :=
  match r with
  | ById id => id
  | ByObject o => GameObject.id o
  end.

(** [removeObjectFromWorld(objectId)]: how the call completes, and the
    engine as the call leaves it (a throw undoes nothing).
    [onRemoveFromWorld] is a method of every GameObject, so the test of
    its type succeeds. *)
Definition removeObjectFromWorld (r : ObjectRef) (e : t)
  : JS.Result unit * t :=
  let objectId := refId r in
  match GameWorld.objects (world e) !! objectId with
  | None =>
      (JS.Throw (JS.ErrorMsg
         "Game attempted to remove a game object which doesn't (or never did) exist"),
       e)
  | Some object =>
      let e := perform [CallOnRemoveFromWorld object] e in
      let e := perform [EmitObjectDestroyed object] e in
      (JS.Ok tt, setWorld (GameWorld.removeObject objectId (world e)) e)
  end.


(** [x < this.options.clientIDSpace]; false on the server, where the
    option is undefined. *)
Definition belowClientIDSpace (e : t) (x : Z) : bool :=
  match clientIDSpace e with
  | Some c => x <? c
  | None => false
  end.

(** The loop of [findLocalShadow(serverObj)] over the object keys still
    to visit. *)
Fixpoint findShadowLoop (e : t) (serverObj : GameObject.t)
         (ids : list Z) : option GameObject.t :=
  match ids with
  | [] => None
  | localId :: rest =>
      if belowClientIDSpace e localId then findShadowLoop e serverObj rest
      else
        match GameWorld.objects (world e) !! localId with
        | Some localObj =>
            if sameInputId serverObj localObj then Some localObj
            else findShadowLoop e serverObj rest
        | None => findShadowLoop e serverObj rest
        end
  end.

(** [findLocalShadow(serverObj)]; [None] is [null]. *)
Definition findLocalShadow (serverObj : GameObject.t) (e : t)
  : option GameObject.t :=
  findShadowLoop e serverObj (JS.keys (GameWorld.objects (world e))).

(** [initWorld()]: a new world, whose [idCount] is [clientIDSpace] when
    that option is truthy. *)
Definition initWorld (e : t) : t :=
  let w := GameWorld.create in
  let w := match clientIDSpace e with
           | Some c => if c =? 0 then w else GameWorld.setIdCount c w
           | None => w
           end in
  setWorld w e.

(** The callback that [addObjectToWorld] hands to [forEachObject]; its
    state is the variable [serverCopyArrived]. *)
Definition scanCallback (object : GameObject.t) (id : Z) (o : GameObject.t)
           (arrived : bool) : bool * bool :=
  if sameInputId object o then (true, true) else (arrived, false).

(** The scan of [addObjectToWorld] as the code runs it. *)
Definition serverCopyScan (e : t) (object : GameObject.t) : bool :=
  GameWorld.forEachObject (scanCallback object) (world e) false.

End GameEngine.

(** ** src/ServerEngine.ts: the input pipeline *)

Module ServerEngine.

(** [playerInputQueues[playerId][step]] is the list of the inputs
    received for that step, oldest first. *)
Record t : Type := {
  gameEngine : GameEngine.t;
  playerInputQueues : gmap Z (gmap Z (list Input.Descriptor))
}.

Definition stepCount (s : t) : Z :=
  GameWorld.stepCount (GameEngine.world (gameEngine s)).

(** The body of [inputQueue[minStep].forEach(...)]. *)
Definition dispatchInput (playerId : Z) (e : GameEngine.t)
           (input : Input.Descriptor) : GameEngine.t :=
  let e := GameEngine.perform
             [GameEngine.EmitServerProcessInput input playerId] e in
  let e := GameEngine.perform
             [GameEngine.EmitProcessInput input playerId] e in
  GameEngine.processInput input playerId true e.

(** One iteration of the loop over [playerInputQueues] in [step]. *)
Definition replayOldest (s : t) (playerId : Z) : t :=
  let inputQueue := playerInputQueues s !!! playerId in
  let queueSteps := JS.keys inputQueue in
  match JS.min queueSteps with
  | Some minStep =>
      if minStep <=? stepCount s then
        let e := foldl (dispatchInput playerId) (gameEngine s)
                       (inputQueue !!! minStep) in
        {| gameEngine := e;
           playerInputQueues :=
             <[playerId := delete minStep inputQueue]>
               (playerInputQueues s) |}
      else s
  | None => s
  end.

(** [step()], up to and including the engine step.  The synchronisation
    to the clients that follows reads the world and [objMemory] only. *)
Definition step (s : t) : t :=
  let e := GameEngine.perform
             [GameEngine.EmitServerPreStep (stepCount s + 1)]
             (gameEngine s) in
  let s := {| gameEngine := e; playerInputQueues := playerInputQueues s |} in
  let s := foldl replayOldest s (JS.keys (playerInputQueues s)) in
  {| gameEngine := GameEngine.step false (gameEngine s);
     playerInputQueues := playerInputQueues s |}.

(** [queueInputForPlayer(data, playerId)]. *)
Definition queueInputForPlayer (data : Input.Descriptor) (playerId : Z)
           (s : t) : t :=
  let queues := match playerInputQueues s !! playerId with
                | Some _ => playerInputQueues s
                | None => <[playerId := ∅]> (playerInputQueues s)
                end in
  let queue := queues !!! playerId in
  let bucket := match queue !! Input.step data with
                | Some b => b
                | None => []
                end in
  {| gameEngine := gameEngine s;
     playerInputQueues :=
       <[playerId := <[Input.step data := bucket ++ [data]]> queue]>
         queues |}.

(** What happens to a running server: a [move] message of a socket
    ([onReceivedInput], which queues the input under the socket's
    playerId), or a tick of the scheduler. *)
Inductive Op : Type :=
| Move (playerId : Z) (data : Input.Descriptor)
| Tick.

Definition apply (s : t) (op : Op) : t :=
  match op with
  | Move playerId data => queueInputForPlayer data playerId s
  | Tick => step s
  end.

Definition run (ops : list Op) (s : t) : t := foldl apply s ops.

(** A server that has just started: no queue yet. *)
Definition start (e : GameEngine.t) : t :=
  {| gameEngine := e; playerInputQueues := ∅ |}.

(** The inputs a player has sent, in arrival order. *)
Definition received (playerId : Z) (ops : list Op)
  : list Input.Descriptor :=
  omap (λ op, match op with
              | Move p data => if decide (p = playerId) then Some data
                               else None
              | Tick => None
              end) ops.

(** The inputs of a player handed to [gameEngine.processInput], in the
    order of the calls. *)
Definition dispatched (playerId : Z) (fx : list GameEngine.Effect)
  : list Input.Descriptor :=
  omap (λ f, match f with
             | GameEngine.ProcessInput i p true =>
                 if decide (p = playerId) then Some i else None
             | _ => None
             end) fx.

(** The inputs that wait in a queue: its buckets by ascending step, each
    bucket in its own order. *)
Definition pendingOf (q : gmap Z (list Input.Descriptor))
  : list Input.Descriptor :=
  JS.keys q ≫= (λ k, q !!! k).

(** The inputs of a player that still wait in a bucket. *)
Definition pending (playerId : Z) (s : t) : list Input.Descriptor :=
  pendingOf (playerInputQueues s !!! playerId).

(** The bucket the next step hands over for a queue, if any. *)
Definition oldestDue (stepCount : Z) (q : gmap Z (list Input.Descriptor))
  : option Z :=
  match JS.min (JS.keys q) with
  | Some minStep => if minStep <=? stepCount then Some minStep else None
  | None => None
  end.

(** The inputs a step hands over for a queue, and the queue it leaves. *)
Definition popped (stepCount : Z) (q : gmap Z (list Input.Descriptor))
  : list Input.Descriptor :=
  match oldestDue stepCount q with
  | Some minStep => q !!! minStep
  | None => []
  end.

Definition afterPop (stepCount : Z) (q : gmap Z (list Input.Descriptor))
  : gmap Z (list Input.Descriptor) :=
  match oldestDue stepCount q with
  | Some minStep => delete minStep q
  | None => q
  end.

(** Buckets are created by the first input of their step and only grow:
    none is empty, and each holds inputs of its own step. *)
Definition wfQueue (q : gmap Z (list Input.Descriptor)) : Prop :=
  ∀ k b, q !! k = Some b → b ≠ [] ∧ Forall (λ i, Input.step i = k) b.

End ServerEngine.

(** ** src/ServerEngine.ts: rooms, players and the cadence of syncs *)

Module ServerRooms.

Definition DEFAULT_ROOM_NAME : string := "/lobby".

(** A room; [requestFullSync] is false while the property is undefined. *)
Record Room : Type := {
  syncCounter : Z;
  requestImmediateSync : bool;
  requestFullSync : bool
}.

(** [player.state]: ['new'] or ['synced']. *)
Inductive PlayerState : Type :=
| new
| synced.

(** A socket, as the server reads it: [socket.id], [socket.playerId] and
    [socket.data.playerId]; [None] is undefined. *)
Record Socket : Type := {
  socketId : string;
  socketPlayerId : option Z;
  dataPlayerId : option Z
}.

(** An entry of [connectedPlayers]. *)
Record Player : Type := {
  socket : Socket;
  state : PlayerState;
  roomName : string
}.

(** The options that the rooms and the syncs read. *)
Record Options : Type := {
  updateRate : Z;
  fullSyncRate : Z;
  updateOnObjectCreation : bool
}.

(** [a % b === 0]; the remainder by 0 is [NaN]. *)
Definition remIsZero (a b : Z) : bool :=
  if b =? 0 then false else Z.rem a b =? 0.

(** [connectedPlayers[socketId] = player]: an object keeps the order in
    which its keys were first set (socket ids are not numbers). *)
Fixpoint setPlayer (socketId : string) (player : Player)
         (players : list (string * Player)) : list (string * Player) :=
  match players with
  | [] => [(socketId, player)]
  | (k, p) :: rest =>
      if String.eqb k socketId then (socketId, player) :: rest
      else (k, p) :: setPlayer socketId player rest
  end.

(** [connectedPlayers[socketId]]. *)
Definition getPlayer (socketId : string) (players : list (string * Player))
  : option Player :=
  match list_find (λ kv, kv.1 = socketId) players with
  | Some (_, (_, player)) => Some player
  | None => None
  end.

Definition inRoom (room : string) (entry : string * Player) : bool :=
  String.eqb (roomName entry.2) room.

Definition isNew (entry : string * Player) : bool :=
  match state entry.2 with new => true | synced => false end.

(** The loop of [syncStateToClients] over [roomPlayers] that turns the
    new players of the room into synced ones. *)
Definition markSynced (room : string) (players : list (string * Player))
  : list (string * Player) :=
  (λ entry, if inRoom room entry && isNew entry
            then (entry.1, {| socket := socket entry.2; state := synced;
                              roomName := roomName entry.2 |})
            else entry) <$> players.

Section WithPayload.

(** What [serializeUpdate] returns and the sockets are sent. *)
Variable Payload : Type.

(** What the server does to its collaborators: the call of
    [serializeUpdate], the events emitted on a socket and on the game
    engine. *)
Inductive Effect : Type :=
| CallSerializeUpdate (room : string) (diffUpdate : bool)
| SocketWorldUpdate (socketId : string) (payload : Payload)
| SocketRoomUpdate (socketId : string) (playerId : Z) (from to : string)
| EngineRoomUpdate (playerId : Z) (from to : string)
| EnginePlayerJoined (event : string) (socketId : string) (playerId : Z)
| SocketPlayerJoined (socketId : string) (playerId : Z).

Record t : Type := {
  world : GameWorld.t;
  options : Options;
  rooms : gmap string Room;
  connectedPlayers : list (string * Player);
  effects : list Effect
}.

Definition setRooms (m : gmap string Room) (s : t) : t :=
  {| world := world s; options := options s; rooms := m;
     connectedPlayers := connectedPlayers s; effects := effects s |}.

Definition setPlayers (players : list (string * Player)) (s : t) : t :=
  {| world := world s; options := options s; rooms := rooms s;
     connectedPlayers := players; effects := effects s |}.

Definition perform (fx : list Effect) (s : t) : t :=
  {| world := world s; options := options s; rooms := rooms s;
     connectedPlayers := connectedPlayers s; effects := effects s ++ fx |}.

(** How a call of [serializeUpdate(roomName, { diffUpdate })] completes,
    in the state in which it is made.  It builds the payload from the
    world, [objMemory] and the network transmitter, and changes none of
    the fields above. *)
Variable serializeUpdate : t → string → bool → JS.Result Payload.

(** [createRoom(roomName)]. *)
Definition createRoom (room : string) (s : t) : t :=
  setRooms (<[room := {| syncCounter := 0; requestImmediateSync := false;
                         requestFullSync := false |}]> (rooms s)) s.

(** [assignObjectToRoom(obj, roomName)]. *)
Definition assignObjectToRoom (obj : GameObject.t) (room : string)
  : GameObject.t :=
  {| GameObject.id := GameObject.id obj;
     GameObject.playerId := GameObject.playerId obj;
     GameObject.inputId := GameObject.inputId obj;
     GameObject.roomName := Some room |}.

(** [obj._roomName || this.DEFAULT_ROOM_NAME]. *)
Definition roomOf (obj : GameObject.t) : string :=
  match GameObject.roomName obj with
  | Some room => if String.eqb room "" then DEFAULT_ROOM_NAME else room
  | None => DEFAULT_ROOM_NAME
  end.

(** [onObjectAdded(obj)]: how the call completes, the object and the
    server afterwards.  The event that it hands to the network
    transmitter is left out. *)
Definition onObjectAdded (obj : GameObject.t) (s : t)
  : JS.Result unit * GameObject.t * t :=
  let obj := assignObjectToRoom obj (roomOf obj) in
  if updateOnObjectCreation (options s) then
    match rooms s !! roomOf obj with
    | Some room =>
        (JS.Ok tt, obj,
         setRooms (<[roomOf obj :=
                       {| syncCounter := syncCounter room;
                          requestImmediateSync := true;
                          requestFullSync := requestFullSync room |}]>
                     (rooms s)) s)
    | None =>
        (JS.Throw (JS.TypeError
           "Cannot set properties of undefined (setting 'requestImmediateSync')"),
         obj, s)
    end
  else (JS.Ok tt, obj, s).

(** [getPlayerId(socket)], as the condition [!playerId] reads it: a
    number other than 0. *)
Definition getPlayerId (sock : Socket) : option Z :=
  match dataPlayerId sock with
  | Some playerId => if playerId =? 0 then None else Some playerId
  | None => None
  end.

(** [onPlayerConnected(socket)]: the playerId of the socket and the server
    afterwards.  The listeners that it registers on the socket are left
    out. *)
Definition onPlayerConnected (sock : Socket) (s : t) : Z * t :=
  let '(playerId, w) :=
    match getPlayerId sock with
    | Some playerId => (playerId, world s)
    | None =>
        (GameWorld.playerCount (world s) + 1,
         {| GameWorld.stepCount := GameWorld.stepCount (world s);
            GameWorld.playerCount := GameWorld.playerCount (world s) + 1;
            GameWorld.idCount := GameWorld.idCount (world s);
            GameWorld.objects := GameWorld.objects (world s) |})
    end in
  let sock := {| socketId := socketId sock;
                 socketPlayerId := socketPlayerId sock;
                 dataPlayerId := Some playerId |} in
  (playerId,
   {| world := w; options := options s; rooms := rooms s;
      connectedPlayers :=
        setPlayer (socketId sock)
                  {| socket := sock; state := new;
                     roomName := DEFAULT_ROOM_NAME |}
                  (connectedPlayers s);
      effects :=
        effects s
        ++ [EnginePlayerJoined "server__playerJoined" (socketId sock)
                               playerId;
            EnginePlayerJoined "playerJoined" (socketId sock) playerId;
            SocketPlayerJoined (socketId sock) playerId] |}).

(** [onPlayerDisconnected(socketId, playerId)]. *)
Definition onPlayerDisconnected (socketId : string) (s : t) : t :=
  setPlayers (filter (λ entry, entry.1 ≠ socketId) (connectedPlayers s)) s.

(** The loop of [assignPlayerToRoom] that looks for the player: the last
    entry whose [socket.playerId] is the playerId. *)
Definition findPlayer (playerId : Z) (players : list (string * Player))
  : option (string * Player) :=
  last (filter (λ entry, socketPlayerId (socket entry.2) = Some playerId)
               players).

(** [assignPlayerToRoom(playerId, roomName)]. *)
Definition assignPlayerToRoom (playerId : Z) (room : string) (s : t)
  : JS.Result unit * t :=
  match rooms s !! room with
  | None => (JS.Ok tt, s)
  | Some r =>
      match findPlayer playerId (connectedPlayers s) with
      | None =>
          (JS.Throw (JS.TypeError
             "Cannot read properties of undefined (reading 'roomName')"),
           s)
      | Some (sid, player) =>
          let s := perform [SocketRoomUpdate sid playerId (roomName player)
                                             room;
                            EngineRoomUpdate playerId (roomName player)
                                             room] s in
          let s := setPlayers
                     (setPlayer sid {| socket := socket player;
                                       state := state player;
                                       roomName := room |}
                                (connectedPlayers s)) s in
          (JS.Ok tt,
           setRooms (<[room := {| syncCounter := syncCounter r;
                                  requestImmediateSync := true;
                                  requestFullSync := true |}]> (rooms s)) s)
      end
  end.

(** Whether [syncStateToClients] syncs the room now. *)
Definition syncDue (r : Room) (s : t) : bool :=
  requestImmediateSync r
  || remIsZero (GameWorld.stepCount (world s)) (updateRate (options s)).

(** The value of [diffUpdate] that [syncStateToClients] hands to
    [serializeUpdate]. *)
Definition diffUpdateOf (room : string) (r : Room) (s : t) : bool :=
  let roomPlayers := filter (λ entry, inRoom room entry = true)
                            (connectedPlayers s) in
  let diffUpdate := negb (existsb isNew roomPlayers) in
  if remIsZero (syncCounter r) (fullSyncRate (options s))
     || requestFullSync r
  then false else diffUpdate.

(** [syncStateToClients(roomName)]. *)
Definition syncStateToClients (room : string) (s : t)
  : JS.Result unit * t :=
  match rooms s !! room with
  | None =>
      (JS.Throw (JS.TypeError
         "Cannot read properties of undefined (reading 'requestImmediateSync')"),
       s)
  | Some r =>
      if syncDue r s then
        let roomPlayers := filter (λ entry, inRoom room entry = true)
                                  (connectedPlayers s) in
        let diffUpdate := diffUpdateOf room r s in
        let counted := {| syncCounter := syncCounter r + 1;
                          requestImmediateSync := requestImmediateSync r;
                          requestFullSync := requestFullSync r |} in
        let s := setPlayers (markSynced room (connectedPlayers s)) s in
        let s := setRooms (<[room := counted]> (rooms s)) s in
        let s := perform [CallSerializeUpdate room diffUpdate] s in
        match serializeUpdate s room diffUpdate with
        | JS.Throw err => (JS.Throw err, s)
        | JS.Ok payload =>
            let s := perform ((λ entry, SocketWorldUpdate entry.1 payload)
                                <$> roomPlayers) s in
            (JS.Ok tt,
             setRooms (<[room := {| syncCounter := syncCounter r + 1;
                                    requestImmediateSync := false;
                                    requestFullSync := false |}]>
                         (rooms s)) s)
        end
      else (JS.Ok tt, s)
  end.

(** The engine step of a server step, as the rooms see it: the step
    count goes up by one. *)
Definition advance (s : t) : t :=
  {| world := GameWorld.setStepCount (GameWorld.stepCount (world s) + 1)
                                     (world s);
     options := options s; rooms := rooms s;
     connectedPlayers := connectedPlayers s; effects := effects s |}.

(** [n] server steps, each followed by the sync of the room; a throw ends
    the run. *)
Fixpoint stepsAndSyncs (n : nat) (room : string) (s : t)
  : JS.Result unit * t :=
  match n with
  | O => (JS.Ok tt, s)
  | S n' =>
      match stepsAndSyncs n' room s with
      | (JS.Ok _, s') => syncStateToClients room (advance s')
      | (JS.Throw err, s') => (JS.Throw err, s')
      end
  end.

(** The values of [diffUpdate] of the calls of [serializeUpdate] for a
    room, in the order of the calls. *)
Definition serializeCalls (room : string) (fx : list Effect) : list bool :=
  omap (λ f, match f with
             | CallSerializeUpdate r diffUpdate =>
                 if String.eqb r room then Some diffUpdate else None
             | _ => None
             end) fx.

(** The sockets in turn, each through [onPlayerConnected]. *)
Definition connectAll (sockets : list Socket) (s : t) : t :=
  foldl (λ s sock, (onPlayerConnected sock s).2) s sockets.

End WithPayload.

Arguments CallSerializeUpdate {Payload} room diffUpdate.
Arguments SocketWorldUpdate {Payload} socketId payload.
Arguments SocketRoomUpdate {Payload} socketId playerId from to.
Arguments EngineRoomUpdate {Payload} playerId from to.
Arguments EnginePlayerJoined {Payload} event socketId playerId.
Arguments SocketPlayerJoined {Payload} socketId playerId.
Arguments world {Payload} _.
Arguments options {Payload} _.
Arguments rooms {Payload} _.
Arguments connectedPlayers {Payload} _.
Arguments effects {Payload} _.

End ServerRooms.

(** ** src/syncStrategies/ExtrapolateStrategy.ts: input buffer and
       re-enactment *)

Module ExtrapolateStrategy.

(** The option the re-enactment reads; its default is 60. *)
Record Options : Type := { maxReEnactSteps : Z }.

Definition defaults : Options := {| maxReEnactSteps := 60 |}.

Record t : Type := {
  gameEngine : GameEngine.t;
  recentInputs : gmap Z (list Input.Descriptor);
  options : Options;
  needFirstSync : bool
}.

Definition stepCount (s : t) : Z :=
  GameWorld.stepCount (GameEngine.world (gameEngine s)).

Definition setEngine (e : GameEngine.t) (s : t) : t :=
  {| gameEngine := e; recentInputs := recentInputs s;
     options := options s; needFirstSync := needFirstSync s |}.

Definition setRecentInputs (m : gmap Z (list Input.Descriptor)) (s : t) : t :=
  {| gameEngine := gameEngine s; recentInputs := m;
     options := options s; needFirstSync := needFirstSync s |}.

(** [world.stepCount = n]. *)
Definition setStepCount (n : Z) (s : t) : t :=
  setEngine (GameEngine.setWorld
               (GameWorld.setStepCount n (GameEngine.world (gameEngine s)))
               (gameEngine s)) s.

(** [clientInputSave(inputEvent)], the listener of
    [client__processInput]. *)
Definition clientInputSave (input : Input.Descriptor) (s : t) : t :=
  let bucket := match recentInputs s !! Input.step input with
                | Some b => b
                | None => []
                end in
  setRecentInputs
    (<[Input.step input := bucket ++ [input]]> (recentInputs s)) s.

(** One turn of the loop of [cleanRecentInputs]: the entry [k] goes when
    its first input is at or before [lastServerStep]; reading the step of
    the first input of an empty entry throws. *)
Definition cleanEntry (lastServerStep : Z)
           (acc : JS.Result unit * gmap Z (list Input.Descriptor)) (k : Z)
  : JS.Result unit * gmap Z (list Input.Descriptor) :=
  match acc with
  | (JS.Throw e, m) => (JS.Throw e, m)
  | (JS.Ok _, m) =>
      match m !!! k with
      | [] =>
          (JS.Throw (JS.TypeError "Cannot read properties of undefined"), m)
      | first :: _ =>
          if Input.step first <=? lastServerStep
          then (JS.Ok tt, delete k m)
          else (JS.Ok tt, m)
      end
  end.

(** [cleanRecentInputs(lastServerStep)]. *)
Definition cleanRecentInputs (lastServerStep : Z) (s : t)
  : JS.Result unit * t :=
  let r := foldl (cleanEntry lastServerStep) (JS.Ok tt, recentInputs s)
                 (JS.keys (recentInputs s)) in
  (r.1, setRecentInputs r.2 s).

(** The [forEach] over [recentInputs[world.stepCount]]: only the inputs
    whose [options.movement] is truthy go to [processInput] (called
    without [isServer]). *)
Definition replayInput (e : GameEngine.t) (inputDesc : Input.Descriptor)
  : GameEngine.t :=
  if Input.isMovement inputDesc
  then GameEngine.processInput inputDesc (GameEngine.playerId e) false e
  else e.

(** The body of the re-enactment loop. *)
Definition reenactStep (s : t) : t :=
  let e := match recentInputs s !! stepCount s with
           | Some bucket => foldl replayInput (gameEngine s) bucket
           | None => gameEngine s
           end in
  setEngine (GameEngine.step true e) s.

(** [for (...; world.stepCount < clientStep;) { ... }] with the number of
    turns still allowed; [None] is an exhausted allowance. *)
Fixpoint reenactLoop (fuel : nat) (clientStep : Z) (s : t) : option t :=
  if stepCount s <? clientStep then
    match fuel with
    | O => None
    | S fuel' => reenactLoop fuel' clientStep (reenactStep s)
    end
  else Some s.

(** The first step that is re-enacted: [sync.stepCount], or
    [world.stepCount - maxReEnactSteps] when that is later. *)
Definition clampServerStep (syncStepCount : Z) (s : t) : Z :=
  if syncStepCount <? stepCount s - maxReEnactSteps (options s)
  then stepCount s - maxReEnactSteps (options s)
  else syncStepCount.

(** The part of [applySync] from the clamp of [serverStep] to the call of
    [cleanRecentInputs].  The scan of the synced objects before it and
    the bending and destruction of objects after it touch neither
    [world.stepCount] nor [recentInputs].  Every turn of the loop
    raises [world.stepCount] by one, so the distance to [clientStep]
    is allowance enough. *)
Definition reenact (syncStepCount : Z) (s : t)
  : option (JS.Result unit * t) :=
  let serverStep := clampServerStep syncStepCount s in
  let clientStep := stepCount s in
  s ← reenactLoop (Z.to_nat (clientStep - serverStep)) clientStep
                  (setStepCount serverStep s);
  Some (cleanRecentInputs serverStep s).

(** How [applySync] ends. *)
Inductive Applied : Type :=
| NotApplied
| SYNC_APPLIED.

(** [applySync(sync, required)], restricted to the step counter and the
    input buffer: a sync of the future is put off unless required. *)
Definition applySync (syncStepCount : Z) (required : bool) (s : t)
  : option (JS.Result Applied * t) :=
  if negb required && (stepCount s <? syncStepCount)
  then Some (JS.Ok NotApplied, s)
  else
    let s := {| gameEngine := gameEngine s; recentInputs := recentInputs s;
                options := options s; needFirstSync := false |} in
    r ← reenact syncStepCount s;
    Some (match r.1 with
          | JS.Ok _ => JS.Ok SYNC_APPLIED
          | JS.Throw e => JS.Throw e
          end, r.2).

(** Two engines with the same settings and objects: re-enactment
    changes neither. *)
Definition sameSetup (e1 e2 : GameEngine.t) : Prop :=
  GameEngine.playerId e1 = GameEngine.playerId e2
  ∧ GameEngine.physicsEngine e1 = GameEngine.physicsEngine e2
  ∧ GameEngine.ignorePhysics e1 = GameEngine.ignorePhysics e2
  ∧ GameEngine.clientIDSpace e1 = GameEngine.clientIDSpace e2
  ∧ GameWorld.objects (GameEngine.world e1)
    = GameWorld.objects (GameEngine.world e2).

(** What one re-enacted step adds to the engine's effects. *)
Definition reenactEffects (e : GameEngine.t)
           (buffer : gmap Z (list Input.Descriptor)) (k : Z)
  : list GameEngine.Effect :=
  ((λ i, GameEngine.ProcessInput i (GameEngine.playerId e) false)
     <$> filter (λ i, Input.isMovement i = true) (buffer !!! k))
  ++ [GameEngine.EmitPreStep (k + 1) true]
  ++ (if GameEngine.physicsEngine e && negb (GameEngine.ignorePhysics e)
      then [GameEngine.PhysicsStep true] else [])
  ++ [GameEngine.EmitPostStep (k + 1) true].

(** Entries are created by the first input of their step and only grow. *)
Definition wfBuffer (m : gmap Z (list Input.Descriptor)) : Prop :=
  ∀ k b, m !! k = Some b → b ≠ [] ∧ Forall (λ i, Input.step i = k) b.

(** The engine steps among a list of effects, one [preStep] each. *)
Definition isPreStep (f : GameEngine.Effect) : bool :=
  match f with
  | GameEngine.EmitPreStep _ _ => true
  | _ => false
  end.

Definition stepsIn (fx : list GameEngine.Effect) : nat :=
  length (filter (λ f, isPreStep f = true) fx).

(** The inputs handed to [processInput] among a list of effects. *)
Definition inputsIn (fx : list GameEngine.Effect) : list Input.Descriptor :=
  omap (λ f, match f with
             | GameEngine.ProcessInput i _ _ => Some i
             | _ => None
             end) fx.


(** The inputs in turn, each through [clientInputSave], into an empty
    buffer. *)
Definition saveAll (inputs : list Input.Descriptor) (s : t) : t :=
  foldl (λ s input, clientInputSave input s) (setRecentInputs ∅ s) inputs.

End ExtrapolateStrategy.

(** ** src/syncStrategies/FrameSyncStrategy.ts: the removal of objects

       The loop under [// destroy objects] ends [applySync] of
       [FrameSyncStrategy]; [InterpolateStrategy] and
       [ExtrapolateStrategy] end with the same loop. *)

Module FrameSyncStrategy.

(** An event of a sync, as the loop reads it. *)
Record SyncEvent : Type := { eventName : string }.

(** [sync.fullUpdate] and [sync.syncObjects], the events by object id. *)
Record Sync : Type := {
  fullUpdate : bool;
  syncObjects : gmap Z (list SyncEvent)
}.

(** [e.eventName === 'objectDestroy']. *)
Definition isDestroy (ev : SyncEvent) : bool :=
  String.eqb (eventName ev) "objectDestroy".

(** One turn of [objEvents.forEach(...)]; a throw ends the call. *)
Definition destroyOnEvent (objId : Z) (acc : JS.Result unit * GameEngine.t)
           (ev : SyncEvent) : JS.Result unit * GameEngine.t :=
  match acc with
  | (JS.Throw err, e) => (JS.Throw err, e)
  | (JS.Ok _, e) =>
      if isDestroy ev
      then GameEngine.removeObjectFromWorld (GameEngine.ById objId) e
      else (JS.Ok tt, e)
  end.

(** One turn of [for (let objId in world.objects)]. *)
Definition destroyTurn (sync : Sync) (acc : JS.Result unit * GameEngine.t)
           (objId : Z) : JS.Result unit * GameEngine.t :=
  match acc with
  | (JS.Throw err, e) => (JS.Throw err, e)
  | (JS.Ok _, e) =>
      let objEvents := syncObjects sync !! objId in
      if fullUpdate sync && bool_decide (objEvents = None)
         && GameEngine.belowClientIDSpace e objId
      then GameEngine.removeObjectFromWorld (GameEngine.ById objId) e
      else
        match objEvents with
        | None => (JS.Ok tt, e)
        | Some events =>
            if GameEngine.inClientIDSpace e objId then (JS.Ok tt, e)
            else foldl (destroyOnEvent objId) (JS.Ok tt, e) events
        end
  end.

(** The whole loop.  A turn removes no object but its own, so the keys
    that the loop visits are those of the world as the loop finds it. *)
Definition destroyObjects (sync : Sync) (e : GameEngine.t)
  : JS.Result unit * GameEngine.t :=
  foldl (destroyTurn sync) (JS.Ok tt, e)
        (JS.keys (GameWorld.objects (GameEngine.world e))).

(** How many [objectDestroy] events the sync has for an id. *)
Definition destroyCount (sync : Sync) (objId : Z) : nat :=
  length (filter (λ ev, isDestroy ev = true)
                 (default [] (syncObjects sync !! objId))).

(** Whether the loop is to remove the object under [objId]: a full update
    that does not mention an object below [clientIDSpace], or an
    [objectDestroy] event for an object that is not at or above it. *)
Definition doomed (sync : Sync) (e : GameEngine.t) (objId : Z) : bool :=
  match syncObjects sync !! objId with
  | None => fullUpdate sync && GameEngine.belowClientIDSpace e objId
  | Some _ =>
      negb (GameEngine.inClientIDSpace e objId)
      && bool_decide (0 < destroyCount sync objId)%nat
  end.

(** What the removal of the object under [objId] adds to the effects. *)
Definition removalEffects (objs : gmap Z GameObject.t) (objId : Z)
  : list GameEngine.Effect :=
  match objs !! objId with
  | Some o => [GameEngine.CallOnRemoveFromWorld o;
               GameEngine.EmitObjectDestroyed o]
  | None => []
  end.

End FrameSyncStrategy.

(** ** The Timer class *)

Module Timer.

(** [TimerEvent.TYPES]. *)
Inductive EventType : Type :=
| repeat
| single.

(** A [TimerEvent].  Its callback, with the context and the arguments it
    is applied to, is known by a name. *)
Record TimerEvent : Type := {
  id : Z;
  type : EventType;
  time : Z;
  callback : string;
  startOffset : Z
}.

(** A [Timer].  [applied] records the callbacks that [tick] has applied,
    each with the id of its event, in the order of the calls.  A
    callback is taken not to touch the timer. *)
Record t : Type := {
  currentTime : Z;
  isActive : bool;
  idCounter : Z;
  events : gmap Z TimerEvent;
  applied : list (Z * string)
}.

(** [new Timer()]. *)
Definition create : t :=
  {| currentTime := 0; isActive := false; idCounter := 0; events := ∅;
     applied := [] |}.

(** [play()]. *)
Definition play (timer : t) : t :=
  {| currentTime := currentTime timer; isActive := true;
     idCounter := idCounter timer; events := events timer;
     applied := applied timer |}.

(** [event.callback.apply(event.thisContext, event.args)]. *)
Definition applyCallback (event : TimerEvent) (timer : t) : t :=
  {| currentTime := currentTime timer; isActive := isActive timer;
     idCounter := idCounter timer; events := events timer;
     applied := applied timer ++ [(id event, callback event)] |}.

(** [destroy(id)], and [destroyEvent(eventId)], which does the same. *)
Definition destroy (eventId : Z) (timer : t) : t :=
  {| currentTime := currentTime timer; isActive := isActive timer;
     idCounter := idCounter timer; events := delete eventId (events timer);
     applied := applied timer |}.

Definition destroyEvent (eventId : Z) (timer : t) : t := destroy eventId timer.

(** [(this.currentTime - event.startOffset) % event.time == 0]; the
    remainder by 0 is [NaN], which is not 0. *)
Definition due (currentTime : Z) (event : TimerEvent) : bool :=
  if time event =? 0 then false
  else Z.rem (currentTime - startOffset event) (time event) =? 0.

(** One turn of [for (eventId in this.events)] in [tick]. *)
Definition tickEvent (timer : t) (eventId : Z) : t :=
  match events timer !! eventId with
  | None => timer
  | Some event =>
      match type event with
      | repeat =>
          if due (currentTime timer) event then applyCallback event timer
          else timer
      | single =>
          if due (currentTime timer) event
          then destroy (id event) (applyCallback event timer)
          else timer
      end
  end.

(** [tick()]. *)
Definition tick (timer : t) : t :=
  if isActive timer then
    let timer' :=
      {| currentTime := currentTime timer + 1; isActive := isActive timer;
         idCounter := idCounter timer; events := events timer;
         applied := applied timer |} in
    foldl tickEvent timer' (JS.keys (events timer))
  else timer.

(** [new TimerEvent(timer, type, time, callback, ...)] followed by
    [this.events[timerEvent.id] = timerEvent]: the event and the timer
    afterwards. *)
Definition register (type : EventType) (time : Z) (callback : string)
           (timer : t) : TimerEvent * t :=
  let event := {| id := idCounter timer + 1; type := type; time := time;
                  callback := callback;
                  startOffset := currentTime timer |} in
  (event,
   {| currentTime := currentTime timer; isActive := isActive timer;
      idCounter := idCounter timer + 1;
      events := <[id event := event]> (events timer);
      applied := applied timer |}).

(** [loop(time, callback)]. *)
Definition loop (time : Z) (callback : string) (timer : t)
  : TimerEvent * t :=
  register repeat time callback timer.

(** [add(time, callback, thisContext, args)]. *)
Definition add (time : Z) (callback : string) (timer : t)
  : TimerEvent * t :=
  register single time callback timer.

(** [n] calls of [tick] in a row. *)
Fixpoint ticks (n : nat) (timer : t) : t :=
  match n with
  | O => timer
  | S n' => tick (ticks n' timer)
  end.

(** Every event sits under its own id, as [loop] and [add] put it. *)
Definition keyedById (timer : t) : Prop :=
  ∀ k event, events timer !! k = Some event → id event = k.

(** The callbacks that a tick applies for one event. *)
Definition firing (currentTime : Z) (event : TimerEvent)
  : list (Z * string) :=
  if due currentTime event then [(id event, callback event)] else [].

(** What a tick at [currentTime] leaves of an event: a single event that
    is due goes. *)
Definition afterTick (currentTime : Z) (event : TimerEvent)
  : option TimerEvent :=
  match type event with
  | repeat => Some event
  | single => if due currentTime event then None else Some event
  end.

(** The calls for the event [eventId] among the calls that [later] has
    applied since [earlier]. *)
Definition callsSince (eventId : Z) (earlier later : t)
  : list (Z * string) :=
  filter (λ call, call.1 = eventId)
         (drop (length (applied earlier)) (applied later)).

End Timer.

(** ** JavaScript numbers

    The code computes with doubles.  It is embedded over a type of
    numbers with the operations it uses, and read at the binary64
    floats, which are the numbers of the program: what is proved for
    every such type holds of the doubles, with their rounding, their
    infinities and their NaN. *)

Module Num.

Class Number (A : Type) : Type := {
  ofZ : Z → A;
  add : A → A → A;
  sub : A → A → A;
  mul : A → A → A;
  div : A → A → A;
  (** [a < b] *)
  ltb : A → A → bool;
  (** [a <= b] *)
  leb : A → A → bool;
  (** the truthiness of a number: neither zero nor NaN *)
  truthy : A → bool;
  (** [Math.sqrt(s) > m] *)
  sqrtGt : A → A → bool;
  (** [Math.sqrt(s) < m] *)
  sqrtLt : A → A → bool;
  (** [Math.PI] *)
  PI : A
}.

(** The double nearest to a positive integer; exact below 2^53. *)
Fixpoint floatOfPositive (p : positive) : float :=
  match p with
  | xH => 1%float
  | xO p' => PrimFloat.mul 2%float (floatOfPositive p')
  | xI p' => PrimFloat.add (PrimFloat.mul 2%float (floatOfPositive p')) 1%float
  end.

Definition floatOfZ (z : Z) : float :=
  match z with
  | Z0 => 0%float
  | Zpos p => floatOfPositive p
  | Zneg p => PrimFloat.opp (floatOfPositive p)
  end.

(** The numbers of the program. *)
#[global] Instance double : Number float := {|
  ofZ := floatOfZ;
  add := PrimFloat.add;
  sub := PrimFloat.sub;
  mul := PrimFloat.mul;
  div := PrimFloat.div;
  ltb := PrimFloat.ltb;
  leb := PrimFloat.leb;
  truthy := λ a, negb (PrimFloat.eqb a 0%float) && PrimFloat.eqb a a;
  sqrtGt := λ s m, PrimFloat.ltb m (PrimFloat.sqrt s);
  sqrtLt := λ s m, PrimFloat.ltb (PrimFloat.sqrt s) m;
  PI := 0x1.921fb54442d18p+1%float
|}.

End Num.

(** ** src/lib/MathUtils.ts *)

Module MathUtils.
Import Num.

Section WithNumber.
Context {A : Type} `{Number A}.

(** [interpolateDeltaWithWrapping(start, end, percent, wrapMin, wrapMax)];
    the warning it may log is left out. *)
Definition interpolateDeltaWithWrapping
           (start end_ percent wrapMin wrapMax : A) : A :=
  let wrapTest := sub wrapMax wrapMin in
  let half := div wrapTest (ofZ 2) in
  let '(start, end_) :=
    if ltb half (sub start end_) then (start, add end_ wrapTest)
    else if ltb half (sub end_ start) then (add start wrapTest, end_)
    else (start, end_) in
  mul (sub end_ start) percent.

End WithNumber.
End MathUtils.

(** ** The NetworkMonitor class *)

Module NetworkMonitor.
Import Num.

Section WithNumber.
Context {A : Type} `{Number A}.

(** What [now - undefined] gives: NaN. *)
Variable NaN : A.

(** The events emitted: [socket.emit('RTTQuery', queryId)] and
    [this.emit('RTTUpdate', { RTT, RTTAverage })]. *)
Inductive Effect : Type :=
| SocketEmitRTTQuery (queryId : Z)
| EmitRTTUpdate (RTT RTTAverage : A).

(** The client side of the monitor.  [movingFPSAverageSize] is the whole
    number in the option [healthCheckRTTSample] of the client engine, and
    [None] when the client engine has no such option. *)
Record t : Type := {
  queryIdCounter : Z;
  RTTQueries : gmap Z A;
  movingRTTAverage : A;
  movingRTTAverageFrame : list A;
  movingFPSAverageSize : option Z;
  effects : list Effect
}.

(** [registerClient(clientEngine)]; the handler and the interval that it
    installs are the calls of [onReceivedRTTQuery] and [sendRTTQuery]. *)
Definition registerClient (healthCheckRTTSample : option Z) : t :=
  {| queryIdCounter := 0; RTTQueries := ∅; movingRTTAverage := ofZ 0;
     movingRTTAverageFrame := [];
     movingFPSAverageSize := healthCheckRTTSample; effects := [] |}.

(** [sendRTTQuery()] at the time [now]. *)
Definition sendRTTQuery (now : A) (s : t) : t :=
  {| queryIdCounter := queryIdCounter s + 1;
     RTTQueries := <[queryIdCounter s := now]> (RTTQueries s);
     movingRTTAverage := movingRTTAverage s;
     movingRTTAverageFrame := movingRTTAverageFrame s;
     movingFPSAverageSize := movingFPSAverageSize s;
     effects := effects s ++ [SocketEmitRTTQuery (queryIdCounter s)] |}.

(** [frame.reduce((a, b) => a + b)]: without an initial value, an empty
    array throws. *)
Definition reduceAdd (frame : list A) : JS.Result A :=
  match frame with
  | [] => JS.Throw (JS.TypeError
                      "Reduce of empty array with no initial value")
  | a :: rest => JS.Ok (foldl add a rest)
  end.

(** [(new Date().getTime()) - this.RTTQueries[queryId]]. *)
Definition RTTOf (now : A) (queryId : Z) (s : t) : A :=
  match RTTQueries s !! queryId with
  | Some sent => sub now sent
  | None => NaN
  end.

(** [this.movingRTTAverageFrame.length > this.movingFPSAverageSize];
    false against undefined. *)
Definition overfull (frame : list A) (s : t) : bool :=
  match movingFPSAverageSize s with
  | Some size => size <? Z.of_nat (length frame)
  | None => false
  end.

(** [onReceivedRTTQuery(queryId)] at the time [now]. *)
Definition onReceivedRTTQuery (now : A) (queryId : Z) (s : t)
  : JS.Result unit * t :=
  let RTT := RTTOf now queryId s in
  let frame := movingRTTAverageFrame s ++ [RTT] in
  let frame := if overfull frame s then tail frame else frame in
  match reduceAdd frame with
  | JS.Throw e =>
      (JS.Throw e,
       {| queryIdCounter := queryIdCounter s; RTTQueries := RTTQueries s;
          movingRTTAverage := movingRTTAverage s;
          movingRTTAverageFrame := frame;
          movingFPSAverageSize := movingFPSAverageSize s;
          effects := effects s |})
  | JS.Ok sum =>
      let average := div sum (ofZ (Z.of_nat (length frame))) in
      (JS.Ok tt,
       {| queryIdCounter := queryIdCounter s; RTTQueries := RTTQueries s;
          movingRTTAverage := average;
          movingRTTAverageFrame := frame;
          movingFPSAverageSize := movingFPSAverageSize s;
          effects := effects s ++ [EmitRTTUpdate RTT average] |})
  end.

(** What a window of [size] samples keeps of all the samples so far: the
    last [size] of them, and all of them when [size] is undefined. *)
Definition kept (size : option Z) (all : list A) : list A :=
  match size with
  | Some n => drop (length all - Z.to_nat n) all
  | None => all
  end.

(** What happens to the monitor: the interval fires, or a response
    arrives. *)
Inductive Op : Type :=
| Send (now : A)
| Receive (now : A) (queryId : Z).

Definition isReceive (op : Op) : bool :=
  match op with Receive _ _ => true | Send _ => false end.

(** A throw in a handler ends that handler only. *)
Definition apply (s : t) (op : Op) : t :=
  match op with
  | Send now => sendRTTQuery now s
  | Receive now queryId => (onReceivedRTTQuery now queryId s).2
  end.

Definition run (ops : list Op) (s : t) : t := foldl apply s ops.

(** The RTTs of the updates emitted. *)
Definition updates (es : list Effect) : list A :=
  omap (λ e, match e with
             | EmitRTTUpdate RTT _ => Some RTT
             | SocketEmitRTTQuery _ => None
             end) es.

(** The ids of the queries sent. *)
Definition queries (es : list Effect) : list Z :=
  omap (λ e, match e with
             | SocketEmitRTTQuery queryId => Some queryId
             | EmitRTTUpdate _ _ => None
             end) es.

End WithNumber.

Arguments t A : clear implicits.
Arguments Effect A : clear implicits.
Arguments Op A : clear implicits.

End NetworkMonitor.

(** ** The Scheduler class *)

Module Scheduler.
Import Num.

Section WithNumber.
Context {A : Type} `{Number A}.

(** What [currentTime + undefined] gives: NaN. *)
Variable NaN : A.

Definition SIXTY_PER_SEC : A := div (ofZ 1000) (ofZ 60).

(** [0.3], the double nearest to three tenths: what 3 divided by 10
    rounds to. *)
Definition LOOP_SLOW_THRESH : A := div (ofZ 3) (ofZ 10).

Definition LOOP_SLOW_COUNT : Z := 10.

(** [SchedulerOptions]; [tick] tells whether [options.tick] is a
    function, [stepPeriod = None] that the key is missing. *)
Record Options : Type := {
  period : A;
  delay : A;
  stepPeriod : option A;
  tick : bool
}.

(** [emit('loopRunningSlow')], [options.tick()], [setTimeout(nextTick,
    ms)] and [window.requestAnimationFrame(nextTickChecker)]. *)
Inductive Effect : Type :=
| EmitLoopRunningSlow
| CallTick
| SetTimeout (ms : A)
| RequestAnimationFrame.

Record t : Type := {
  options : Options;
  nextExecTime : A;
  requestedDelay : A;
  delayCounter : Z;
  effects : list Effect
}.

(** [new Scheduler(options)]: the defaults, a null [tick] among them,
    when no options are given. *)
Definition create (options : option Options) : t :=
  {| options := default {| period := SIXTY_PER_SEC;
                           delay := div SIXTY_PER_SEC (ofZ 3);
                           stepPeriod := None; tick := false |} options;
     nextExecTime := ofZ 0; requestedDelay := ofZ 0; delayCounter := 0;
     effects := [] |}.

Definition perform (e : Effect) (s : t) : t :=
  {| options := options s; nextExecTime := nextExecTime s;
     requestedDelay := requestedDelay s; delayCounter := delayCounter s;
     effects := effects s ++ [e] |}.

Definition setDelayCounter (n : Z) (s : t) : t :=
  {| options := options s; nextExecTime := nextExecTime s;
     requestedDelay := requestedDelay s; delayCounter := n;
     effects := effects s |}.

Definition setRequestedDelay (d : A) (s : t) : t :=
  {| options := options s; nextExecTime := nextExecTime s;
     requestedDelay := d; delayCounter := delayCounter s;
     effects := effects s |}.

Definition setNextExecTime (time : A) (s : t) : t :=
  {| options := options s; nextExecTime := time;
     requestedDelay := requestedDelay s; delayCounter := delayCounter s;
     effects := effects s |}.

(** [delayTick()] and [hurryTick()]. *)
Definition delayTick (s : t) : t :=
  setRequestedDelay (add (requestedDelay s) (delay (options s))) s.

Definition hurryTick (s : t) : t :=
  setRequestedDelay (sub (requestedDelay s) (delay (options s))) s.

(** What the tick callback does to the scheduler while it runs: its
    calls of [delayTick] and [hurryTick], in their order. *)
Inductive Adjust : Type :=
| Delay
| Hurry.

Definition adjust (s : t) (call : Adjust) : t :=
  match call with
  | Delay => delayTick s
  | Hurry => hurryTick s
  end.

(** [callTick()], with the calls that the callback makes.  Calling a
    [tick] that is not a function throws. *)
Definition callTick (calls : list Adjust) (s : t) : JS.Result unit * t :=
  let s := if LOOP_SLOW_COUNT <=? delayCounter s
           then setDelayCounter 0 (perform EmitLoopRunningSlow s)
           else s in
  if tick (options s)
  then (JS.Ok tt, foldl adjust (perform CallTick s) calls)
  else (JS.Throw (JS.TypeError "this.options.tick is not a function"), s).

(** [stepStartTime > this.nextExecTime + this.options.period *
    LOOP_SLOW_THRESH]. *)
Definition slow (stepStartTime : A) (s : t) : bool :=
  ltb (add (nextExecTime s) (mul (period (options s)) LOOP_SLOW_THRESH))
      stepStartTime.

(** One run of [nextTick()]: the time it starts at, the calls that the
    callback makes, and the time at which the next timeout is set. *)
Record Tick : Type := {
  stepStartTime : A;
  calls : list Adjust;
  timeoutSetAt : A
}.

(** [nextTick()]. *)
Definition nextTick (tk : Tick) (s : t) : JS.Result unit * t :=
  let s := if slow (stepStartTime tk) s
           then setDelayCounter (delayCounter s + 1) s
           else setDelayCounter 0 s in
  match callTick (calls tk) s with
  | (JS.Throw e, s) => (JS.Throw e, s)
  | (JS.Ok _, s) =>
      let next := add (add (stepStartTime tk) (period (options s)))
                      (requestedDelay s) in
      let s := setRequestedDelay (ofZ 0) (setNextExecTime next s) in
      (JS.Ok tt, perform (SetTimeout (sub next (timeoutSetAt tk))) s)
  end.

(** [nextTickChecker()] at [currentTime]; [window] tells whether there
    is one. *)
Definition nextTickChecker (currentTime : A) (calls : list Adjust)
           (window : bool) (s : t) : JS.Result unit * t :=
  let r :=
    if ltb (nextExecTime s) currentTime
    then
      match callTick calls (setDelayCounter (delayCounter s + 1) s) with
      | (JS.Throw e, s) => (JS.Throw e, s)
      | (JS.Ok _, s) =>
          (JS.Ok tt,
           setNextExecTime
             (match stepPeriod (options s) with
              | Some p => add currentTime p
              | None => NaN
              end) s)
      end
    else (JS.Ok tt, s) in
  match r with
  | (JS.Throw e, s) => (JS.Throw e, s)
  | (JS.Ok _, s) =>
      (JS.Ok tt, if window then perform RequestAnimationFrame s else s)
  end.

(** [start()]: a timeout without a delay is one of 0. *)
Definition start (window : bool) (s : t) : t :=
  let s := perform (SetTimeout (ofZ 0)) s in
  if window then perform RequestAnimationFrame s else s.

(** The runs of [nextTick] that the timeouts bring, as long as none
    throws: a throw leaves no timeout behind. *)
Definition runTick (acc : JS.Result unit * t) (tk : Tick)
  : JS.Result unit * t :=
  match acc with
  | (JS.Ok _, s) => nextTick tk s
  | (JS.Throw e, s) => (JS.Throw e, s)
  end.

Definition nextTicks (ticks : list Tick) (s : t) : JS.Result unit * t :=
  foldl runTick (JS.Ok tt, s) ticks.

(** Whether every run of [nextTick] in the list starts late. *)
Fixpoint slowRun (ticks : list Tick) (s : t) : bool :=
  match ticks with
  | [] => true
  | tk :: rest => slow (stepStartTime tk) s && slowRun rest (nextTick tk s).2
  end.

(** The calls of [tick] (false) and the emissions of [loopRunningSlow]
    (true), in their order. *)
Definition signals (es : list Effect) : list bool :=
  omap (λ e, match e with
             | CallTick => Some false
             | EmitLoopRunningSlow => Some true
             | SetTimeout _ | RequestAnimationFrame => None
             end) es.

End WithNumber.

Arguments Options A : clear implicits.
Arguments Effect A : clear implicits.
Arguments t A : clear implicits.
Arguments Tick A : clear implicits.

End Scheduler.

(** ** src/serialize/TwoVector.ts and src/types/Bend.ts *)

Module TwoVector.
Import Num.

Section WithNumber.
Context {A : Type} `{Number A}.

Record t : Type := { x : A; y : A }.

(** [BendOption]: [percent], and [min], [max] when present. *)
Record BendOption : Type := {
  percent : A;
  min : option A;
  max : option A
}.

(** [IncrementalBendOption]. *)
Record IncrementalBendOption : Type := {
  increments : A;
  bend : BendOption
}.

Definition subtract (this other : t) : t :=
  {| x := sub (x this) (x other); y := sub (y this) (y other) |}.

Definition multiplyScalar (this : t) (s : A) : t :=
  {| x := mul (x this) s; y := mul (y this) s |}.

Definition addVector (this other : t) : t :=
  {| x := add (x this) (x other); y := add (y this) (y other) |}.

(** The argument of the square root in [length()]. *)
Definition lengthSquared (this : t) : A :=
  add (mul (x this) (x this)) (mul (y this) (y this)).

(** [increment.length() > m] and [increment.length() < m]. *)
Definition lengthGt (this : t) (m : A) : bool := sqrtGt (lengthSquared this) m.
Definition lengthLt (this : t) (m : A) : bool := sqrtLt (lengthSquared this) m.

(** [this.getBendingDelta(target, options)]. *)
Definition getBendingDelta (this target : t) (options : IncrementalBendOption)
  : t :=
  let increment := target in
  let increment := subtract increment this in
  let increment := multiplyScalar increment (percent (bend options)) in
  if match max (bend options) with
     | Some m => lengthGt increment m
     | None => false
     end
     || match min (bend options) with
        | Some m => lengthLt increment m
        | None => false
        end
  then {| x := ofZ 0; y := ofZ 0 |}
  else multiplyScalar increment (div (ofZ 1) (increments options)).

End WithNumber.

Arguments t A : clear implicits.
Arguments BendOption A : clear implicits.
Arguments IncrementalBendOption A : clear implicits.

End TwoVector.

(** ** src/serialize/PhysicalObject2D.ts: bending *)

Module Bending.
Import Num.

Section WithNumber.
Context {A : Type} `{Number A}.

(** [BendingOptions]: what the [bending] getter of a class returns; a
    field that is absent is [None]. *)
Record Options : Type := {
  position : option (TwoVector.BendOption A);
  velocity : option (TwoVector.BendOption A);
  angle : option (TwoVector.BendOption A);
  angularVelocity : option (TwoVector.BendOption A);
  positionLocal : option (TwoVector.BendOption A);
  velocityLocal : option (TwoVector.BendOption A);
  angleLocal : option (TwoVector.BendOption A);
  angularVelocityLocal : option (TwoVector.BendOption A)
}.

(** The getter of [PhysicalObject2D]: [return {}]. *)
Definition none : Options :=
  {| position := None; velocity := None; angle := None;
     angularVelocity := None; positionLocal := None; velocityLocal := None;
     angleLocal := None; angularVelocityLocal := None |}.

(** [Object.assign(target, source)] for a bending descriptor: the keys
    that [source] has replace those of [target]. *)
Definition assign (target : TwoVector.IncrementalBendOption A)
           (source : option (TwoVector.BendOption A))
  : TwoVector.IncrementalBendOption A :=
  match source with
  | None => target
  | Some o =>
      {| TwoVector.increments := TwoVector.increments target;
         TwoVector.bend :=
           {| TwoVector.percent := TwoVector.percent o;
              TwoVector.min :=
                match TwoVector.min o with
                | Some m => Some m
                | None => TwoVector.min (TwoVector.bend target)
                end;
              TwoVector.max :=
                match TwoVector.max o with
                | Some m => Some m
                | None => TwoVector.max (TwoVector.bend target)
                end |} |}
  end.

End WithNumber.

Arguments Options A : clear implicits.

End Bending.

Module PhysicalObject2D.
Import Num.

Section WithNumber.
Context {A : Type} `{Number A}.

(** The physical fields that [syncTo] copies into an instance made by
    [new this.constructor()]: a saved copy or a bending target. *)
Record Kinematics : Type := {
  kPosition : TwoVector.t A;
  kVelocity : TwoVector.t A;
  kAngle : A;
  kAngularVelocity : A
}.

Record t : Type := {
  position : TwoVector.t A;
  velocity : TwoVector.t A;
  angle : A;
  angularVelocity : A;
  bending : Bending.Options A;
  bendingTarget : option Kinematics;
  bendingIncrements : A;
  bendingPositionDelta : option (TwoVector.t A);
  bendingVelocityDelta : option (TwoVector.t A);
  bendingAVDelta : A;
  bendingAngleDelta : A;
  bendingOptions : option (TwoVector.IncrementalBendOption A)
}.

(** [new PhysicalObject2D(...)] with the given position, velocity, angle
    and angular velocity, and the bending descriptor of its class. *)
Definition create (position velocity : TwoVector.t A)
           (angle angularVelocity : A) (bending : Bending.Options A) : t :=
  {| position := position; velocity := velocity; angle := angle;
     angularVelocity := angularVelocity; bending := bending;
     bendingTarget := None; bendingIncrements := ofZ 0;
     bendingPositionDelta := None; bendingVelocityDelta := None;
     bendingAVDelta := ofZ 0; bendingAngleDelta := ofZ 0;
     bendingOptions := None |}.

(** [fresh.syncTo(this)], read at the physical fields. *)
Definition snapshot (this : t) : Kinematics :=
  {| kPosition := position this; kVelocity := velocity this;
     kAngle := angle this; kAngularVelocity := angularVelocity this |}.

(** [bendToCurrent(fromSource, percent, worldSettings, isLocal,
    increments)]; [worldSettings] is not read. *)
Definition bendToCurrent (fromSource : Kinematics) (percent : A)
           (isLocal : bool) (increments : A) (this : t) : t :=
  let bending0 :=
    {| TwoVector.increments := increments;
       TwoVector.bend := {| TwoVector.percent := percent;
                            TwoVector.min := None;
                            TwoVector.max := None |} |} in
  let positionBending :=
    Bending.assign bending0 (Bending.position (bending this)) in
  let velocityBending :=
    Bending.assign bending0 (Bending.velocity (bending this)) in
  let angleBending :=
    Bending.assign bending0 (Bending.angle (bending this)) in
  let avBending :=
    Bending.assign bending0 (Bending.angularVelocity (bending this)) in
  let positionBending :=
    if isLocal
    then Bending.assign positionBending (Bending.positionLocal (bending this))
    else positionBending in
  let velocityBending :=
    if isLocal
    then Bending.assign velocityBending (Bending.velocityLocal (bending this))
    else velocityBending in
  let angleBending :=
    if isLocal
    then Bending.assign angleBending (Bending.angleLocal (bending this))
    else angleBending in
  let avBending :=
    if isLocal
    then Bending.assign avBending
                        (Bending.angularVelocityLocal (bending this))
    else avBending in
  let incrementScale := div percent increments in
  let positionDelta :=
    TwoVector.getBendingDelta (kPosition fromSource) (position this)
                              positionBending in
  let velocityDelta :=
    TwoVector.getBendingDelta (kVelocity fromSource) (velocity this)
                              velocityBending in
  let avDelta :=
    mul (mul (sub (angularVelocity this) (kAngularVelocity fromSource))
             incrementScale)
        (TwoVector.percent (TwoVector.bend avBending)) in
  let angleDelta :=
    div (MathUtils.interpolateDeltaWithWrapping
           (kAngle fromSource) (angle this)
           (TwoVector.percent (TwoVector.bend angleBending))
           (ofZ 0) (mul (ofZ 2) PI))
        increments in
  {| position := kPosition fromSource;
     velocity := kVelocity fromSource;
     angle := kAngle fromSource;
     angularVelocity := kAngularVelocity fromSource;
     bending := bending this;
     bendingTarget := Some (snapshot this);
     bendingIncrements := increments;
     bendingPositionDelta := Some positionDelta;
     bendingVelocityDelta := Some velocityDelta;
     bendingAVDelta := avDelta;
     bendingAngleDelta := angleDelta;
     bendingOptions := Some bending0 |}.

(** The argument of [applyIncrementalBending]: [None] is a call without
    it, [dt = None] a step description without [dt]. *)
Record StepDesc : Type := { dt : option A }.

(** [timeFactor]: 1 unless [stepDesc.dt] is truthy. *)
Definition timeFactor (stepDesc : option StepDesc) : A :=
  match stepDesc with
  | Some {| dt := Some d |} =>
      if truthy d then div d (div (ofZ 1000) (ofZ 60)) else ofZ 1
  | _ => ofZ 1
  end.

(** [applyIncrementalBending(stepDesc)].  A delta that is still undefined
    makes [clone] throw before anything is changed. *)
Definition applyIncrementalBending (stepDesc : option StepDesc) (this : t)
  : JS.Result t :=
  if negb (truthy (bendingIncrements this))
     || leb (bendingIncrements this) (ofZ 0)
  then JS.Ok this
  else
    let factor := timeFactor stepDesc in
    match bendingPositionDelta this, bendingVelocityDelta this with
    | Some positionDelta, Some velocityDelta =>
        let posDelta := TwoVector.multiplyScalar positionDelta factor in
        let velDelta := TwoVector.multiplyScalar velocityDelta factor in
        JS.Ok
          {| position := TwoVector.addVector (position this) posDelta;
             velocity := TwoVector.addVector (velocity this) velDelta;
             angle := add (angle this) (mul (bendingAngleDelta this) factor);
             angularVelocity :=
               add (angularVelocity this) (mul (bendingAVDelta this) factor);
             bending := bending this;
             bendingTarget := bendingTarget this;
             bendingIncrements := sub (bendingIncrements this) (ofZ 1);
             bendingPositionDelta := bendingPositionDelta this;
             bendingVelocityDelta := bendingVelocityDelta this;
             bendingAVDelta := bendingAVDelta this;
             bendingAngleDelta := bendingAngleDelta this;
             bendingOptions := bendingOptions this |}
    | _, _ =>
        JS.Throw (JS.TypeError
          "Cannot read properties of undefined (reading 'clone')")
    end.

(** [n] calls of [applyIncrementalBending] in a row. *)
Fixpoint applyIncrementalBendingTimes (n : nat) (stepDesc : option StepDesc)
         (this : t) : JS.Result t :=
  match n with
  | O => JS.Ok this
  | S n' =>
      JS.bind (applyIncrementalBending stepDesc this)
              (applyIncrementalBendingTimes n' stepDesc)
  end.

(** Whether [bendingIncrements], set to [increments], lets exactly [n]
    calls of [applyIncrementalBending] bend the object: each of the [n]
    calls finds a value that is truthy and above 0 and lowers it by
    one, and the value they leave is falsy or not above 0.  So it is
    for the whole number [n] as a double. *)
Fixpoint countsDown (n : nat) (increments : A) : bool :=
  match n with
  | O => negb (truthy increments) || leb increments (ofZ 0)
  | S n' =>
      negb (negb (truthy increments) || leb increments (ofZ 0))
      && countsDown n' (sub increments (ofZ 1))
  end.





End WithNumber.

Arguments Kinematics A : clear implicits.
Arguments t A : clear implicits.
Arguments StepDesc A : clear implicits.

End PhysicalObject2D.

(** ** src/serialize/Serializable.ts *)

Module Serializable.

(** Modelled from the spec: [BaseTypes.TYPES], whose file is not part of
    the sources; the spec lists the field types UINT8, INT16, INT32,
    FLOAT32, STRING, CLASSINSTANCE and LIST. *)
Inductive FieldType : Type :=
| UINT8 | INT16 | INT32 | FLOAT32 | STRING | CLASSINSTANCE | LIST.

#[global] Instance FieldType_eq_dec : EqDecision FieldType.
Proof. solve_decision. Defined.

(** A netScheme as the static getters build it: a plain object from field
    names to descriptors [{ type }], in the order of its keys. *)
Definition NetScheme : Type := list (string * FieldType).

(** The values a field holds, as far as [!==] tells them apart; an object
    is known by its identity. *)
Inductive Value : Type :=
| VUndefined
| VNull
| VNumber (n : Z)
| VString (s : string)
| VObject (identity : nat).

#[global] Instance Value_eq_dec : EqDecision Value.
Proof. solve_decision. Defined.

(** [a !== b]. *)
Definition strictNotEqual (a b : Value) : bool := bool_decide (a ≠ b).

Record Instance : Type := {
  (** [this.constructor.name] *)
  className : string;
  (** [this.constructor.netScheme] *)
  classNetScheme : option NetScheme;
  (** [this.classId] *)
  classId : option Z;
  (** [this.netScheme] *)
  netScheme : option NetScheme;
  (** the other own properties *)
  fields : gmap string Value
}.

(** [this[p]]. *)
Definition get (this : Instance) (p : string) : Value :=
  default VUndefined (fields this !! p).

(** [this[p] = v]. *)
Definition set (p : string) (v : Value) (this : Instance) : Instance :=
  {| className := className this; classNetScheme := classNetScheme this;
     classId := classId this; netScheme := netScheme this;
     fields := <[p := v]> (fields this) |}.

(** [netScheme[p].type === BaseTypes.TYPES.STRING]. *)
Definition isString (scheme : NetScheme) (p : string) : bool :=
  match list_find (λ kv, kv.1 = p) scheme with
  | Some (_, (_, ty)) => bool_decide (ty = STRING)
  | None => false
  end.

(** A buffer of bytes. *)
Definition Buffer : Type := list Z.

(** [new DataView(buffer).setUint8(offset, value)]. *)
Definition setUint8 (offset value : Z) (buffer : Buffer) : JS.Result Buffer :=
  if (0 <=? offset) && (offset <? Z.of_nat (length buffer))
  then JS.Ok (<[Z.to_nat offset := value mod 256]> buffer)
  else JS.Throw (JS.ErrorMsg "RangeError: Offset is outside the bounds").

(** [(netScheme).sort()].  The netScheme is a plain object: its own
    properties are the descriptors of the fields, which are not functions,
    and [Object.prototype] has no [sort]; calling the property throws. *)
Definition callSort (scheme : NetScheme) : JS.Result (list string) :=
  JS.Throw (JS.TypeError "netScheme.sort is not a function").

(** The list [changedStrings] of [prunedStringsClone]: the string fields
    of the netScheme whose value differs from the one sent before. *)
Definition changedStrings (scheme : NetScheme) (prev this : Instance)
  : list string :=
  filter (λ p, strictNotEqual (get prev p) (get this p) = true)
         (filter (λ p, isString scheme p = true) scheme.*1).

(** [SerializableOptions]. *)
Record Options : Type := {
  dataBuffer : option Buffer;
  bufferOffset : option Z;
  dry : bool
}.

(** What [serialize] returns: [{ dataBuffer, bufferOffset }]. *)
Record Serialized : Type := {
  outBuffer : option Buffer;
  outOffset : Z
}.

Section WithSerializer.

(** The loop over the fields, with the calls of
    [serializer.writeDataView] and [serializer.getTypeByteSize] of the
    Serializer, whose file is not part of the sources.  It is entered with
    the list the loop header evaluates to, the buffer and the offsets. *)
Variable fieldLoop :
  Instance → NetScheme → list string → bool → option Buffer → Z → Z →
  JS.Result Serialized.

Variable deserialize : Buffer → Instance.

(** [new this.constructor(null, { id: null })]: the fields of a fresh
    instance of the class of [this]. *)
Variable construct : Instance → gmap string Value.

(** The class id that is written: [this.classId] when truthy, else the
    hash of the class name. *)
Definition classIdOf (this : Instance) : Z :=
  match classId this with
  | Some (Zpos _ as c) | Some (Zneg _ as c) => c
  | _ => Utils.hashStr (JS.charCodes (className this)) None
  end.

(** The netScheme that is used: [this.netScheme], else that of the class. *)
Definition schemeOf (this : Instance) : option NetScheme :=
  match netScheme this with
  | Some scheme => Some scheme
  | None => classNetScheme this
  end.

(** [serialize(serializer, options)], with [dryRun] for the call
    [this.serialize(serializer, { dry: true })] that sizes the buffer. *)
Definition serializeWith (dryRun : Instance → JS.Result Serialized)
           (this : Instance) (options : Options) : JS.Result Serialized :=
  let offset := default 0 (bufferOffset options) in
  let localBufferOffset := 0 in
  let classId := classIdOf this in
  let scheme := schemeOf this in
  buffer ← (match dataBuffer options, dry options with
            | None, false =>
                sized ← dryRun this;
                JS.Ok (Some (replicate (Z.to_nat (outOffset sized)) 0))
            | b, _ => JS.Ok b
            end);
  buffer ← (if dry options then JS.Ok buffer
            else match buffer with
                 | Some b =>
                     b' ← setUint8 (offset + localBufferOffset) classId b;
                     JS.Ok (Some b')
                 | None =>
                     JS.Throw (JS.TypeError "DataView needs an ArrayBuffer")
                 end);
  let localBufferOffset := localBufferOffset + 1 in
  match scheme with
  | Some scheme =>
      properties ← callSort scheme;
      fieldLoop this scheme properties (dry options) buffer offset
                localBufferOffset
  | None => JS.Ok {| outBuffer := buffer; outOffset := localBufferOffset |}
  end.

Definition serializeDry (this : Instance) : JS.Result Serialized :=
  serializeWith
    (λ _, JS.Throw (JS.ErrorMsg "a dry run asks for no further dry run"))
    this {| dataBuffer := None; bufferOffset := None; dry := true |}.

Definition serialize (this : Instance) (options : Options)
  : JS.Result Serialized :=
  serializeWith serializeDry this options.

(** [prunedStringsClone(serializer, prevObject)].  [Object.keys] of an
    undefined netScheme throws. *)
Definition prunedStringsClone (prevObject : option Buffer) (this : Instance)
  : JS.Result Instance :=
  match prevObject with
  | None => JS.Ok this
  | Some prevBuffer =>
      let prevObject := deserialize prevBuffer in
      match classNetScheme this with
      | None =>
          JS.Throw (JS.TypeError "Cannot convert undefined or null to object")
      | Some scheme =>
          let hasChanged p :=
            strictNotEqual (get prevObject p) (get this p) in
          let changedStrings :=
            filter (λ p, hasChanged p = true)
                   (filter (λ p, isString scheme p = true) scheme.*1) in
          if bool_decide (length changedStrings = 0%nat) then JS.Ok this
          else
            let prunedCopy :=
              {| className := className this;
                 classNetScheme := classNetScheme this;
                 classId := None; netScheme := None;
                 fields := construct this |} in
            JS.Ok (foldl (λ copy p,
                            set p (if bool_decide (p ∈ changedStrings)
                                   then VNull else get this p) copy)
                         prunedCopy scheme.*1)
      end
  end.

(** The turn of the loop of [ServerEngine.serializeUpdate] for one object
    of the room, when it completes: the instance put into the
    [objectUpdate] event ([None] when the object is skipped) and
    [objMemory] afterwards. *)
Definition serializeUpdateObject (diffUpdate : bool)
           (objMemory : gmap Z Buffer) (objId : Z) (obj : Instance)
  : JS.Result (option Instance * gmap Z Buffer) :=
  let prevObject := objMemory !! objId in
  if diffUpdate then
    s ← serialize obj {| dataBuffer := None; bufferOffset := None;
                        dry := false |};
    let bytes := default [] (outBuffer s) in
    if bool_decide (prevObject = Some bytes)
    then JS.Ok (None, objMemory)
    else
      clone ← prunedStringsClone prevObject obj;
      JS.Ok (Some clone, <[objId := bytes]> objMemory)
  else JS.Ok (Some obj, objMemory).

(** The events that [ServerEngine.serializeUpdate] hands to
    [networkTransmitter.addNetworkedEvent]. *)
Inductive NetworkedEvent : Type :=
| SyncHeader (stepCount : Z) (fullUpdate : Z)
| ObjectUpdate (stepCount : Z) (objectInstance : Instance).

(** [world.objects[o]._roomName === roomName]. *)
Definition isInRoom (objects : gmap Z Instance) (roomName : string) (o : Z)
  : bool :=
  match objects !! o with
  | Some obj => bool_decide (get obj "_roomName" = VString roomName)
  | None => false
  end.

(** [Object.keys(world.objects).filter(...)]. *)
Definition roomObjects (objects : gmap Z Instance) (roomName : string)
  : list Z :=
  filter (λ o, isInRoom objects roomName o = true) (JS.keys objects).

(** One turn of [for (let objId of roomObjects)]: the events added so far
    and [objMemory].  A key of the world has an object. *)
Definition serializeUpdateTurn (diffUpdate : bool) (stepCount : Z)
           (objects : gmap Z Instance)
           (acc : JS.Result (list NetworkedEvent * gmap Z Buffer))
           (objId : Z)
  : JS.Result (list NetworkedEvent * gmap Z Buffer) :=
  st ← acc;
  match objects !! objId with
  | None => JS.Ok st
  | Some obj =>
      r ← serializeUpdateObject diffUpdate st.2 objId obj;
      match r.1 with
      | None => JS.Ok (st.1, r.2)
      | Some sent => JS.Ok (st.1 ++ [ObjectUpdate stepCount sent], r.2)
      end
  end.

(** [ServerEngine.serializeUpdate(roomName, { diffUpdate })] up to the
    call of [networkTransmitter.serializePayload()], whose file is not
    part of the sources: the events added to the transmitter, in their
    order, and [objMemory] afterwards. *)
Definition serializeUpdate (stepCount : Z) (objects : gmap Z Instance)
           (objMemory : gmap Z Buffer) (roomName : string)
           (diffUpdate : bool)
  : JS.Result (list NetworkedEvent * gmap Z Buffer) :=
  foldl (serializeUpdateTurn diffUpdate stepCount objects)
        (JS.Ok ([SyncHeader stepCount (if diffUpdate then 0 else 1)],
                objMemory))
        (roomObjects objects roomName).

End WithSerializer.

(** [netScheme[p].type]; [None] when the netScheme has no key [p]. *)
Definition typeOf (scheme : NetScheme) (p : string) : option FieldType :=
  match list_find (λ kv, kv.1 = p) scheme with
  | Some (_, (_, ty)) => Some ty
  | None => None
  end.

(** [typeof v === 'string']. *)
Definition isStringValue (v : Value) : bool :=
  match v with VString _ => true | _ => false end.

(** One turn of the loop of [syncTo(other)], for the key [p] of the
    netScheme. *)
Definition syncField (scheme : NetScheme) (other this : Instance)
           (p : string) : Instance :=
  match typeOf scheme p with
  | Some LIST | Some CLASSINSTANCE => this
  | Some STRING =>
      if isStringValue (get other p) then set p (get other p) this
      else this
  | Some _ => set p (get other p) this
  | None => this
  end.

(** [this.syncTo(other)].  A loop [for (p in netScheme)] over an
    undefined netScheme has no turn. *)
Definition syncTo (other this : Instance) : Instance :=
  match classNetScheme this with
  | Some scheme => foldl (syncField scheme other) this scheme.*1
  | None => this
  end.

(** What [syncTo(other)] leaves in the field [p], by the type that the
    netScheme gives to [p]. *)
Definition synced (scheme : option NetScheme) (other this : Instance)
           (p : string) : Value :=
  match scheme ≫= (λ s, typeOf s p) with
  | Some LIST | Some CLASSINSTANCE | None => get this p
  | Some STRING =>
      if isStringValue (get other p) then get other p else get this p
  | Some _ => get other p
  end.

End Serializable.

(** ** The server's own [serializeUpdate] *)

Module ServerUpdate.
Import Serializable.

(** A [GameObject] of the server's world as the instance that
    [serializeUpdate] reads: its class has the netScheme of [GameObject],
    and [_roomName] and [inputId] are own properties where they are
    set. *)
Definition asInstance (o : GameObject.t) : Instance :=
  let own : gmap string Value :=
    {[ "id" := VNumber (GameObject.id o);
       "playerId" := VNumber (GameObject.playerId o) ]} in
  let own := match GameObject.inputId o with
             | Some inputId => <["inputId" := VNumber inputId]> own
             | None => own
             end in
  let own := match GameObject.roomName o with
             | Some room => <["_roomName" := VString room]> own
             | None => own
             end in
  {| className := "GameObject";
     classNetScheme := Some [("id", INT32); ("playerId", INT16)];
     classId := None; netScheme := None; fields := own |}.

Section WithSerializer.

Variable fieldLoop :
  Instance → NetScheme → list string → bool → option Buffer → Z → Z →
  JS.Result Serialized.
Variable deserialize : Buffer → Instance.
Variable construct : Instance → gmap string Value.

(** [serializeUpdate(roomName, { diffUpdate })] in a state of the server,
    up to the call of [serializePayload()]: the payload is the list of
    the events handed to the transmitter.  [objMemory] is empty
    throughout: a full update does not write it, and a diff update
    throws at the first object of the room, in [serialize], before it
    is written. *)
Definition serializeUpdate (s : ServerRooms.t (list NetworkedEvent))
           (roomName : string) (diffUpdate : bool)
  : JS.Result (list NetworkedEvent) :=
  r ← Serializable.serializeUpdate fieldLoop deserialize construct
        (GameWorld.stepCount (ServerRooms.world s))
        (asInstance <$> GameWorld.objects (ServerRooms.world s))
        ∅ roomName diffUpdate;
  JS.Ok r.1.

End WithSerializer.

End ServerUpdate.

(** ** Concrete situations used to exercise the definitions *)

Module Scenario.

(** A client whose world holds the server object 7; ids from 1000000 on
    are the client's own. *)
Definition lobby : GameEngine.t :=
  {| GameEngine.world :=
       {| GameWorld.stepCount := 0; GameWorld.playerCount := 0;
          GameWorld.idCount := 1000000;
          GameWorld.objects := {[ 7 := GameObject.create 7 1 ]} |};
     GameEngine.playerId := 1; GameEngine.clientIDSpace := Some 1000000;
     GameEngine.physicsEngine := false; GameEngine.ignorePhysics := false;
     GameEngine.effects := [] |}.

(** A shadow object the client wants to add. *)
Definition shadow : GameObject.t := GameObject.create 1000001 1.

Definition mkInput (tag : string) (index step : Z) (movement : bool)
  : Input.Descriptor :=
  {| Input.input := tag; Input.messageIndex := index; Input.step := step;
     Input.options := Some {| Input.movement := movement |} |}.

(** A shadow made by the input 5, and the object the server made for
    the same input. *)
Definition firedShadow : GameObject.t :=
  {| GameObject.id := 1000002; GameObject.playerId := 1;
     GameObject.inputId := Some 5; GameObject.roomName := None |}.

Definition firedServerCopy : GameObject.t :=
  {| GameObject.id := 8; GameObject.playerId := 1;
     GameObject.inputId := Some 5; GameObject.roomName := None |}.

(** A client whose world holds the server objects 7, 8 and 9 and the
    shadow 1000001. *)
Definition crowded : GameEngine.t :=
  {| GameEngine.world :=
       {| GameWorld.stepCount := 50; GameWorld.playerCount := 0;
          GameWorld.idCount := 1000002;
          GameWorld.objects :=
            {[ 7 := GameObject.create 7 1;
               8 := GameObject.create 8 2;
               9 := GameObject.create 9 2;
               1000001 := GameObject.create 1000001 1 ]} |};
     GameEngine.playerId := 1; GameEngine.clientIDSpace := Some 1000000;
     GameEngine.physicsEngine := false; GameEngine.ignorePhysics := false;
     GameEngine.effects := [] |}.

(** A full update that updates 7, destroys 8 and does not mention 9. *)
Definition fullSync : FrameSyncStrategy.Sync :=
  {| FrameSyncStrategy.fullUpdate := true;
     FrameSyncStrategy.syncObjects :=
       {[ 7 := [ {| FrameSyncStrategy.eventName := "objectUpdate" |} ];
          8 := [ {| FrameSyncStrategy.eventName := "objectUpdate" |};
                 {| FrameSyncStrategy.eventName := "objectDestroy" |} ] ]}
  |}.

(** An update with two [objectDestroy] events for the object 7. *)
Definition doubleDestroy : FrameSyncStrategy.Sync :=
  {| FrameSyncStrategy.fullUpdate := false;
     FrameSyncStrategy.syncObjects :=
       {[ 7 := [ {| FrameSyncStrategy.eventName := "objectDestroy" |};
                 {| FrameSyncStrategy.eventName := "objectDestroy" |} ] ]}
  |}.

(** A server at step 0 with the default room and no player; it syncs
    every 6 steps, and every 20th sync is a full one. *)
Definition quietServer : ServerRooms.t Z :=
  ServerRooms.createRoom Z ServerRooms.DEFAULT_ROOM_NAME
    {| ServerRooms.world := GameWorld.create;
       ServerRooms.options :=
         {| ServerRooms.updateRate := 6; ServerRooms.fullSyncRate := 20;
            ServerRooms.updateOnObjectCreation := true |};
       ServerRooms.rooms := ∅;
       ServerRooms.connectedPlayers := [];
       ServerRooms.effects := [] |}.

(** A [serializeUpdate] that always completes; its payload is the
    [fullUpdate] of the sync header, [Number(!diffUpdate)]. *)
Definition headerOnly (s : ServerRooms.t Z) (room : string)
           (diffUpdate : bool) : JS.Result Z :=
  JS.Ok (if diffUpdate then 0 else 1).

(** Two sockets that connect without a playerId. *)
Definition alice : ServerRooms.Socket :=
  {| ServerRooms.socketId := "aXk3"; ServerRooms.socketPlayerId := None;
     ServerRooms.dataPlayerId := None |}.

Definition bob : ServerRooms.Socket :=
  {| ServerRooms.socketId := "b7Qz"; ServerRooms.socketPlayerId := None;
     ServerRooms.dataPlayerId := None |}.

(** The server after alice has connected and received her first update. *)
Definition servedAlice : ServerRooms.t Z :=
  (ServerRooms.syncStateToClients Z headerOnly
     ServerRooms.DEFAULT_ROOM_NAME
     (ServerRooms.onPlayerConnected Z alice quietServer).2).2.

(** A server at step 10 without objects. *)
Definition server10 : GameEngine.t :=
  {| GameEngine.world :=
       {| GameWorld.stepCount := 10; GameWorld.playerCount := 1;
          GameWorld.idCount := 0; GameWorld.objects := ∅ |};
     GameEngine.playerId := 0; GameEngine.clientIDSpace := None;
     GameEngine.physicsEngine := false; GameEngine.ignorePhysics := false;
     GameEngine.effects := [] |}.

(** Player 1 sends two inputs for step 5, one for step 7 and one for
    step 30; the server ticks three times in between. *)
Definition traffic : list ServerEngine.Op :=
  [ ServerEngine.Move 1 (mkInput "up" 0 5 true);
    ServerEngine.Move 1 (mkInput "fire" 1 5 false);
    ServerEngine.Move 1 (mkInput "left" 2 7 true);
    ServerEngine.Tick;
    ServerEngine.Move 1 (mkInput "down" 3 30 true);
    ServerEngine.Tick;
    ServerEngine.Tick ].

(** Two sockets with the playerId 1: one sends the movements, by
    ascending step; the other sends a late "fire" for step 3. *)
Definition sharedTraffic : list ServerEngine.Op :=
  [ ServerEngine.Move 1 (mkInput "up" 0 5 true);
    ServerEngine.Move 1 (mkInput "fire" 0 3 false);
    ServerEngine.Tick;
    ServerEngine.Move 1 (mkInput "left" 1 7 true);
    ServerEngine.Tick;
    ServerEngine.Tick ].

(** A client at step 100 that has buffered inputs of the steps 95 to
    99, one of them not a movement; the limit of re-enactment is 60. *)
Definition client100 : ExtrapolateStrategy.t :=
  foldr ExtrapolateStrategy.clientInputSave
    {| ExtrapolateStrategy.gameEngine :=
         {| GameEngine.world :=
              {| GameWorld.stepCount := 100; GameWorld.playerCount := 0;
                 GameWorld.idCount := 1000000; GameWorld.objects := ∅ |};
            GameEngine.playerId := 3;
            GameEngine.clientIDSpace := Some 1000000;
            GameEngine.physicsEngine := false;
            GameEngine.ignorePhysics := false;
            GameEngine.effects := [] |};
       ExtrapolateStrategy.recentInputs := ∅;
       ExtrapolateStrategy.options := ExtrapolateStrategy.defaults;
       ExtrapolateStrategy.needFirstSync := true |}
    [ mkInput "up" 9 99 true; mkInput "fire" 8 98 false;
      mkInput "up" 7 98 true; mkInput "left" 6 97 true;
      mkInput "up" 5 96 true; mkInput "up" 4 95 true ].

(** Scenario S5 in doubles: an object that re-enactment has carried to
    (10, 0), saved at (0, 0) before the sync. *)
Definition S5_object : PhysicalObject2D.t float :=
  PhysicalObject2D.create
    {| TwoVector.x := 10%float; TwoVector.y := 0%float |}
    {| TwoVector.x := 0%float; TwoVector.y := 0%float |}
    0%float 0%float Bending.none.

Definition S5_saved : PhysicalObject2D.Kinematics float :=
  {| PhysicalObject2D.kPosition :=
       {| TwoVector.x := 0%float; TwoVector.y := 0%float |};
     PhysicalObject2D.kVelocity :=
       {| TwoVector.x := 0%float; TwoVector.y := 0%float |};
     PhysicalObject2D.kAngle := 0%float;
     PhysicalObject2D.kAngularVelocity := 0%float |}.

(** [bendToCurrent(saved, 0.5, worldSettings, false, 10)]. *)
Definition S5_bent : PhysicalObject2D.t float :=
  PhysicalObject2D.bendToCurrent S5_saved 0.5%float false 10%float S5_object.

(** [{ dt: 1000 / 60 }]. *)
Definition S5_stepDesc : option (PhysicalObject2D.StepDesc float) :=
  Some {| PhysicalObject2D.dt := Some (PrimFloat.div 1000%float 60%float) |}.

(** A player object with two string fields, as it is now and as the
    buffer sent before decodes: the name is the same, the title is new. *)
Definition playerScheme : Serializable.NetScheme :=
  [ ("id", Serializable.INT32); ("name", Serializable.STRING);
    ("title", Serializable.STRING) ]%string.

Definition playerNow : Serializable.Instance :=
  {| Serializable.className := "Player";
     Serializable.classNetScheme := Some playerScheme;
     Serializable.classId := None; Serializable.netScheme := None;
     Serializable.fields :=
       {[ "id" := Serializable.VNumber 7;
          "name" := Serializable.VString "bob";
          "title" := Serializable.VString "king" ]}%string |}.

Definition playerSent : Serializable.Instance :=
  {| Serializable.className := "Player";
     Serializable.classNetScheme := Some playerScheme;
     Serializable.classId := None; Serializable.netScheme := None;
     Serializable.fields :=
       {[ "id" := Serializable.VNumber 7;
          "name" := Serializable.VString "bob";
          "title" := Serializable.VString "pawn" ]}%string |}.

(** A [PhysicalObject2D] with id 7: its class netScheme lists the own
    fields first and those of [GameObject] after them. *)
Definition physicalObject : Serializable.Instance :=
  {| Serializable.className := "PhysicalObject2D";
     Serializable.classNetScheme :=
       Some [ ("mass", Serializable.FLOAT32);
              ("position", Serializable.CLASSINSTANCE);
              ("angle", Serializable.FLOAT32);
              ("velocity", Serializable.CLASSINSTANCE);
              ("angularVelocity", Serializable.FLOAT32);
              ("id", Serializable.INT32);
              ("playerId", Serializable.INT16) ]%string;
     Serializable.classId := None; Serializable.netScheme := None;
     Serializable.fields :=
       {[ "mass" := Serializable.VNumber 0;
          "position" := Serializable.VObject 1;
          "angle" := Serializable.VNumber 0;
          "velocity" := Serializable.VObject 2;
          "angularVelocity" := Serializable.VNumber 0;
          "id" := Serializable.VNumber 7;
          "playerId" := Serializable.VNumber 1 ]}%string |}.


(** The objects of a server world as [serializeUpdate] reads them: the
    object 7 is in the lobby, the player 9 in another room. *)
Definition roomWorld : gmap Z Serializable.Instance :=
  {[ 7 := Serializable.set "_roomName" (Serializable.VString "/lobby")
                           physicalObject;
     9 := Serializable.set "_roomName" (Serializable.VString "/arena")
                           playerNow ]}.

(** A stand-in for the loop over the fields that writes nothing. *)
Definition noFields (this : Serializable.Instance)
           (scheme : Serializable.NetScheme) (properties : list string)
           (dry : bool) (buffer : option Serializable.Buffer)
           (offset localBufferOffset : Z)
  : JS.Result Serializable.Serialized :=
  JS.Ok {| Serializable.outBuffer := buffer;
           Serializable.outOffset := localBufferOffset |}.


(** A client that averages over two samples, and what happens to its
    monitor: three queries, answered in turn, and a response to a query
    that was never sent. *)
Definition monitor : NetworkMonitor.t float :=
  NetworkMonitor.registerClient (Some 2).

Definition pings : list (NetworkMonitor.Op float) :=
  [NetworkMonitor.Send 1000%float;
   NetworkMonitor.Send 2000%float;
   NetworkMonitor.Receive 1040%float 0;
   NetworkMonitor.Receive 2030%float 1;
   NetworkMonitor.Send 3000%float;
   NetworkMonitor.Receive 3020%float 2].

(** A client whose sample size is zero. *)
Definition monitorWithoutWindow : NetworkMonitor.t float :=
  NetworkMonitor.registerClient (Some 0).


(** A scheduler at sixty ticks per second whose ticks come a tenth of a
    second apart; the callback of the third asks for a delay. *)
Definition scheduler : Scheduler.t float :=
  Scheduler.create
    (Some {| Scheduler.period := Scheduler.SIXTY_PER_SEC;
             Scheduler.delay := PrimFloat.div Scheduler.SIXTY_PER_SEC 3;
             Scheduler.stepPeriod := None;
             Scheduler.tick := true |}).

Definition lateTicks : list (Scheduler.Tick float) :=
  (λ k, {| Scheduler.stepStartTime := Num.floatOfZ (1000 + 100 * k);
           Scheduler.calls := if k =? 2 then [Scheduler.Delay] else [];
           Scheduler.timeoutSetAt := Num.floatOfZ (1001 + 100 * k) |})
    <$> seqZ 0 12.


(** A server at step 0 whose lobby holds the object 7 and no player; it
    syncs every 6 steps, and every 20th sync is a full one.  Its
    [serializeUpdate] is the server's own. *)
Definition busyServer : ServerRooms.t (list Serializable.NetworkedEvent) :=
  ServerRooms.createRoom _ ServerRooms.DEFAULT_ROOM_NAME
    {| ServerRooms.world :=
         GameWorld.addObject
           {| GameObject.id := 7; GameObject.playerId := 1;
              GameObject.inputId := Some 0;
              GameObject.roomName := Some ServerRooms.DEFAULT_ROOM_NAME |}
           GameWorld.create;
       ServerRooms.options :=
         {| ServerRooms.updateRate := 6; ServerRooms.fullSyncRate := 20;
            ServerRooms.updateOnObjectCreation := true |};
       ServerRooms.rooms := ∅;
       ServerRooms.connectedPlayers := [];
       ServerRooms.effects := [] |}.

(** The same server with an empty world. *)
Definition idleServer : ServerRooms.t (list Serializable.NetworkedEvent) :=
  ServerRooms.createRoom _ ServerRooms.DEFAULT_ROOM_NAME
    {| ServerRooms.world := GameWorld.create;
       ServerRooms.options :=
         {| ServerRooms.updateRate := 6; ServerRooms.fullSyncRate := 20;
            ServerRooms.updateOnObjectCreation := true |};
       ServerRooms.rooms := ∅;
       ServerRooms.connectedPlayers := [];
       ServerRooms.effects := [] |}.

Definition ownSerializeUpdate
  : ServerRooms.t (list Serializable.NetworkedEvent) → string → bool →
    JS.Result (list Serializable.NetworkedEvent) :=
  ServerUpdate.serializeUpdate noFields (λ _, playerSent) (λ _, ∅).

End Scenario.

(* ================================================================== *)
(** * Properties *)
(* ================================================================== *)

Module UtilsFacts.
Import Utils.

Example hashStr_empty : hashStr [] None = 26.
Proof. reflexivity. Qed.

Example hashStr_TwoVector : hashStr (JS.charCodes "TwoVector") (Some 8) = 33.
Proof. vm_compute. reflexivity. Qed.

Lemma toUint32_range x : 0 <= JS.toUint32 x < 2 ^ 32.
Proof. unfold JS.toUint32. apply Z.mod_pos_bound. lia. Qed.

(** C10.  For every string, [hashStr s 8] (also with the argument
    omitted) lies in [0, 254]: the hash is reduced modulo 2^8 - 1 = 255,
    so 255 itself is never produced as a classId. *)
Theorem hashStr_8_range (s : list Z) :
  0 <= hashStr s (Some 8) <= 254
  ∧ hashStr s (Some 8) = JS.toUint32 (fold_left hashRound (rev s) 5381) mod 255
  ∧ hashStr s None = hashStr s (Some 8)
  ∧ hashStr s (Some 8) ≠ 255.
Proof.
  assert (Hrem : hashStr s (Some 8)
                 = JS.toUint32 (fold_left hashRound (rev s) 5381) mod 255).
  { unfold hashStr. simpl Z.eqb. cbv iota.
    change (2 ^ 8 - 1) with 255.
    apply Z.rem_mod_nonneg; [apply toUint32_range | lia]. }
  pose proof (Z.mod_pos_bound
                (JS.toUint32 (fold_left hashRound (rev s) 5381)) 255 eq_refl).
  repeat split; try (rewrite Hrem; lia); exact Hrem.
Qed.

End UtilsFacts.

Module GameWorldFacts.
Import GameWorld.

Lemma takenFrom_size_le objs p : (size (takenFrom objs p) <= size objs)%nat.
Proof.
  rewrite <- (size_dom objs). apply subseteq_size.
  unfold takenFrom. intros k. rewrite elem_of_filter. tauto.
Qed.

Lemma takenFrom_step objs p o :
  objs !! p = Some o →
  (size (takenFrom objs (p + 1)) < size (takenFrom objs p))%nat.
Proof.
  intros Hp. apply subset_size. unfold takenFrom.
  apply elem_of_subset. split.
  - intros k. rewrite !elem_of_filter. intros [? ?]. split; [lia | done].
  - intros Hall. specialize (Hall p). rewrite !elem_of_filter in Hall.
    destruct Hall as [Hlt _]; [| lia].
    split; [lia |]. apply elem_of_dom. eauto.
Qed.

Lemma findFreeId_spec fuel : ∀ objs p,
  (size (takenFrom objs p) < fuel)%nat →
  ∃ id, findFreeId fuel objs p = Some id
        ∧ p <= id
        ∧ objs !! id = None
        ∧ ∀ j, p <= j < id → is_Some (objs !! j).
Proof.
  induction fuel as [| fuel IH]; intros objs p Hsz; [lia |].
  simpl. destruct (objs !! p) as [o |] eqn:Hp.
  - destruct (IH objs (p + 1)) as (id & Hid & Hle & Hfree & Hbelow).
    { pose proof (takenFrom_step objs p o Hp). lia. }
    exists id. repeat split; [done | lia | done |].
    intros j Hj. destruct (decide (j = p)) as [-> |]; [eauto |].
    apply Hbelow. lia.
  - exists p. repeat split; [lia | done |]. intros j Hj. lia.
Qed.

(** More fuel than needed changes nothing. *)
Lemma findFreeId_more_fuel fuel : ∀ fuel' objs p id,
  findFreeId fuel objs p = Some id → (fuel <= fuel')%nat →
  findFreeId fuel' objs p = Some id.
Proof.
  induction fuel as [| fuel IH]; intros fuel' objs p id Hfind Hle;
    [done |].
  destruct fuel' as [| fuel']; [lia |]. simpl in *.
  destruct (objs !! p); [| done]. apply (IH fuel'); [done | lia].
Qed.

Example getNewId_skips :
  fst <$> getNewId {| stepCount := 0; playerCount := 0; idCount := 3;
                      objects := {[ 3 := GameObject.create 3 0;
                                    4 := GameObject.create 4 0;
                                    6 := GameObject.create 6 0 ]} |}
  = Some 5.
Proof. vm_compute. reflexivity. Qed.

(** C7.  In every world state [getNewId] returns, and what it returns is
    the smallest id at or above [idCount] that is not a key of
    [world.objects]; afterwards [idCount] is that id plus one and nothing
    else of the world has changed. *)
Theorem getNewId_smallest_unused (w : GameWorld.t) :
  ∃ id w',
    getNewId w = Some (id, w')
    ∧ idCount w <= id
    ∧ objects w !! id = None
    ∧ (∀ j, idCount w <= j → objects w !! j = None → id <= j)
    ∧ idCount w' = id + 1
    ∧ objects w' = objects w
    ∧ stepCount w' = stepCount w
    ∧ playerCount w' = playerCount w.
Proof.
  destruct (findFreeId_spec (S (size (objects w))) (objects w) (idCount w))
    as (id & Hid & Hle & Hfree & Hbelow).
  { pose proof (takenFrom_size_le (objects w) (idCount w)). lia. }
  exists id, (setIdCount (id + 1) w).
  unfold getNewId. rewrite Hid. simpl.
  repeat split; try done.
  intros j Hj Hnone. destruct (Z_lt_le_dec j id) as [Hlt |]; [| done].
  destruct (Hbelow j ltac:(lia)) as [o Ho]. congruence.
Qed.

End GameWorldFacts.

Module GameEngineFacts.
Import GameEngine Scenario.

Example remove_present :
  removeObjectFromWorld (ById 7) lobby
  = (JS.Ok tt,
     {| world := {| GameWorld.stepCount := 0; GameWorld.playerCount := 0;
                    GameWorld.idCount := 1000000;
                    GameWorld.objects := ∅ |};
        playerId := 1; clientIDSpace := Some 1000000;
        physicsEngine := false; ignorePhysics := false;
        effects := [CallOnRemoveFromWorld (GameObject.create 7 1);
                    EmitObjectDestroyed (GameObject.create 7 1)] |}).
Proof. reflexivity. Qed.

Example remove_absent :
  JS.isThrow (removeObjectFromWorld (ById 8) lobby).1 = true.
Proof. reflexivity. Qed.

(** C8.  [removeObjectFromWorld] throws exactly when [world.objects] has
    no object under the id.  When the object exists the call invokes its
    [onRemoveFromWorld], then emits [objectDestroyed], and the entry is
    gone from the map afterwards (the other entries stay).  When it
    throws, the engine, and so the world map, is as it was. *)
Theorem removeObjectFromWorld_spec (r : ObjectRef) (e : GameEngine.t) :
  (JS.isThrow (removeObjectFromWorld r e).1 = true
   ↔ GameWorld.objects (world e) !! refId r = None)
  ∧ (∀ o, GameWorld.objects (world e) !! refId r = Some o →
       (removeObjectFromWorld r e).1 = JS.Ok tt
       ∧ effects (removeObjectFromWorld r e).2
         = effects e ++ [CallOnRemoveFromWorld o; EmitObjectDestroyed o]
       ∧ GameWorld.objects (world (removeObjectFromWorld r e).2)
         = delete (refId r) (GameWorld.objects (world e))
       ∧ GameWorld.objects (world (removeObjectFromWorld r e).2) !! refId r
         = None)
  ∧ (JS.isThrow (removeObjectFromWorld r e).1 = true →
       (removeObjectFromWorld r e).2 = e).
Proof.
  unfold removeObjectFromWorld.
  destruct (GameWorld.objects (world e) !! refId r) as [o |] eqn:Hlook;
    simpl.
  - split; [split; discriminate |]. split; [| discriminate].
    intros o' [= <-]. repeat split.
    + by rewrite <- app_assoc.
    + apply lookup_delete_eq.
  - split; [done |]. split; [discriminate | done].
Qed.

Example shadow_not_added : addObjectToWorld shadow lobby = (None, lobby).
Proof. vm_compute. reflexivity. Qed.

Lemma serverCopyArrived_true (e : GameEngine.t) (object : GameObject.t) :
  (∃ k o i, GameWorld.objects (world e) !! k = Some o
            ∧ GameObject.inputId o = Some i
            ∧ GameObject.inputId object = Some i) →
  serverCopyArrived e object = true.
Proof.
  intros (k & o & i & Hk & Ho & Hobj).
  unfold serverCopyArrived. apply bool_decide_eq_true.
  exists k, o. split; [done |].
  unfold sameInputId. rewrite Ho. by apply bool_decide_eq_true.
Qed.

(** C9.  For an object whose id is at or above [clientIDSpace]: when some
    object registered in the world has the same own [inputId] (the
    default 0 of the constructor included), [addObjectToWorld] returns
    undefined and does nothing: the object map is as before, neither
    [onAddToWorld] is called nor [objectAdded] emitted. *)
Theorem addObjectToWorld_shadow_noop
    (object : GameObject.t) (e : GameEngine.t) (c : Z)
    (Hspace : clientIDSpace e = Some c)
    (Hid : c <= GameObject.id object)
    (Htwin : ∃ k o i, GameWorld.objects (world e) !! k = Some o
                      ∧ GameObject.inputId o = Some i
                      ∧ GameObject.inputId object = Some i) :
  addObjectToWorld object e = (None, e)
  ∧ GameWorld.objects (world (addObjectToWorld object e).2)
    = GameWorld.objects (world e)
  ∧ effects (addObjectToWorld object e).2 = effects e
  ∧ (CallOnAddToWorld object
       ∉ drop (length (effects e)) (effects (addObjectToWorld object e).2))
  ∧ (EmitObjectAdded object
       ∉ drop (length (effects e)) (effects (addObjectToWorld object e).2)).
Proof.
  assert (Hnoop : addObjectToWorld object e = (None, e)).
  { unfold addObjectToWorld, inClientIDSpace. rewrite Hspace.
    rewrite (serverCopyArrived_true e object Htwin).
    by rewrite (Zle_imp_le_bool _ _ Hid). }
  rewrite Hnoop. simpl. rewrite drop_all.
  repeat split; try done; apply not_elem_of_nil.
Qed.

Lemma addObjectToWorld_shadow_noop_witness :
  addObjectToWorld shadow lobby = (None, lobby)
  ∧ GameObject.inputId shadow = Some 0.
Proof.
  split; [| reflexivity].
  refine (proj1 (addObjectToWorld_shadow_noop shadow lobby 1000000
                   eq_refl _ _)).
  - vm_compute. discriminate.
  - exists 7, (GameObject.create 7 1), 0.
    split; [reflexivity | split; reflexivity].
Defined.

End GameEngineFacts.

Module JSFacts.

Lemma keys_Permutation {A} (o : gmap Z A) : JS.keys o ≡ₚ elements (dom o).
Proof. apply merge_sort_Permutation. Qed.

Lemma elem_of_keys {A} (o : gmap Z A) k : k ∈ JS.keys o ↔ is_Some (o !! k).
Proof.
  rewrite keys_Permutation, elem_of_elements. apply elem_of_dom.
Qed.

Lemma NoDup_keys {A} (o : gmap Z A) : NoDup (JS.keys o).
Proof. rewrite keys_Permutation. apply NoDup_elements. Qed.

Lemma Sorted_keys {A} (o : gmap Z A) : Sorted Z.le (JS.keys o).
Proof. apply (Sorted_merge_sort Z.le). Qed.

Lemma keys_empty {A} : JS.keys (∅ : gmap Z A) = [].
Proof. reflexivity. Qed.

Lemma arrayIndexKeys_insert {A} (o : gmap Z A) (k : Z) (v : A) :
  0 <= k < 2 ^ 32 - 1 → JS.arrayIndexKeys o →
  JS.arrayIndexKeys (<[k := v]> o).
Proof. intros Hk Ho. by apply map_Forall_insert_2. Qed.

Lemma foldr_min_le x rest : foldr Z.min x rest <= x.
Proof. induction rest as [| y rest IH]; simpl; lia. Qed.

Lemma foldr_min_lower x rest y : y ∈ rest → foldr Z.min x rest <= y.
Proof.
  induction rest as [| z rest IH]; simpl; [by rewrite elem_of_nil |].
  rewrite elem_of_cons. intros [-> | Hin]; [lia |].
  specialize (IH Hin). lia.
Qed.

Lemma foldr_min_elem x rest :
  foldr Z.min x rest = x ∨ foldr Z.min x rest ∈ rest.
Proof.
  induction rest as [| z rest IH]; simpl; [by left |].
  destruct (Z.min_spec z (foldr Z.min x rest)) as [[_ ->] | [_ ->]].
  - right. apply elem_of_cons. by left.
  - destruct IH as [-> | Hin]; [by left |].
    right. apply elem_of_cons. by right.
Qed.

(** [Math.min] returns an element of the list, below all the others. *)
Lemma min_spec xs m :
  JS.min xs = Some m ↔ m ∈ xs ∧ ∀ x, x ∈ xs → m <= x.
Proof.
  destruct xs as [| x rest]; simpl.
  - split; [discriminate |]. intros [Hin _]. by apply elem_of_nil in Hin.
  - split.
    + intros [= <-]. split.
      * apply elem_of_cons.
        destruct (foldr_min_elem x rest) as [-> | Hin]; [by left | by right].
      * intros y. rewrite elem_of_cons. intros [-> | Hin].
        -- apply foldr_min_le.
        -- by apply foldr_min_lower.
    + intros [Hin Hlow]. f_equal. apply Z.le_antisymm.
      * apply elem_of_cons in Hin as [-> | Hin];
          [apply foldr_min_le | by apply foldr_min_lower].
      * apply Hlow. apply elem_of_cons.
        destruct (foldr_min_elem x rest) as [-> | Hin']; [by left | by right].
Qed.

Lemma min_None xs : JS.min xs = None ↔ xs = [].
Proof. destruct xs; simpl; split; done. Qed.

Lemma bind_ext_elem {A B} (f g : A → list B) (l : list A) :
  (∀ x, x ∈ l → f x = g x) → l ≫= f = l ≫= g.
Proof.
  induction l as [| x l IH]; intros Hfg; [done |].
  rewrite !bind_cons, IH, (Hfg x).
  - done.
  - apply elem_of_cons. by left.
  - intros y Hy. apply Hfg, elem_of_cons. by right.
Qed.

End JSFacts.

Module ServerEngineFacts.
Import ServerEngine.

(** *** The waiting inputs of a queue *)

Lemma keys_map_to_list {A} (q : gmap Z A) : JS.keys q ≡ₚ (map_to_list q).*1.
Proof.
  apply NoDup_Permutation;
    [apply JSFacts.NoDup_keys | apply NoDup_fst_map_to_list |].
  intros k. rewrite JSFacts.elem_of_keys, list_elem_of_fmap. split.
  - intros [v Hv]. exists (k, v). split; [done |].
    by apply elem_of_map_to_list.
  - intros ([k' v] & -> & Hin). apply elem_of_map_to_list in Hin. eauto.
Qed.

Lemma bind_lookup_total (q : gmap Z (list Input.Descriptor))
      (l : list (Z * list Input.Descriptor)) :
  Forall (λ kv, q !! kv.1 = Some kv.2) l →
  l.*1 ≫= (λ k, q !!! k) = l ≫= snd.
Proof.
  induction 1 as [| [k v] l Hkv _ IH]; [done |].
  rewrite fmap_cons, !bind_cons, IH. simpl in *.
  by rewrite (lookup_total_correct _ _ _ Hkv).
Qed.

Lemma pendingOf_map_to_list q : pendingOf q ≡ₚ map_to_list q ≫= snd.
Proof.
  unfold pendingOf. rewrite keys_map_to_list.
  rewrite bind_lookup_total; [done |].
  apply Forall_forall. intros [k v] Hin. by apply elem_of_map_to_list.
Qed.

Lemma pendingOf_delete q m b :
  q !! m = Some b → pendingOf q ≡ₚ b ++ pendingOf (delete m q).
Proof.
  intros Hm. rewrite !pendingOf_map_to_list.
  by rewrite <- (map_to_list_delete q m b Hm).
Qed.

Lemma pendingOf_insert_fresh q k b :
  q !! k = None → pendingOf (<[k := b]> q) ≡ₚ pendingOf q ++ b.
Proof.
  intros Hk. rewrite !pendingOf_map_to_list.
  rewrite (map_to_list_insert q k b Hk). simpl.
  apply Permutation_app_comm.
Qed.

Lemma pendingOf_push q k d :
  pendingOf (<[k := default [] (q !! k) ++ [d]]> q) ≡ₚ pendingOf q ++ [d].
Proof.
  destruct (q !! k) as [b |] eqn:Hk; simpl.
  - rewrite <- insert_delete_eq.
    rewrite pendingOf_insert_fresh by apply lookup_delete_eq.
    rewrite (pendingOf_delete q k b Hk).
    rewrite app_assoc. apply Permutation_app_tail, Permutation_app_comm.
  - by apply pendingOf_insert_fresh.
Qed.

(** *** The oldest due bucket *)

Lemma oldestDue_spec sc (q : gmap Z (list Input.Descriptor)) m :
  oldestDue sc q = Some m
  ↔ is_Some (q !! m) ∧ (∀ k, is_Some (q !! k) → m <= k) ∧ m <= sc.
Proof.
  unfold oldestDue. split.
  - destruct (JS.min (JS.keys q)) as [m' |] eqn:Hmin; [| done].
    apply JSFacts.min_spec in Hmin as [Hin Hlow].
    destruct (Z.leb_spec m' sc); [| done]. intros [= <-].
    split; [by apply JSFacts.elem_of_keys |]. split; [| done].
    intros k Hk. by apply Hlow, JSFacts.elem_of_keys.
  - intros (Hm & Hlow & Hsc).
    assert (JS.min (JS.keys q) = Some m) as ->.
    { apply JSFacts.min_spec. split; [by apply JSFacts.elem_of_keys |].
      intros k Hk. by apply Hlow, JSFacts.elem_of_keys. }
    by rewrite (Zle_imp_le_bool _ _ Hsc).
Qed.

Lemma oldestDue_empty sc : oldestDue sc ∅ = None.
Proof. reflexivity. Qed.

Lemma popped_afterPop sc q :
  pendingOf q ≡ₚ popped sc q ++ pendingOf (afterPop sc q).
Proof.
  unfold popped, afterPop.
  destruct (oldestDue sc q) as [m |] eqn:Hdue; [| done].
  apply oldestDue_spec in Hdue as ([b Hb] & _ & _).
  rewrite (lookup_total_correct _ _ _ Hb). by apply pendingOf_delete.
Qed.

(** *** One server step *)

Lemma dispatched_app p fx1 fx2 :
  dispatched p (fx1 ++ fx2) = dispatched p fx1 ++ dispatched p fx2.
Proof. apply omap_app. Qed.

Lemma dispatchInput_world k e i :
  GameEngine.world (dispatchInput k e i) = GameEngine.world e.
Proof. reflexivity. Qed.

Lemma dispatchInput_dispatched k p e i :
  dispatched p (GameEngine.effects (dispatchInput k e i))
  = dispatched p (GameEngine.effects e) ++ (if decide (k = p) then [i] else []).
Proof.
  unfold dispatchInput, GameEngine.processInput, GameEngine.perform. simpl.
  rewrite !dispatched_app. simpl.
  destruct (decide (k = p)); simpl; by rewrite !app_nil_r.
Qed.

Lemma dispatch_bucket k p bucket : ∀ e,
  GameEngine.world (foldl (dispatchInput k) e bucket) = GameEngine.world e
  ∧ dispatched p (GameEngine.effects (foldl (dispatchInput k) e bucket))
    = dispatched p (GameEngine.effects e)
      ++ (if decide (k = p) then bucket else []).
Proof.
  induction bucket as [| i bucket IH]; intros e; simpl.
  - split; [done |]. destruct (decide (k = p)); by rewrite app_nil_r.
  - destruct (IH (dispatchInput k e i)) as [-> ->].
    split; [done |]. rewrite dispatchInput_dispatched.
    destruct (decide (k = p)); simpl; by rewrite <- app_assoc.
Qed.

Abbreviation queueOf s p := (playerInputQueues s !!! p).
Abbreviation served p s := (dispatched p (GameEngine.effects (gameEngine s))).

Lemma replayOldest_spec s k p :
  stepCount (replayOldest s k) = stepCount s
  ∧ queueOf (replayOldest s k) p
    = (if decide (k = p) then afterPop (stepCount s) (queueOf s k)
       else queueOf s p)
  ∧ served p (replayOldest s k)
    = served p s
      ++ (if decide (k = p) then popped (stepCount s) (queueOf s k) else []).
Proof.
  unfold replayOldest, afterPop, popped, oldestDue.
  destruct (JS.min (JS.keys (queueOf s k))) as [m |].
  - destruct (m <=? stepCount s).
    + destruct (dispatch_bucket k p (queueOf s k !!! m) (gameEngine s))
        as [Hw Hd].
      unfold stepCount at 1. simpl. rewrite Hw, Hd.
      split; [done |]. split; [| done].
      destruct (decide (k = p)) as [-> |].
      * by rewrite lookup_total_insert_eq.
      * by rewrite lookup_total_insert_ne.
    + destruct (decide (k = p)) as [-> |]; by rewrite app_nil_r.
  - destruct (decide (k = p)) as [-> |]; by rewrite app_nil_r.
Qed.

Lemma replay_fold ks : NoDup ks → ∀ s p,
  stepCount (foldl replayOldest s ks) = stepCount s
  ∧ queueOf (foldl replayOldest s ks) p
    = (if decide (p ∈ ks) then afterPop (stepCount s) (queueOf s p)
       else queueOf s p)
  ∧ served p (foldl replayOldest s ks)
    = served p s
      ++ (if decide (p ∈ ks) then popped (stepCount s) (queueOf s p) else []).
Proof.
  induction 1 as [| k ks Hk _ IH]; intros s p; simpl.
  - split; [done |]. split; [| by rewrite app_nil_r].
    destruct (decide (p ∈ [])) as [Hin |]; [| done].
    by apply elem_of_nil in Hin.
  - destruct (IH (replayOldest s k) p) as (-> & -> & ->).
    destruct (replayOldest_spec s k p) as (-> & -> & ->).
    split; [done |].
    assert (Hcons : p ∈ k :: ks ↔ k = p ∨ p ∈ ks)
      by (rewrite elem_of_cons; naive_solver).
    repeat case_decide; subst; rewrite ?app_nil_r; try done;
      exfalso; naive_solver.
Qed.

Lemma step_served p isReenact e :
  dispatched p (GameEngine.effects (GameEngine.step isReenact e))
  = dispatched p (GameEngine.effects e).
Proof.
  unfold GameEngine.step. simpl.
  destruct (GameEngine.physicsEngine e && negb (GameEngine.ignorePhysics e));
    simpl; rewrite !dispatched_app; simpl; by rewrite !app_nil_r.
Qed.

Lemma step_stepCount isReenact e q :
  stepCount {| gameEngine := GameEngine.step isReenact e;
               playerInputQueues := q |}
  = GameWorld.stepCount (GameEngine.world e) + 1.
Proof.
  unfold stepCount, GameEngine.step. simpl.
  by destruct (GameEngine.physicsEngine e && negb (GameEngine.ignorePhysics e)).
Qed.

Lemma queueOf_absent s p :
  playerInputQueues s !! p = None → queueOf s p = ∅.
Proof. intros H. by rewrite lookup_total_alt, H. Qed.

(** A step takes from each queue its oldest due bucket and nothing else. *)
Lemma step_spec s p :
  stepCount (step s) = stepCount s + 1
  ∧ queueOf (step s) p = afterPop (stepCount s) (queueOf s p)
  ∧ served p (step s) = served p s ++ popped (stepCount s) (queueOf s p).
Proof.
  unfold step.
  set (s1 := {| gameEngine := GameEngine.perform _ (gameEngine s);
                playerInputQueues := playerInputQueues s |}).
  destruct (replay_fold (JS.keys (playerInputQueues s1))
                        (JSFacts.NoDup_keys _) s1 p) as (Hsc & Hq & Hd).
  set (s2 := foldl replayOldest s1 (JS.keys (playerInputQueues s1))) in *.
  change (stepCount s1) with (stepCount s) in *.
  change (queueOf s1 p) with (queueOf s p) in *.
  assert (Hd1 : served p s1 = served p s).
  { unfold s1. simpl. rewrite dispatched_app. simpl. apply app_nil_r. }
  rewrite Hd1 in Hd.
  assert (Hempty : p ∉ JS.keys (playerInputQueues s1) → queueOf s p = ∅).
  { rewrite JSFacts.elem_of_keys. intros Hnin. apply queueOf_absent.
    destruct (playerInputQueues s !! p) eqn:E; [| done].
    exfalso. apply Hnin. simpl. eauto. }
  split; [| split].
  - rewrite <- Hsc. apply step_stepCount.
  - simpl. rewrite Hq. case_decide as Hin; [done |].
    by rewrite (Hempty Hin).
  - cbn [gameEngine]. rewrite step_served, Hd.
    case_decide as Hin; [done |].
    by rewrite (Hempty Hin).
Qed.

(** *** Receiving an input *)

Lemma queueInput_spec d k s p :
  gameEngine (queueInputForPlayer d k s) = gameEngine s
  ∧ queueOf (queueInputForPlayer d k s) p
    = (if decide (k = p)
       then <[Input.step d :=
                default [] (queueOf s p !! Input.step d) ++ [d]]>
              (queueOf s p)
       else queueOf s p).
Proof.
  split; [done |]. unfold queueInputForPlayer. simpl.
  destruct (playerInputQueues s !! k) as [q0 |] eqn:Hk.
  - destruct (decide (k = p)) as [-> |].
    + rewrite lookup_total_insert_eq.
      by destruct (queueOf s p !! Input.step d).
    + by rewrite lookup_total_insert_ne.
  - rewrite lookup_total_insert_eq.
    destruct (decide (k = p)) as [-> |].
    + rewrite lookup_total_insert_eq, (queueOf_absent s p Hk).
      by rewrite lookup_empty.
    + by rewrite !lookup_total_insert_ne.
Qed.

Lemma received_snoc p ops op :
  received p (ops ++ [op])
  = received p ops
    ++ match op with
       | Move k d => if decide (k = p) then [d] else []
       | Tick => []
       end.
Proof.
  unfold received. rewrite omap_app. f_equal.
  destruct op as [k d |]; simpl; [| done]. by destruct (decide (k = p)).
Qed.

Lemma run_snoc ops op s : run (ops ++ [op]) s = apply (run ops s) op.
Proof. unfold run. by rewrite foldl_snoc. Qed.

(** Nothing is lost and nothing is duplicated: what has been handed to
    [processInput] since the start and what waits are together what was
    received. *)
Lemma run_conservation e0 p ops :
  ∃ new,
    served p (run ops (start e0)) = served p (start e0) ++ new
    ∧ new ++ pending p (run ops (start e0)) ≡ₚ received p ops.
Proof.
  induction ops as [| op ops IH] using rev_ind.
  - exists []. simpl. unfold pending. simpl.
    by rewrite app_nil_r, lookup_total_empty.
  - destruct IH as (new & Hserved & Hperm).
    rewrite run_snoc, received_snoc.
    set (s := run ops (start e0)) in *. unfold pending in *.
    destruct op as [k d |]; cbn [apply].
    + destruct (queueInput_spec d k s p) as [-> ->].
      exists new. split; [done |]. rewrite <- Hperm.
      destruct (decide (k = p)) as [-> |]; [| by rewrite app_nil_r].
      by rewrite pendingOf_push, !app_assoc.
    + destruct (step_spec s p) as (_ & -> & ->).
      exists (new ++ popped (stepCount s) (queueOf s p)).
      rewrite Hserved, <- !app_assoc. split; [done |].
      by rewrite app_nil_r, <- Hperm, <- popped_afterPop.
Qed.

(** *** Arrival order *)

Lemma HdRel_lower (m : Z) (l : list Z) :
  (∀ x, x ∈ l → m <= x) → HdRel Z.le m l.
Proof.
  destruct l as [| y l]; constructor. apply H, elem_of_cons. by left.
Qed.

Lemma TlRel_upper (m : Z) (l : list Z) :
  (∀ x, x ∈ l → x <= m) → TlRel Z.le m l.
Proof.
  destruct l as [| y l _] using rev_ind; constructor.
  apply H, elem_of_app. right. apply elem_of_cons. by left.
Qed.

Lemma elem_of_keys_delete {A} (q : gmap Z A) m k :
  k ∈ JS.keys (delete m q) ↔ k ≠ m ∧ k ∈ JS.keys q.
Proof.
  rewrite !JSFacts.elem_of_keys, lookup_delete.
  case_decide; subst; split.
  - by intros [? ?].
  - by intros [? _].
  - done.
  - by intros [_ ?].
Qed.

(** The keys of a queue start with its smallest key. *)
Lemma keys_delete_min {A} (q : gmap Z A) m :
  is_Some (q !! m) → (∀ k, is_Some (q !! k) → m <= k) →
  JS.keys q = m :: JS.keys (delete m q).
Proof.
  intros Hm Hlow. apply (Sorted_unique Z.le).
  - apply JSFacts.Sorted_keys.
  - constructor; [apply JSFacts.Sorted_keys |].
    apply HdRel_lower. intros x [_ Hx]%elem_of_keys_delete.
    by apply Hlow, JSFacts.elem_of_keys.
  - apply NoDup_Permutation; [apply JSFacts.NoDup_keys | |].
    + constructor; [| apply JSFacts.NoDup_keys].
      rewrite elem_of_keys_delete. by intros [? _].
    + intros x. rewrite elem_of_cons, elem_of_keys_delete.
      destruct (decide (x = m)) as [-> |]; split; try tauto.
      intros _. by apply JSFacts.elem_of_keys.
Qed.

(** A key above all the others comes last. *)
Lemma keys_insert_max {A} (q : gmap Z A) k v :
  (∀ x, is_Some (q !! x) → x <= k) →
  JS.keys (<[k := v]> q) = JS.keys (delete k q) ++ [k].
Proof.
  intros Hup. apply (Sorted_unique Z.le).
  - apply JSFacts.Sorted_keys.
  - apply Sorted_snoc; [apply JSFacts.Sorted_keys |].
    apply TlRel_upper. intros x [_ Hx]%elem_of_keys_delete.
    by apply Hup, JSFacts.elem_of_keys.
  - apply NoDup_Permutation; [apply JSFacts.NoDup_keys | |].
    + apply NoDup_app. split; [apply JSFacts.NoDup_keys |].
      split; [| apply NoDup_singleton].
      intros x [Hne _]%elem_of_keys_delete Hx.
      by apply list_elem_of_singleton in Hx.
    + intros x. rewrite elem_of_app, list_elem_of_singleton.
      rewrite elem_of_keys_delete, !JSFacts.elem_of_keys, lookup_insert.
      case_decide; subst.
      * split; [by right | eauto].
      * split; [intros ?; by left | intros [[_ ?] | ?]; done].
Qed.

Lemma pendingOf_pop_exact sc q :
  pendingOf q = popped sc q ++ pendingOf (afterPop sc q).
Proof.
  unfold popped, afterPop.
  destruct (oldestDue sc q) as [m |] eqn:Hdue; [| done].
  apply oldestDue_spec in Hdue as (Hm & Hlow & _).
  unfold pendingOf. rewrite (keys_delete_min q m Hm Hlow), bind_cons.
  f_equal. apply JSFacts.bind_ext_elem.
  intros k [Hne _]%elem_of_keys_delete. by rewrite lookup_total_delete_ne.
Qed.

Lemma pendingOf_split_max (q : gmap Z (list Input.Descriptor)) k :
  (∀ x, is_Some (q !! x) → x <= k) →
  pendingOf q
  = (JS.keys (delete k q) ≫= (λ x, q !!! x)) ++ default [] (q !! k).
Proof.
  intros Hup. unfold pendingOf.
  destruct (q !! k) as [b |] eqn:Hk; simpl.
  - rewrite <- (insert_id q k b Hk) at 1.
    rewrite (keys_insert_max q k b Hup), bind_app, bind_cons.
    by rewrite (lookup_total_correct _ _ _ Hk), !app_nil_r.
  - by rewrite (delete_id q k Hk), app_nil_r.
Qed.

Lemma pendingOf_push_exact (q : gmap Z (list Input.Descriptor)) k d :
  (∀ x, is_Some (q !! x) → x <= k) →
  pendingOf (<[k := default [] (q !! k) ++ [d]]> q) = pendingOf q ++ [d].
Proof.
  intros Hup. rewrite (pendingOf_split_max q k Hup). unfold pendingOf.
  rewrite (keys_insert_max q k _ Hup), bind_app, bind_cons.
  rewrite lookup_total_insert_eq, !app_nil_r, app_assoc. do 2 f_equal.
  apply JSFacts.bind_ext_elem.
  intros x [Hne _]%elem_of_keys_delete. by rewrite lookup_total_insert_ne.
Qed.

Lemma wfQueue_empty : wfQueue ∅.
Proof. intros k b Hk. by rewrite lookup_empty in Hk. Qed.

Lemma wfQueue_afterPop sc q : wfQueue q → wfQueue (afterPop sc q).
Proof.
  unfold afterPop. destruct (oldestDue sc q) as [m |]; [| done].
  intros Hwf k b Hk. apply lookup_delete_Some in Hk as [_ Hk].
  by apply Hwf.
Qed.

Lemma wfQueue_push q d :
  wfQueue q →
  wfQueue (<[Input.step d := default [] (q !! Input.step d) ++ [d]]> q).
Proof.
  intros Hwf k b Hk. apply lookup_insert_Some in Hk as [[<- <-] | [_ Hk]].
  - split; [by destruct (default [] _) |].
    apply Forall_app. split; [| by repeat constructor].
    destruct (q !! Input.step d) as [b |] eqn:Hb; [| constructor].
    by apply (Hwf _ _ Hb).
  - by apply Hwf.
Qed.

Lemma wfQueue_key_pending q k :
  wfQueue q → is_Some (q !! k) →
  ∃ i, i ∈ pendingOf q ∧ Input.step i = k.
Proof.
  intros Hwf [b Hb]. destruct (Hwf k b Hb) as [Hne Hall].
  destruct b as [| i b]; [done |]. exists i. split.
  - unfold pendingOf. apply list_elem_of_bind. exists k. split.
    + rewrite (lookup_total_correct _ _ _ Hb). apply elem_of_cons. by left.
    + apply JSFacts.elem_of_keys. eauto.
  - by inversion Hall.
Qed.

(** When a player's inputs arrive by ascending step, they are handed to
    [processInput] in the very order of their arrival. *)
Lemma run_in_order e0 p ops :
  StronglySorted Z.le (Input.step <$> received p ops) →
  ∃ new,
    served p (run ops (start e0)) = served p (start e0) ++ new
    ∧ new ++ pending p (run ops (start e0)) = received p ops
    ∧ wfQueue (queueOf (run ops (start e0)) p).
Proof.
  induction ops as [| op ops IH] using rev_ind; intros Hsorted.
  - exists []. simpl. unfold pending. simpl.
    rewrite app_nil_r, lookup_total_empty. split; [done |].
    split; [done | apply wfQueue_empty].
  - rewrite received_snoc in Hsorted. rewrite fmap_app in Hsorted.
    destruct IH as (new & Hserved & Hexact & Hwf);
      [by apply StronglySorted_app_1_l in Hsorted |].
    rewrite run_snoc, received_snoc.
    set (s := run ops (start e0)) in *. unfold pending in *.
    rewrite <- Hexact in *.
    destruct op as [k d |]; cbn [apply].
    + destruct (queueInput_spec d k s p) as [-> ->].
      exists new. split; [done |].
      destruct (decide (k = p)) as [-> |];
        [| by rewrite app_nil_r].
      split; [| by apply wfQueue_push].
      rewrite pendingOf_push_exact; [by rewrite app_assoc |].
      intros x Hx.
      destruct (wfQueue_key_pending _ x Hwf Hx) as (i & Hi & <-).
      apply (StronglySorted_app_1_elem_of _ _ _ _ _ Hsorted).
      * apply list_elem_of_fmap. exists i. split; [done |].
        apply elem_of_app. by right.
      * simpl. apply elem_of_cons. by left.
    + destruct (step_spec s p) as (_ & -> & ->).
      exists (new ++ popped (stepCount s) (queueOf s p)).
      rewrite Hserved, <- !app_assoc, app_nil_r.
      split; [done |]. split; [| by apply wfQueue_afterPop].
      by rewrite <- pendingOf_pop_exact.
Qed.

(** *** Arrival order of a part of the inputs *)

Lemma StronglySorted_filter (P : Z → Prop) `{∀ x, Decision (P x)} l :
  StronglySorted Z.le l → StronglySorted Z.le (filter P l).
Proof.
  induction 1 as [| x l Hl IH Hx]; [constructor |].
  rewrite filter_cons. case_decide; [| done].
  constructor; [done |]. rewrite Forall_forall in Hx. apply Forall_forall.
  intros y [_ Hy]%list_elem_of_filter. by apply Hx.
Qed.

(** The keys below [k], then [k] if it is one, then the keys above. *)
Lemma around_sorted (l mid : list Z) k :
  StronglySorted Z.le l → NoDup l → mid = [] ∨ mid = [k] →
  let l' := filter (λ x, x < k) l ++ mid ++ filter (λ x, k < x) l in
  StronglySorted Z.le l' ∧ NoDup l'.
Proof.
  intros Hl Hnd Hmid l'. subst l'. split.
  - apply StronglySorted_app_2; [| by apply StronglySorted_filter |].
    + intros x1 x2 [H1 _]%list_elem_of_filter [H2 | H2]%elem_of_app.
      * destruct Hmid as [-> | ->]; [by apply elem_of_nil in H2 |].
        apply list_elem_of_singleton in H2. lia.
      * apply list_elem_of_filter in H2 as [H2 _]. lia.
    + apply StronglySorted_app_2; [| | by apply StronglySorted_filter].
      * intros x1 x2 H1 [H2 _]%list_elem_of_filter.
        destruct Hmid as [-> | ->]; [by apply elem_of_nil in H1 |].
        apply list_elem_of_singleton in H1. lia.
      * destruct Hmid as [-> | ->]; repeat constructor.
  - apply NoDup_app. split; [by apply NoDup_filter |]. split.
    + intros x [H1 _]%list_elem_of_filter [H2 | H2]%elem_of_app.
      * destruct Hmid as [-> | ->]; [by apply elem_of_nil in H2 |].
        apply list_elem_of_singleton in H2. lia.
      * apply list_elem_of_filter in H2 as [H2 _]. lia.
    + apply NoDup_app. split; [| split; [| by apply NoDup_filter]].
      * destruct Hmid as [-> | ->]; [constructor | apply NoDup_singleton].
      * intros x H1 [H2 _]%list_elem_of_filter.
        destruct Hmid as [-> | ->]; [by apply elem_of_nil in H1 |].
        apply list_elem_of_singleton in H1. lia.
Qed.

Lemma sorted_ext (l1 l2 : list Z) :
  StronglySorted Z.le l1 → StronglySorted Z.le l2 → NoDup l1 → NoDup l2 →
  (∀ x, x ∈ l1 ↔ x ∈ l2) → l1 = l2.
Proof.
  intros H1 H2 N1 N2 Hel. apply (StronglySorted_unique Z.le); try done.
  by apply NoDup_Permutation.
Qed.

Lemma StronglySorted_keys {A} (q : gmap Z A) : StronglySorted Z.le (JS.keys q).
Proof. apply Sorted_StronglySorted; [apply _ | apply JSFacts.Sorted_keys]. Qed.

Lemma keys_around {A} (q : gmap Z A) k :
  JS.keys q
  = filter (λ x, x < k) (JS.keys q)
    ++ (if decide (is_Some (q !! k)) then [k] else [])
    ++ filter (λ x, k < x) (JS.keys q).
Proof.
  destruct (around_sorted (JS.keys q)
              (if decide (is_Some (q !! k)) then [k] else []) k)
    as [Hs Hnd];
    [apply StronglySorted_keys | apply JSFacts.NoDup_keys
     | case_decide; [by right | by left] |].
  apply sorted_ext;
    [apply StronglySorted_keys | done | apply JSFacts.NoDup_keys | done |].
  intros x.
  rewrite !elem_of_app, !list_elem_of_filter, !JSFacts.elem_of_keys.
  split.
  - intros Hx. destruct (Z.lt_trichotomy x k) as [? | [-> | ?]];
      [by left | | by right; right].
    right; left. rewrite decide_True by done. by apply list_elem_of_singleton.
  - intros [[_ ?] | [Hx | [_ ?]]]; try done.
    case_decide; [| by apply elem_of_nil in Hx].
    by apply list_elem_of_singleton in Hx as ->.
Qed.

Lemma keys_insert_around {A} (q : gmap Z A) k v :
  JS.keys (<[k := v]> q)
  = filter (λ x, x < k) (JS.keys q) ++ [k] ++ filter (λ x, k < x) (JS.keys q).
Proof.
  destruct (around_sorted (JS.keys q) [k] k) as [Hs Hnd];
    [apply StronglySorted_keys | apply JSFacts.NoDup_keys | by right |].
  apply sorted_ext;
    [apply StronglySorted_keys | done | apply JSFacts.NoDup_keys | done |].
  intros x.
  rewrite !elem_of_app, !list_elem_of_filter, list_elem_of_singleton.
  rewrite !JSFacts.elem_of_keys, lookup_insert.
  case_decide; subst.
  - split; [by right; left | eauto].
  - split.
    + intros Hx. destruct (Z.lt_trichotomy x k) as [? | [-> | ?]];
        [by left | done | by right; right].
    + intros [[_ ?] | [? | [_ ?]]]; done.
Qed.

(** A new input lands at the end of the bucket of its step: after the
    buckets of the smaller steps and before those of the greater ones. *)
Lemma pendingOf_push_around (q : gmap Z (list Input.Descriptor)) k d :
  let lo := filter (λ x, x < k) (JS.keys q) ≫= (λ x, q !!! x) in
  let hi := filter (λ x, k < x) (JS.keys q) ≫= (λ x, q !!! x) in
  pendingOf q = lo ++ default [] (q !! k) ++ hi
  ∧ pendingOf (<[k := default [] (q !! k) ++ [d]]> q)
    = lo ++ (default [] (q !! k) ++ [d]) ++ hi.
Proof.
  intros lo hi. subst lo hi. unfold pendingOf. split.
  - rewrite (keys_around q k) at 1. rewrite !bind_app. do 2 f_equal.
    case_decide as Hk.
    + destruct Hk as [b Hb]. rewrite bind_cons, app_nil_r, Hb. simpl.
      by apply lookup_total_correct.
    + apply eq_None_not_Some in Hk. by rewrite Hk.
  - rewrite keys_insert_around, !bind_app, bind_cons, app_nil_r.
    rewrite lookup_total_insert_eq. f_equal; [| f_equal];
      apply JSFacts.bind_ext_elem; intros x [Hx _]%list_elem_of_filter;
      rewrite lookup_total_insert_ne; (done || lia).
Qed.

(** Take any part of a player's inputs, such as those of one socket.
    When the inputs of that part arrive by ascending step, they are handed
    to [processInput] in the very order of their arrival, whatever the
    player's other inputs do. *)
Lemma run_in_order_of (mine : Input.Descriptor → bool) e0 p ops :
  let part := filter (λ i, mine i = true) in
  StronglySorted Z.le (Input.step <$> part (received p ops)) →
  ∃ new,
    served p (run ops (start e0)) = served p (start e0) ++ new
    ∧ part new ++ part (pending p (run ops (start e0)))
      = part (received p ops)
    ∧ wfQueue (queueOf (run ops (start e0)) p).
Proof.
  intros part.
  induction ops as [| op ops IH] using rev_ind; intros Hsorted.
  - exists []. simpl. unfold pending. simpl.
    rewrite app_nil_r, lookup_total_empty. split; [done |].
    split; [done | apply wfQueue_empty].
  - rewrite received_snoc in Hsorted. unfold part in Hsorted.
    rewrite filter_app, fmap_app in Hsorted. fold part in Hsorted.
    destruct IH as (new & Hserved & Hexact & Hwf);
      [by apply StronglySorted_app_1_l in Hsorted |].
    rewrite run_snoc, received_snoc.
    set (s := run ops (start e0)) in *. unfold pending in *.
    unfold part at 3. rewrite filter_app. fold part.
    rewrite <- Hexact in *.
    destruct op as [k d |]; cbn [apply].
    + destruct (queueInput_spec d k s p) as [-> ->].
      exists new. split; [done |].
      destruct (decide (k = p)) as [-> |];
        [| by rewrite app_nil_r].
      split; [| by apply wfQueue_push].
      destruct (pendingOf_push_around (queueOf s p) (Input.step d) d)
        as [Hold Hnew].
      rewrite Hnew, Hold. unfold part.
      rewrite !filter_app, <- !app_assoc. do 3 f_equal. fold part.
      destruct (mine d) eqn:Hd.
      * destruct (part (_ ≫= _)) as [| i rest] eqn:Hhi;
          [by rewrite app_nil_r |].
        exfalso.
        assert (Hi : i ∈ part (filter (λ x, Input.step d < x)
                                 (JS.keys (queueOf s p))
                               ≫= (λ x, queueOf s p !!! x))).
        { rewrite Hhi. apply elem_of_cons. by left. }
        apply list_elem_of_filter in Hi as [Hmine Hi].
        apply list_elem_of_bind in Hi as (x & Hi & Hx).
        apply list_elem_of_filter in Hx as [Hlt Hx].
        apply JSFacts.elem_of_keys in Hx as [b Hb].
        rewrite (lookup_total_correct _ _ _ Hb) in Hi.
        destruct (Hwf x b Hb) as [_ Hall]. rewrite Forall_forall in Hall.
        specialize (Hall i Hi).
        assert (Input.step i <= Input.step d); [| lia].
        apply (StronglySorted_app_1_elem_of _ _ _ _ _ Hsorted).
        -- apply list_elem_of_fmap. exists i. split; [done |].
           apply elem_of_app. right. apply list_elem_of_filter.
           split; [done |]. rewrite Hold, !elem_of_app. right; right.
           apply list_elem_of_bind. exists x.
           rewrite (lookup_total_correct _ _ _ Hb). split; [done |].
           apply list_elem_of_filter. split; [lia |].
           apply JSFacts.elem_of_keys. eauto.
        -- unfold part. rewrite (filter_cons_True _ d) by done.
           simpl. apply elem_of_cons. by left.
      * unfold part at 1 4. rewrite (filter_cons_False _ d);
          [| by rewrite Hd].
        by rewrite filter_nil, app_nil_r.
    + destruct (step_spec s p) as (_ & -> & ->).
      exists (new ++ popped (stepCount s) (queueOf s p)).
      rewrite Hserved, <- !app_assoc, app_nil_r.
      split; [done |]. split; [| by apply wfQueue_afterPop].
      rewrite (pendingOf_pop_exact (stepCount s) (queueOf s p)) at 1.
      unfold part. by rewrite !filter_app, app_assoc.
Qed.

(** *** The claim *)

Example traffic_served :
  served 1 (run Scenario.traffic (start Scenario.server10))
  = [Scenario.mkInput "up" 0 5 true; Scenario.mkInput "fire" 1 5 false;
     Scenario.mkInput "left" 2 7 true]
  ∧ pending 1 (run Scenario.traffic (start Scenario.server10))
    = [Scenario.mkInput "down" 3 30 true].
Proof. vm_compute. done. Qed.

Example sharedTraffic_served :
  served 1 (run Scenario.sharedTraffic (start Scenario.server10))
  = [Scenario.mkInput "fire" 0 3 false; Scenario.mkInput "up" 0 5 true;
     Scenario.mkInput "left" 1 7 true].
Proof. vm_compute. done. Qed.

(** C4.  On the server every queued input reaches
    [gameEngine.processInput] at most once.  A step takes from a player's
    queue at most one bucket, the one with the smallest step key and only
    when that key is at most the current [stepCount]; it hands the
    bucket's inputs over in the order they arrived and deletes the
    bucket.  Over any run of the server, the inputs handed over and the
    inputs still queued are together exactly the inputs received; and
    when a player's inputs arrive by ascending step, they are processed
    by ascending step, in arrival order.  The same holds of any part of
    a player's inputs, such as those of one socket among several with the
    same playerId: when the inputs of the part arrive by ascending step,
    they are processed by ascending step, in arrival order. *)
Theorem server_inputs_dispatched_once
    (e0 : GameEngine.t) (ops : list Op) (p : Z) :
  (∀ s : t,
     let q := queueOf s p in
     (∀ m, oldestDue (stepCount s) q = Some m →
        is_Some (q !! m) ∧ (∀ k, is_Some (q !! k) → m <= k)
        ∧ m <= stepCount s
        ∧ served p (step s) = served p s ++ q !!! m
        ∧ queueOf (step s) p = delete m q
        ∧ queueOf (step s) p !! m = None)
     ∧ (oldestDue (stepCount s) q = None →
        served p (step s) = served p s ∧ queueOf (step s) p = q)
     ∧ (oldestDue (stepCount s) q = None
        ↔ ¬ ∃ m, is_Some (q !! m) ∧ (∀ k, is_Some (q !! k) → m <= k)
                 ∧ m <= stepCount s))
  ∧ (∀ (s : t) (d : Input.Descriptor),
       queueOf (queueInputForPlayer d p s) p !!! Input.step d
       = default [] (queueOf s p !! Input.step d) ++ [d])
  ∧ (∃ new,
       served p (run ops (start e0)) = served p (start e0) ++ new
       ∧ new ++ pending p (run ops (start e0)) ≡ₚ received p ops
       ∧ new ⊆+ received p ops)
  ∧ (StronglySorted Z.le (Input.step <$> received p ops) →
     ∃ new,
       served p (run ops (start e0)) = served p (start e0) ++ new
       ∧ new ++ pending p (run ops (start e0)) = received p ops
       ∧ new `prefix_of` received p ops
       ∧ StronglySorted Z.le (Input.step <$> new))
  ∧ (∀ fromSocket : Input.Descriptor → bool,
       let part := filter (λ i, fromSocket i = true) in
       StronglySorted Z.le (Input.step <$> part (received p ops)) →
       ∃ new,
         served p (run ops (start e0)) = served p (start e0) ++ new
         ∧ part new ++ part (pending p (run ops (start e0)))
           = part (received p ops)
         ∧ part new `prefix_of` part (received p ops)
         ∧ StronglySorted Z.le (Input.step <$> part new)).
Proof.
  split; [| split; [| split; [| split]]].
  - intros s q. destruct (step_spec s p) as (_ & Hq & Hserved).
    fold q in Hq, Hserved. unfold afterPop in Hq. unfold popped in Hserved.
    split; [| split].
    + intros m Hdue. rewrite Hdue in Hq, Hserved.
      apply oldestDue_spec in Hdue as (Hm & Hlow & Hsc).
      repeat split; try done. rewrite Hq. apply lookup_delete_eq.
    + intros Hdue. rewrite Hdue in Hq, Hserved.
      by rewrite app_nil_r in Hserved.
    + split.
      * intros Hnone (m & Hm). apply oldestDue_spec in Hm. congruence.
      * intros Hno. destruct (oldestDue (stepCount s) q) as [m |] eqn:Hdue;
          [| done].
        exfalso. apply Hno. exists m. by apply oldestDue_spec.
  - intros s d. destruct (queueInput_spec d p s p) as [_ ->].
    rewrite decide_True by done. apply lookup_total_insert_eq.
  - destruct (run_conservation e0 p ops) as (new & Hserved & Hperm).
    exists new. repeat split; try done.
    rewrite <- Hperm. apply submseteq_inserts_r. done.
  - intros Hsorted.
    destruct (run_in_order e0 p ops Hsorted) as (new & Hserved & Hexact & _).
    exists new. repeat split; try done.
    + by exists (pending p (run ops (start e0))).
    + rewrite <- Hexact, fmap_app in Hsorted.
      by apply StronglySorted_app_1_l in Hsorted.
  - intros fromSocket part Hsorted.
    destruct (run_in_order_of fromSocket e0 p ops Hsorted)
      as (new & Hserved & Hexact & _).
    fold part in Hexact.
    exists new. repeat split; try done.
    + by exists (part (pending p (run ops (start e0)))).
    + rewrite <- Hexact, fmap_app in Hsorted.
      by apply StronglySorted_app_1_l in Hsorted.
Qed.

Lemma server_inputs_dispatched_once_witness :
  (StronglySorted Z.le (Input.step <$> received 1 Scenario.traffic)
   ∧ ∃ new,
       served 1 (run Scenario.traffic (start Scenario.server10))
       = served 1 (start Scenario.server10) ++ new
       ∧ new ++ pending 1 (run Scenario.traffic (start Scenario.server10))
         = received 1 Scenario.traffic
       ∧ new `prefix_of` received 1 Scenario.traffic
       ∧ StronglySorted Z.le (Input.step <$> new))
  ∧ (let part := filter (λ i, Input.isMovement i = true) in
     StronglySorted Z.le
       (Input.step <$> part (received 1 Scenario.sharedTraffic))
     ∧ ∃ new,
         served 1 (run Scenario.sharedTraffic (start Scenario.server10))
         = served 1 (start Scenario.server10) ++ new
         ∧ part new
           ++ part (pending 1 (run Scenario.sharedTraffic
                                 (start Scenario.server10)))
           = part (received 1 Scenario.sharedTraffic)
         ∧ part new `prefix_of` part (received 1 Scenario.sharedTraffic)
         ∧ StronglySorted Z.le (Input.step <$> part new)).
Proof.
  assert (Hsorted :
            StronglySorted Z.le (Input.step <$> received 1 Scenario.traffic)).
  { vm_compute. repeat constructor; discriminate. }
  assert (Hpart :
            StronglySorted Z.le
              (Input.step <$> filter (λ i, Input.isMovement i = true)
                                (received 1 Scenario.sharedTraffic))).
  { vm_compute. repeat constructor; discriminate. }
  split.
  - split; [exact Hsorted |].
    exact (proj1 (proj2 (proj2 (proj2
             (server_inputs_dispatched_once Scenario.server10
                Scenario.traffic 1)))) Hsorted).
  - split; [exact Hpart |].
    exact (proj2 (proj2 (proj2 (proj2
             (server_inputs_dispatched_once Scenario.server10
                Scenario.sharedTraffic 1)))) Input.isMovement Hpart).
Defined.

End ServerEngineFacts.

Module ExtrapolateStrategyFacts.
Import ExtrapolateStrategy.

Lemma replay_bucket bucket : ∀ e,
  GameEngine.world (foldl replayInput e bucket) = GameEngine.world e
  ∧ sameSetup (foldl replayInput e bucket) e
  ∧ GameEngine.effects (foldl replayInput e bucket)
    = GameEngine.effects e
      ++ ((λ i, GameEngine.ProcessInput i (GameEngine.playerId e) false)
            <$> filter (λ i, Input.isMovement i = true) bucket).
Proof.
  induction bucket as [| i bucket IH]; intros e; simpl.
  - by rewrite app_nil_r.
  - destruct (IH (replayInput e i)) as (-> & (Hp & Hph & Hig & Hc & Ho) & ->).
    unfold sameSetup. rewrite Hp, Hph, Hig, Hc, Ho.
    unfold replayInput. rewrite filter_cons.
    destruct (Input.isMovement i) eqn:Hmove; case_decide; try done.
    simpl. by rewrite <- app_assoc.
Qed.

Lemma reenactStep_spec s :
  stepCount (reenactStep s) = stepCount s + 1
  ∧ recentInputs (reenactStep s) = recentInputs s
  ∧ options (reenactStep s) = options s
  ∧ needFirstSync (reenactStep s) = needFirstSync s
  ∧ sameSetup (gameEngine (reenactStep s)) (gameEngine s)
  ∧ GameEngine.effects (gameEngine (reenactStep s))
    = GameEngine.effects (gameEngine s)
      ++ reenactEffects (gameEngine s) (recentInputs s) (stepCount s).
Proof.
  unfold reenactStep, reenactEffects.
  set (e1 := match recentInputs s !! stepCount s with
             | Some bucket => foldl replayInput (gameEngine s) bucket
             | None => gameEngine s
             end).
  assert (He1 : GameEngine.world e1 = GameEngine.world (gameEngine s)
                ∧ sameSetup e1 (gameEngine s)
                ∧ GameEngine.effects e1
                  = GameEngine.effects (gameEngine s)
                    ++ ((λ i, GameEngine.ProcessInput i
                                (GameEngine.playerId (gameEngine s)) false)
                          <$> filter (λ i, Input.isMovement i = true)
                                     (recentInputs s !!! stepCount s))).
  { unfold e1. rewrite lookup_total_alt.
    destruct (recentInputs s !! stepCount s) as [bucket |]; simpl.
    - apply replay_bucket.
    - by rewrite app_nil_r. }
  destruct He1 as (Hw & (Hp & Hph & Hig & Hc & Ho) & Hfx).
  unfold stepCount, sameSetup, GameEngine.step. simpl.
  rewrite Hph, Hig.
  destruct (GameEngine.physicsEngine (gameEngine s)
            && negb (GameEngine.ignorePhysics (gameEngine s))); simpl;
    rewrite Hw, Hfx, <- ?app_assoc; repeat split; done.
Qed.

Lemma reenactEffects_sameSetup e1 e2 buffer k :
  sameSetup e1 e2 → reenactEffects e1 buffer k = reenactEffects e2 buffer k.
Proof.
  intros (Hp & Hph & Hig & _). unfold reenactEffects.
  by rewrite Hp, Hph, Hig.
Qed.

(** The loop comes to an end, at [clientStep], after re-enacting the
    steps in between one by one. *)
Lemma reenactLoop_spec fuel : ∀ s clientStep,
  stepCount s + Z.of_nat fuel = clientStep →
  ∃ s',
    reenactLoop fuel clientStep s = Some s'
    ∧ stepCount s' = clientStep
    ∧ recentInputs s' = recentInputs s
    ∧ options s' = options s
    ∧ needFirstSync s' = needFirstSync s
    ∧ sameSetup (gameEngine s') (gameEngine s)
    ∧ GameEngine.effects (gameEngine s')
      = GameEngine.effects (gameEngine s)
        ++ (seqZ (stepCount s) (Z.of_nat fuel)
              ≫= reenactEffects (gameEngine s) (recentInputs s)).
Proof.
  induction fuel as [| fuel IH]; intros s clientStep Hdist.
  - exists s. simpl. rewrite (proj2 (Z.ltb_ge _ _)) by lia.
    rewrite app_nil_r. repeat split; try done. lia.
  - destruct (reenactStep_spec s) as (Hsc & Hri & Hopt & Hnf & Hsame & Hfx).
    destruct (IH (reenactStep s) clientStep) as
      (s' & Hloop & Hsc' & Hri' & Hopt' & Hnf' & Hsame' & Hfx'); [lia |].
    exists s'. simpl. rewrite (proj2 (Z.ltb_lt _ _)) by lia.
    assert (Hs : sameSetup (gameEngine s') (gameEngine s)).
    { destruct Hsame as (? & ? & ? & ? & ?), Hsame' as (? & ? & ? & ? & ?).
      repeat split; congruence. }
    rewrite Hloop, Hri', Hopt', Hnf', Hfx', Hfx, Hri, Hsc.
    refine (conj eq_refl (conj Hsc' (conj eq_refl (conj Hopt (conj Hnf
              (conj Hs _)))))).
    rewrite (seqZ_cons (stepCount s)) by lia. rewrite bind_cons.
    rewrite <- app_assoc. do 2 f_equal.
    replace (Z.pred (Z.of_nat (S fuel))) with (Z.of_nat fuel) by lia.
    replace (Z.succ (stepCount s)) with (stepCount s + 1) by lia.
    apply JSFacts.bind_ext_elem. intros k _.
    by apply reenactEffects_sameSetup.
Qed.

(** A larger allowance than needed changes nothing. *)
Lemma reenactLoop_more_fuel fuel : ∀ fuel' clientStep s s',
  reenactLoop fuel clientStep s = Some s' → (fuel <= fuel')%nat →
  reenactLoop fuel' clientStep s = Some s'.
Proof.
  induction fuel as [| fuel IH]; intros fuel' clientStep s s' Hloop Hle.
  - simpl in Hloop. destruct fuel'; simpl;
      destruct (stepCount s <? clientStep); done.
  - destruct fuel' as [| fuel']; [lia |]. simpl in *.
    destruct (stepCount s <? clientStep); [| done].
    apply (IH fuel'); [done | lia].
Qed.

(** *** The input buffer *)

Lemma wfBuffer_empty : wfBuffer ∅.
Proof. intros k b Hk. by rewrite lookup_empty in Hk. Qed.

Lemma wfBuffer_delete m k : wfBuffer m → wfBuffer (delete k m).
Proof.
  intros Hwf k' b Hk'. apply lookup_delete_Some in Hk' as [_ Hk'].
  by apply Hwf.
Qed.

Lemma wfBuffer_save input s :
  wfBuffer (recentInputs s) →
  wfBuffer (recentInputs (clientInputSave input s)).
Proof.
  intros Hwf k b. unfold clientInputSave. simpl.
  intros [[<- <-] | [_ Hk]]%lookup_insert_Some; [| by apply Hwf].
  destruct (recentInputs s !! Input.step input) as [b |] eqn:Hb.
  - destruct (Hwf _ _ Hb) as [_ Hall]. split; [by destruct b |].
    apply Forall_app. split; [done | by repeat constructor].
  - split; [done | by repeat constructor].
Qed.

Ltac keys_cases :=
  repeat case_decide; try done; exfalso;
  rewrite ?elem_of_cons in *; intuition (subst; (lia || eauto)).

Lemma cleanEntries_spec last ks : ∀ m,
  wfBuffer m → NoDup ks → (∀ k, k ∈ ks → is_Some (m !! k)) →
  ∃ m',
    foldl (cleanEntry last) (JS.Ok tt, m) ks = (JS.Ok tt, m')
    ∧ ∀ k, m' !! k
           = if decide (k ∈ ks ∧ k <= last) then None else m !! k.
Proof.
  induction ks as [| k0 ks IH]; intros m Hwf Hnd Hkeys.
  - exists m. split; [done |]. intros k.
    rewrite decide_False; [done |]. intros [Hin _].
    by apply elem_of_nil in Hin.
  - apply NoDup_cons in Hnd as [Hk0 Hnd].
    destruct (Hkeys k0) as [b Hb]; [apply elem_of_cons; by left |].
    destruct (Hwf k0 b Hb) as [Hne Hall].
    destruct b as [| first b]; [done |].
    assert (Hfirst : Input.step first = k0) by (by inversion Hall).
    simpl. rewrite (lookup_total_correct _ _ _ Hb), Hfirst.
    destruct (Z.leb_spec k0 last) as [Hle | Hgt].
    + destruct (IH (delete k0 m)) as (m' & Hfold & Hlook).
      * by apply wfBuffer_delete.
      * done.
      * intros k Hk. rewrite lookup_delete_ne.
        -- apply Hkeys, elem_of_cons. by right.
        -- intros <-. done.
      * exists m'. split; [done |]. intros k. rewrite Hlook.
        destruct (decide (k = k0)) as [-> |].
        -- rewrite lookup_delete_eq. keys_cases.
        -- rewrite lookup_delete_ne by done. keys_cases.
    + destruct (IH m) as (m' & Hfold & Hlook); [done | done | |].
      * intros k Hk. apply Hkeys, elem_of_cons. by right.
      * exists m'. split; [done |]. intros k. rewrite Hlook. keys_cases.
Qed.

(** With well-formed entries [cleanRecentInputs] completes, and removes
    exactly the entries of the steps up to [lastServerStep]. *)
Lemma cleanRecentInputs_spec last s :
  wfBuffer (recentInputs s) →
  (cleanRecentInputs last s).1 = JS.Ok tt
  ∧ gameEngine (cleanRecentInputs last s).2 = gameEngine s
  ∧ ∀ k, recentInputs (cleanRecentInputs last s).2 !! k
         = if decide (k <= last) then None else recentInputs s !! k.
Proof.
  intros Hwf. unfold cleanRecentInputs.
  destruct (cleanEntries_spec last (JS.keys (recentInputs s))
              (recentInputs s) Hwf (JSFacts.NoDup_keys _))
    as (m' & -> & Hlook).
  { intros k. by rewrite JSFacts.elem_of_keys. }
  simpl. split; [done |]. split; [done |]. intros k. rewrite Hlook.
  destruct (decide (k <= last)) as [Hle | Hgt].
  - destruct (recentInputs s !! k) eqn:Hk.
    + rewrite decide_True; [done |]. split; [| done].
      apply JSFacts.elem_of_keys. eauto.
    + by case_decide.
  - rewrite decide_False; [done |]. by intros [_ ?].
Qed.

(** *** The claim *)

Example S2_input_replay :
  ∃ s', applySync 96 false Scenario.client100
        = Some (JS.Ok SYNC_APPLIED, s')
        ∧ stepCount s' = 100
        ∧ inputsIn (GameEngine.effects (gameEngine s'))
          = [Scenario.mkInput "up" 5 96 true;
             Scenario.mkInput "left" 6 97 true;
             Scenario.mkInput "up" 7 98 true;
             Scenario.mkInput "up" 9 99 true]
        ∧ JS.keys (recentInputs s') = [97; 98; 99].
Proof. eexists. vm_compute. repeat split. Qed.

Lemma stepsIn_app fx1 fx2 :
  stepsIn (fx1 ++ fx2) = (stepsIn fx1 + stepsIn fx2)%nat.
Proof. unfold stepsIn. by rewrite filter_app, length_app. Qed.

Lemma stepsIn_reenactEffects e buffer k :
  stepsIn (reenactEffects e buffer k) = 1%nat.
Proof.
  unfold reenactEffects. rewrite stepsIn_app.
  assert (stepsIn ((λ i, GameEngine.ProcessInput i (GameEngine.playerId e)
                           false)
                     <$> filter (λ i, Input.isMovement i = true)
                                (buffer !!! k)) = 0%nat) as ->.
  { induction (filter _ _) as [| i l IH]; [done |]. exact IH. }
  by destruct (GameEngine.physicsEngine e && negb (GameEngine.ignorePhysics e)).
Qed.

Lemma stepsIn_bind e buffer ks :
  stepsIn (ks ≫= reenactEffects e buffer) = length ks.
Proof.
  induction ks as [| k ks IH]; [done |].
  rewrite bind_cons, stepsIn_app, stepsIn_reenactEffects, IH. done.
Qed.

Lemma inputsIn_app fx1 fx2 :
  inputsIn (fx1 ++ fx2) = inputsIn fx1 ++ inputsIn fx2.
Proof. apply omap_app. Qed.

Lemma inputsIn_reenactEffects e buffer k :
  inputsIn (reenactEffects e buffer k)
  = filter (λ i, Input.isMovement i = true) (buffer !!! k).
Proof.
  unfold reenactEffects. rewrite inputsIn_app.
  assert (∀ l : list Input.Descriptor,
            inputsIn ((λ i, GameEngine.ProcessInput i (GameEngine.playerId e)
                              false) <$> l) = l) as ->.
  { induction l as [| i l IH]; [done |]. csimpl. by f_equal. }
  destruct (GameEngine.physicsEngine e && negb (GameEngine.ignorePhysics e));
    simpl; apply app_nil_r.
Qed.

Lemma inputsIn_bind e buffer ks :
  inputsIn (ks ≫= reenactEffects e buffer)
  = ks ≫= (λ k, filter (λ i, Input.isMovement i = true) (buffer !!! k)).
Proof.
  induction ks as [| k ks IH]; [done |].
  by rewrite !bind_cons, inputsIn_app, inputsIn_reenactEffects, IH.
Qed.

Lemma clampServerStep_max syncStepCount s :
  clampServerStep syncStepCount s
  = Z.max syncStepCount (stepCount s - maxReEnactSteps (options s)).
Proof. unfold clampServerStep. destruct (Z.ltb_spec syncStepCount
         (stepCount s - maxReEnactSteps (options s))); lia. Qed.

Lemma elem_of_replayed (buffer : gmap Z (list Input.Descriptor)) from n i :
  wfBuffer buffer →
  i ∈ seqZ from n
        ≫= (λ k, filter (λ i, Input.isMovement i = true) (buffer !!! k))
  ↔ Input.isMovement i = true
    ∧ from <= Input.step i < from + n
    ∧ i ∈ buffer !!! Input.step i.
Proof.
  intros Hwf. rewrite list_elem_of_bind. split.
  - intros (k & [Hmove Hin]%list_elem_of_filter & Hk%elem_of_seqZ).
    rewrite lookup_total_alt in Hin.
    destruct (buffer !! k) as [b |] eqn:Hb; simpl in Hin;
      [| by apply elem_of_nil in Hin].
    destruct (Hwf k b Hb) as [_ Hall].
    rewrite Forall_forall in Hall. rewrite (Hall i Hin).
    by rewrite (lookup_total_correct _ _ _ Hb).
  - intros (Hmove & Hrange & Hin). exists (Input.step i).
    split; [by apply list_elem_of_filter | by apply elem_of_seqZ].
Qed.

(** C5.  For a sync whose [stepCount] is at most the client's step [L]
    ([maxReEnactSteps] being a count, so not negative, and the input
    buffer as [clientInputSave] builds it): the re-enactment starts at
    [sync.stepCount] raised to [L - maxReEnactSteps], replays one engine
    step for each step from there up to [L], so at most [maxReEnactSteps]
    of them, hands to [processInput] exactly the buffered inputs of those
    steps with a true [options.movement], leaves [world.stepCount] at [L],
    and purges every entry of [recentInputs] of a step at or before the
    start of the re-enactment, keeping the others. *)
Theorem applySync_reenactment
    (s : t) (syncStepCount : Z) (required : bool)
    (Hpast : syncStepCount <= stepCount s)
    (Hmax : 0 <= maxReEnactSteps (options s))
    (Hwf : wfBuffer (recentInputs s)) :
  let L := stepCount s in
  let serverStep := clampServerStep syncStepCount s in
  serverStep = Z.max syncStepCount (L - maxReEnactSteps (options s))
  ∧ ∃ s' new,
      applySync syncStepCount required s = Some (JS.Ok SYNC_APPLIED, s')
      ∧ GameEngine.effects (gameEngine s')
        = GameEngine.effects (gameEngine s) ++ new
      ∧ new = seqZ serverStep (L - serverStep)
                ≫= reenactEffects (gameEngine s) (recentInputs s)
      ∧ stepsIn new = Z.to_nat (L - serverStep)
      ∧ Z.of_nat (stepsIn new) <= maxReEnactSteps (options s)
      ∧ (∀ i, i ∈ inputsIn new
              ↔ Input.isMovement i = true
                ∧ serverStep <= Input.step i < L
                ∧ i ∈ recentInputs s !!! Input.step i)
      ∧ stepCount s' = L
      ∧ (∀ k, recentInputs s' !! k
              = if decide (k <= serverStep) then None
                else recentInputs s !! k).
Proof.
  intros L serverStep.
  assert (Hclamp : serverStep
                   = Z.max syncStepCount (L - maxReEnactSteps (options s)))
    by apply clampServerStep_max.
  split; [done |].
  set (s0 := {| gameEngine := gameEngine s; recentInputs := recentInputs s;
                options := options s; needFirstSync := false |}).
  destruct (reenactLoop_spec (Z.to_nat (L - serverStep))
              (setStepCount serverStep s0) L)
    as (s1 & Hloop & Hsc & Hri & Hopt & _ & _ & Hfx).
  { change (stepCount (setStepCount serverStep s0)) with serverStep. lia. }
  change (stepCount (setStepCount serverStep s0)) with serverStep in Hfx.
  change (recentInputs (setStepCount serverStep s0))
    with (recentInputs s) in Hfx, Hri.
  change (GameEngine.effects (gameEngine (setStepCount serverStep s0)))
    with (GameEngine.effects (gameEngine s)) in Hfx.
  rewrite (JSFacts.bind_ext_elem _
             (reenactEffects (gameEngine s) (recentInputs s))) in Hfx
    by (intros k _; apply reenactEffects_sameSetup; repeat split).
  rewrite Z2Nat.id in Hfx by lia.
  assert (Hwf1 : wfBuffer (recentInputs s1)) by (by rewrite Hri).
  destruct (cleanRecentInputs_spec serverStep s1 Hwf1)
    as (Hok & Heng & Hclean).
  exists (cleanRecentInputs serverStep s1).2,
         (seqZ serverStep (L - serverStep)
            ≫= reenactEffects (gameEngine s) (recentInputs s)).
  split; [| split; [| split; [| split; [| split; [| split; [| split]]]]]].
  - unfold applySync.
    replace (stepCount s <? syncStepCount) with false
      by (symmetry; apply Z.ltb_ge; lia).
    rewrite andb_false_r. unfold reenact. fold s0.
    change (clampServerStep syncStepCount s0) with serverStep.
    change (stepCount s0) with L. rewrite Hloop. cbn [mbind option_bind].
    by rewrite Hok.
  - by rewrite Heng, Hfx.
  - done.
  - by rewrite stepsIn_bind, length_seqZ.
  - rewrite stepsIn_bind, length_seqZ. lia.
  - intros i. rewrite inputsIn_bind, (elem_of_replayed _ _ _ _ Hwf).
    replace (serverStep + (L - serverStep)) with L by lia. done.
  - unfold stepCount in *. by rewrite Heng.
  - intros k. by rewrite Hclean, Hri.
Qed.

Lemma applySync_reenactment_witness :
  clampServerStep 96 Scenario.client100 = 96
  ∧ ∃ s' new,
      applySync 96 false Scenario.client100 = Some (JS.Ok SYNC_APPLIED, s')
      ∧ GameEngine.effects (gameEngine s')
        = GameEngine.effects (gameEngine Scenario.client100) ++ new
      ∧ stepsIn new = 4%nat
      ∧ stepCount s' = 100.
Proof.
  assert (Hwf : wfBuffer (recentInputs Scenario.client100)).
  { unfold Scenario.client100. cbn [foldr].
    repeat apply wfBuffer_save. apply wfBuffer_empty. }
  destruct (applySync_reenactment Scenario.client100 96 false
              ltac:(vm_compute; discriminate)
              ltac:(vm_compute; discriminate) Hwf)
    as (Hclamp & s' & new & Happ & Hfx & _ & Hsteps & _ & _ & Hsc & _).
  split; [reflexivity |].
  exists s', new. repeat split; assumption.
Defined.

End ExtrapolateStrategyFacts.

Module BendingFacts.
Import Num PhysicalObject2D.

(** C3.  Scenario S5, computed in doubles.  With the current position
    (10, 0), the saved position (0, 0), percent 0.5, 10 increments and no
    bending overrides, [bendToCurrent] puts the position back to (0, 0)
    and sets [bendingPositionDelta] to (0.5, 0); ten calls of
    [applyIncrementalBending] with [dt = 1000 / 60] then leave the
    position at (5, 0) and [bendingIncrements] at 0. *)
Theorem S5_bending_convergence :
  position Scenario.S5_bent
  = {| TwoVector.x := 0%float; TwoVector.y := 0%float |}
  ∧ bendingPositionDelta Scenario.S5_bent
    = Some {| TwoVector.x := 0.5%float; TwoVector.y := 0%float |}
  ∧ bendingIncrements Scenario.S5_bent = 10%float
  ∧ ∃ o, applyIncrementalBendingTimes 10 Scenario.S5_stepDesc
           Scenario.S5_bent = JS.Ok o
         ∧ position o = {| TwoVector.x := 5%float; TwoVector.y := 0%float |}
         ∧ bendingIncrements o = 0%float.
Proof.
  split; [reflexivity |]. split; [vm_compute; reflexivity |].
  split; [reflexivity |].
  eexists. split; [vm_compute; reflexivity |]. split; reflexivity.
Qed.


(** *** What the increments add up to *)

Section WithNumber.
Context {A : Type} `{Number A}.





End WithNumber.

(** The whole numbers from 1 to 1024, as doubles, count down. *)
Example whole_increments_count_down :
  forallb (λ k, countsDown (Z.to_nat k) (floatOfZ k)) (seqZ 1 1024) = true.
Proof. vm_compute. reflexivity. Qed.

(** With percent 1 scenario S5 ends at its target. *)
Example S5_bent_all_the_way :
  (λ o, (position o, angle o, bendingIncrements o))
    <$> (let bent := bendToCurrent Scenario.S5_saved 1%float false 10%float
                                   Scenario.S5_object in
         match applyIncrementalBendingTimes 10 Scenario.S5_stepDesc bent with
         | JS.Ok o => Some o
         | JS.Throw _ => None
         end)
  = Some ({| TwoVector.x := 10%float; TwoVector.y := 0%float |},
          0%float, 0%float).
Proof. vm_compute. reflexivity. Qed.


End BendingFacts.

Module SerializableFacts.
Import Serializable.

Section WithSerializer.
Variable fieldLoop :
  Instance → NetScheme → list string → bool → option Buffer → Z → Z →
  JS.Result Serialized.

Lemma serializeDry_throws this :
  is_Some (schemeOf this) →
  serializeDry fieldLoop this
  = JS.Throw (JS.TypeError "netScheme.sort is not a function").
Proof.
  intros [scheme Hscheme]. unfold serializeDry, serializeWith.
  by rewrite Hscheme.
Qed.

(** Without any netScheme the loop is not entered: the result is the one
    byte of the class id. *)
Lemma serialize_without_netScheme this :
  schemeOf this = None →
  serialize fieldLoop this
    {| dataBuffer := None; bufferOffset := None; dry := false |}
  = JS.Ok {| outBuffer := Some [classIdOf this mod 256]; outOffset := 1 |}.
Proof.
  intros Hnone. unfold serialize, serializeDry, serializeWith.
  rewrite Hnone. reflexivity.
Qed.

Lemma serialize_throws_with_netScheme_at this :
  is_Some (schemeOf this) →
  ∃ e, serialize fieldLoop this
         {| dataBuffer := None; bufferOffset := None; dry := false |}
       = JS.Throw e.
Proof.
  intros Hscheme. pose proof (serializeDry_throws this Hscheme) as Hdry.
  destruct Hscheme as [scheme Hscheme].
  unfold serialize, serializeWith. rewrite Hscheme. simpl. rewrite Hdry.
  by eexists.
Qed.

(** In a diff update the turn for an object with a netScheme does not get
    as far as the pruning: [serialize] throws first. *)
Lemma serializeUpdateObject_throws deserialize construct objMemory objId obj :
  is_Some (schemeOf obj) →
  JS.isThrow (serializeUpdateObject fieldLoop deserialize construct true
                                    objMemory objId obj) = true.
Proof.
  intros Hscheme. unfold serializeUpdateObject.
  destruct (serialize_throws_with_netScheme_at obj Hscheme) as [e ->].
  done.
Qed.

(** C6, at the code.  For an instance with a netScheme, of its own or of
    its class, [serialize] produces no buffer: whatever the options, the
    call ends in a throw.  Without a target buffer the dry run that sizes
    it throws in the header of the loop over the fields, where [sort] is
    called on the netScheme, a plain object. *)
Theorem serialize_throws_with_netScheme (this : Instance) (options : Options)
    (Hscheme : is_Some (schemeOf this)) :
  JS.isThrow (serialize fieldLoop this options) = true
  ∧ (dataBuffer options = None → dry options = false →
     serialize fieldLoop this options
     = JS.Throw (JS.TypeError "netScheme.sort is not a function")).
Proof.
  pose proof (serializeDry_throws this Hscheme) as Hdry.
  destruct Hscheme as [scheme Hscheme].
  unfold serialize, serializeWith. rewrite Hscheme.
  destruct options as [[b |] off [|]]; simpl.
  - done.
  - destruct (setUint8 _ _ b); done.
  - done.
  - rewrite Hdry. done.
Qed.

End WithSerializer.

Lemma serialize_throws_with_netScheme_witness :
  serialize Scenario.noFields Scenario.physicalObject
            {| dataBuffer := None; bufferOffset := None; dry := false |}
  = JS.Throw (JS.TypeError "netScheme.sort is not a function").
Proof.
  refine (proj2 (serialize_throws_with_netScheme Scenario.noFields
                   Scenario.physicalObject
                   {| dataBuffer := None; bufferOffset := None;
                      dry := false |} _)
                eq_refl eq_refl).
  by eexists.
Defined.

(** *** Pruned strings *)

Lemma get_set p q v this :
  get (set q v this) p = if decide (q = p) then v else get this p.
Proof.
  unfold get, set. simpl. rewrite lookup_insert.
  by destruct (decide (q = p)).
Qed.

Lemma get_assign_all (f : string → Value) (keys : list string) :
  ∀ (copy : Instance) (p : string),
    get (foldl (λ c q, set q (f q) c) copy keys) p
    = if decide (p ∈ keys) then f p else get copy p.
Proof.
  induction keys as [| q keys IH]; intros copy p.
  - case_decide as Hin; [by apply elem_of_nil in Hin | done].
  - cbn [foldl]. rewrite IH, get_set.
    repeat case_decide; subst; try done; exfalso;
      rewrite ?elem_of_cons in *; intuition congruence.
Qed.

Section Pruning.
Variable deserialize : Buffer → Instance.
Variable construct : Instance → gmap string Value.

(** What [prunedStringsClone] builds: when some string field has changed,
    the clone holds [null] in exactly the changed string fields and the
    current value in every other field of the netScheme, unchanged
    strings included; when none has changed, the object itself is
    returned, unchanged strings and all. *)
Lemma prunedStringsClone_spec (this : Instance) (prevBuffer : Buffer)
      (scheme : NetScheme) :
  classNetScheme this = Some scheme →
  let changed := changedStrings scheme (deserialize prevBuffer) this in
  (changed = [] →
   prunedStringsClone deserialize construct (Some prevBuffer) this
   = JS.Ok this)
  ∧ (changed ≠ [] →
     ∃ clone,
       prunedStringsClone deserialize construct (Some prevBuffer) this
       = JS.Ok clone
       ∧ ∀ p, p ∈ scheme.*1 →
              get clone p = if decide (p ∈ changed) then VNull
                            else get this p).
Proof.
  intros Hscheme changed. unfold prunedStringsClone. rewrite Hscheme.
  fold (changedStrings scheme (deserialize prevBuffer) this). fold changed.
  split.
  - intros ->. done.
  - intros Hne. rewrite bool_decide_eq_false_2
      by (by destruct changed).
    eexists. split; [done |]. intros p Hp.
    rewrite (get_assign_all
               (λ q, if bool_decide (q ∈ changed) then VNull else get this q)).
    rewrite decide_True by done.
    by destruct (decide (p ∈ changed));
      [rewrite bool_decide_eq_true_2 | rewrite bool_decide_eq_false_2].
Qed.

End Pruning.

(** C1, at the code.  The player's name is the same as in the buffer sent
    before and the title is new: the clone that [prunedStringsClone]
    returns for the diff update carries the unchanged name in full and
    [null] in place of the changed title. *)
Theorem prunedStringsClone_prunes_the_changed :
  ∃ clone,
    prunedStringsClone (λ _, Scenario.playerSent) (λ _, ∅)
                       (Some [0; 0; 0; 7]) Scenario.playerNow
    = JS.Ok clone
    ∧ get Scenario.playerNow "name" = get Scenario.playerSent "name"
    ∧ get clone "name" = VString "bob"
    ∧ get Scenario.playerNow "title" ≠ get Scenario.playerSent "title"
    ∧ get clone "title" = VNull
    ∧ get clone "id" = VNumber 7.
Proof.
  eexists. split; [vm_compute; reflexivity |].
  repeat split; try (vm_compute; reflexivity). vm_compute. discriminate.
Qed.

End SerializableFacts.

Module BuffersFacts.
Import Utils.

Lemma buffersLoop_spec turns : ∀ i dv1 dv2,
  buffersLoop turns i dv1 dv2 = true
  ↔ ∀ j, (i <= j < i + turns)%nat → dv1 !! j = dv2 !! j.
Proof.
  induction turns as [| turns IH]; intros i dv1 dv2; simpl.
  - split; [intros _ j Hj; lia | done].
  - case_bool_decide as Hi.
    + split; [done |]. intros Hall. exfalso. apply Hi, Hall. lia.
    + rewrite IH. split.
      * intros Hall j Hj. destruct (decide (j = i)) as [-> |].
        -- destruct (decide (dv1 !! i = dv2 !! i)); [done | by destruct Hi].
        -- apply Hall. lia.
      * intros Hall j Hj. apply Hall. lia.
Qed.

Lemma toInt8_inj a b :
  0 <= a < 256 → 0 <= b < 256 → toInt8 a = toInt8 b → a = b.
Proof.
  unfold toInt8. intros Ha Hb Heq.
  destruct (Z_lt_le_dec a 128), (Z_lt_le_dec b 128).
  - rewrite !Z.mod_small in Heq by lia. lia.
  - rewrite (Z.mod_small (a + 128)) in Heq by lia.
    replace (b + 128) with (b - 128 + 1 * 256) in Heq by lia.
    rewrite Z.mod_add, Z.mod_small in Heq by lia. lia.
  - rewrite (Z.mod_small (b + 128)) in Heq by lia.
    replace (a + 128) with (a - 128 + 1 * 256) in Heq by lia.
    rewrite Z.mod_add, Z.mod_small in Heq by lia. lia.
  - replace (a + 128) with (a - 128 + 1 * 256) in Heq by lia.
    replace (b + 128) with (b - 128 + 1 * 256) in Heq by lia.
    rewrite !Z.mod_add, !Z.mod_small in Heq by lia. lia.
Qed.

Lemma toInt8_fmap_inj buf1 : ∀ buf2,
  Forall (λ b, 0 <= b < 256) buf1 → Forall (λ b, 0 <= b < 256) buf2 →
  toInt8 <$> buf1 = toInt8 <$> buf2 → buf1 = buf2.
Proof.
  induction buf1 as [| a buf1 IH]; intros [| b buf2] H1 H2 Heq;
    try done.
  inversion H1; inversion H2; subst. simpl in Heq.
  injection Heq as Hab Hrest. f_equal.
  - by apply toInt8_inj.
  - by apply IH.
Qed.

Example arrayBuffersEqual_signed :
  arrayBuffersEqual [33; 200; 0] [33; 200; 0] = true
  ∧ arrayBuffersEqual [33; 200; 0] [33; 72; 0] = false
  ∧ arrayBuffersEqual [33; 200] [33; 200; 0] = false.
Proof. vm_compute. done. Qed.

(** X1.  [arrayBuffersEqual] tells exactly whether two buffers hold the
    same bytes: it answers true when the two have the same length and the
    same byte at every index, and false otherwise; reading the bytes as
    signed 8-bit numbers loses nothing. *)
Theorem arrayBuffersEqual_iff (buf1 buf2 : list Z)
    (Hbytes1 : Forall (λ b, 0 <= b < 256) buf1)
    (Hbytes2 : Forall (λ b, 0 <= b < 256) buf2) :
  arrayBuffersEqual buf1 buf2 = true ↔ buf1 = buf2.
Proof.
  unfold arrayBuffersEqual. case_bool_decide as Hlen.
  - split; [done |]. intros ->. done.
  - assert (Hlen' : length buf1 = length buf2) by lia.
    rewrite buffersLoop_spec. split.
    + intros Hall. apply toInt8_fmap_inj; try done.
      apply list_eq. intros j.
      destruct (decide (j < length buf1)%nat) as [Hj |].
      * apply Hall. lia.
      * rewrite !lookup_ge_None_2; [done | |];
          rewrite length_fmap; lia.
    + by intros ->.
Qed.

Lemma arrayBuffersEqual_iff_witness :
  arrayBuffersEqual [33; 200; 0] [33; 200; 0] = true
  ↔ [33; 200; 0] = [33; 200; 0] :> list Z.
Proof.
  apply (arrayBuffersEqual_iff [33; 200; 0] [33; 200; 0]);
    repeat constructor; lia.
Defined.

End BuffersFacts.

Module HashFacts.
Import Utils.

Example hashStr_bits :
  hashStr (JS.charCodes "TwoVector") (Some 1) = 0
  ∧ hashStr (JS.charCodes "TwoVector") (Some 16) = 21198
  ∧ hashStr (JS.charCodes "TwoVector") (Some 40) = 1067324208.
Proof. vm_compute. done. Qed.

(** X2.  For every string and every width [bits] of at least one bit,
    [hashStr] lies between 0 and 2^bits - 2: it fits in [bits] bits and
    is never the value with all bits set.  From 33 bits on nothing is
    reduced, the result is the unsigned 32-bit hash itself; and a width
    of 0 counts as omitted, which means 8. *)
Theorem hashStr_range (s : list Z) (bits : Z) (Hbits : 1 <= bits) :
  0 <= hashStr s (Some bits) <= 2 ^ bits - 2
  ∧ (33 <= bits →
     hashStr s (Some bits)
     = JS.toUint32 (fold_left hashRound (rev s) 5381))
  ∧ hashStr s (Some 0) = hashStr s None.
Proof.
  pose proof (UtilsFacts.toUint32_range
                (fold_left hashRound (rev s) 5381)) as Hh.
  unfold hashStr. destruct (bits =? 0) eqn:Hz; [lia |].
  set (h := JS.toUint32 _) in *.
  assert (Hpow : 2 <= 2 ^ bits).
  { change 2 with (2 ^ 1) at 1. apply Z.pow_le_mono_r; lia. }
  split; [| split; [| done]].
  - destruct (decide (2 ^ bits - 1 = 1)) as [-> | Hne].
    + rewrite Z.rem_1_r. lia.
    + rewrite Z.rem_mod_nonneg by lia.
      pose proof (Z.mod_pos_bound h (2 ^ bits - 1)). lia.
  - intros Hwide.
    assert (2 ^ 33 <= 2 ^ bits) by (apply Z.pow_le_mono_r; lia).
    apply Z.rem_small. change (2 ^ 33) with (2 * 2 ^ 32) in *. lia.
Qed.

Lemma hashStr_range_witness :
  0 <= hashStr (JS.charCodes "TwoVector") (Some 16) <= 2 ^ 16 - 2
  ∧ (33 <= 16 →
     hashStr (JS.charCodes "TwoVector") (Some 16)
     = JS.toUint32
         (fold_left hashRound (rev (JS.charCodes "TwoVector")) 5381))
  ∧ hashStr (JS.charCodes "TwoVector") (Some 0)
    = hashStr (JS.charCodes "TwoVector") None.
Proof. apply (hashStr_range (JS.charCodes "TwoVector") 16). lia. Defined.

End HashFacts.

Module QueryFacts.
Import GameWorld.

Section Query.
Variable instanceOf : GameObject.t → string → bool.
Variable hasComponent : GameObject.t → string → bool.

Abbreviation qualifies := (GameWorld.qualifies instanceOf hasComponent).
Abbreviation queryCallback := (GameWorld.queryCallback instanceOf hasComponent).
Abbreviation queryObjects := (GameWorld.queryObjects instanceOf hasComponent).
Abbreviation queryObject := (GameWorld.queryObject instanceOf hasComponent).

Lemma forallb_id_fmap {A} (f : A → bool) (l : list A) :
  forallb (λ value, value) (f <$> l) = true ↔ Forall (λ a, f a = true) l.
Proof.
  induction l as [| a l IH]; simpl.
  - split; [constructor | done].
  - rewrite andb_true_iff, IH, Forall_cons. done.
Qed.

Lemma qualifies_iff query o :
  qualifies query o = true
  ↔ (∀ id, qId query = Some id → id = Some (GameObject.id o))
    ∧ (∀ playerId, qPlayerId query = Some playerId
                   → playerId = Some (GameObject.playerId o))
    ∧ (∀ instanceType, qInstanceType query = Some instanceType
                       → ∃ c, instanceType = Some c ∧ instanceOf o c = true)
    ∧ (∀ components, qComponents query = Some components
                     → Forall (λ c, hasComponent o c = true) components).
Proof.
  unfold GameWorld.qualifies, conditions.
  rewrite forallb_app. simpl. rewrite !andb_true_iff.
  destruct query as [qi qp qt qc rs]; simpl.
  assert (Hi : match qi with
               | Some (Some id) => bool_decide (GameObject.id o = id)
               | Some None => false
               | None => true
               end = true
               ↔ ∀ id, qi = Some id → id = Some (GameObject.id o)).
  { destruct qi as [[id |] |]; split; try done.
    - intros ->%bool_decide_eq_true ? [= <-]. done.
    - intros Hid. apply bool_decide_eq_true.
      specialize (Hid _ eq_refl). congruence.
    - intros Hid. by specialize (Hid _ eq_refl). }
  assert (Hp : match qp with
               | Some (Some playerId) =>
                   bool_decide (GameObject.playerId o = playerId)
               | Some None => false
               | None => true
               end = true
               ↔ ∀ playerId, qp = Some playerId
                             → playerId = Some (GameObject.playerId o)).
  { destruct qp as [[pid |] |]; split; try done.
    - intros ->%bool_decide_eq_true ? [= <-]. done.
    - intros Hid. apply bool_decide_eq_true.
      specialize (Hid _ eq_refl). congruence.
    - intros Hid. by specialize (Hid _ eq_refl). }
  assert (Ht : match qt with
               | Some (Some instanceType) => instanceOf o instanceType
               | Some None => false
               | None => true
               end = true
               ↔ ∀ instanceType, qt = Some instanceType
                   → ∃ c, instanceType = Some c ∧ instanceOf o c = true).
  { destruct qt as [[c |] |]; split; try done.
    - intros Hc ? [= <-]. eauto.
    - intros Hc. destruct (Hc _ eq_refl) as (c' & [= <-] & ?). done.
    - intros Hc. by destruct (Hc _ eq_refl) as (c' & ? & ?). }
  assert (Hc : forallb (λ value, value)
                 match qc with
                 | Some components => hasComponent o <$> components
                 | None => []
                 end = true
               ↔ ∀ components, qc = Some components
                   → Forall (λ c, hasComponent o c = true) components).
  { destruct qc as [cs |].
    - rewrite forallb_id_fmap. split.
      + intros Hall ? [= <-]. done.
      + intros Hall. by apply Hall.
    - split; [done | done]. }
  rewrite Hi, Hp, Ht, Hc. intuition.
Qed.

Lemma queryCallback_eq query id o queried :
  queryCallback query id o queried
  = if qualifies query o then (queried ++ [o], returnSingle query)
    else (queried, false).
Proof. done. Qed.

(** Without [returnSingle] the loop collects every object that
    qualifies. *)
Lemma queryLoop_all query objs ids : ∀ queried,
  returnSingle query = false →
  forEachLoop (queryCallback query) objs ids queried
  = queried ++ filter (λ o, qualifies query o = true)
                      (omap (λ id, objs !! id) ids).
Proof.
  induction ids as [| id ids IH]; intros queried Hall; simpl.
  - by rewrite app_nil_r.
  - destruct (objs !! id) as [o |]; [| by apply IH].
    rewrite queryCallback_eq, Hall.
    destruct (GameWorld.qualifies _ _ query o) eqn:Hq.
    + rewrite IH by done. rewrite filter_cons_True by done.
      by rewrite <- app_assoc.
    + rewrite IH by done. rewrite filter_cons_False; [done |].
      by rewrite Hq.
Qed.

(** With [returnSingle] it stops at the first one. *)
Lemma queryLoop_first query objs ids :
  returnSingle query = true →
  head (forEachLoop (queryCallback query) objs ids [])
  = head (filter (λ o, qualifies query o = true)
                 (omap (λ id, objs !! id) ids)).
Proof.
  intros Hone. induction ids as [| id ids IH]; simpl; [done |].
  destruct (objs !! id) as [o |]; [| by apply IH].
  rewrite queryCallback_eq, Hone.
  destruct (GameWorld.qualifies _ _ query o) eqn:Hq.
  - by rewrite filter_cons_True.
  - rewrite filter_cons_False; [apply IH |]. by rewrite Hq.
Qed.

(** X3.  In a world whose ids are array indices (from 0 to 2^32 - 2),
    [queryObjects] returns the objects of the world that meet every
    condition the query has (its id, its playerId, its instance type,
    each of its components), in the order of the loop over the world,
    which is by ascending id; with [returnSingle], and so for
    [queryObject], it returns the first of them, or [null] when no
    object meets the conditions. *)
Theorem queryObjects_spec (query : ObjectQuery) (w : t)
    (Hkeys : JS.arrayIndexKeys (objects w)) :
  let matching := filter (λ o, qualifies query o = true) (objectsInOrder w) in
  queryObjects query w
  = (if returnSingle query then Single (head matching)
     else Multiple matching)
  ∧ queryObject query w = Single (head matching)
  ∧ ∀ o, qualifies query o = true
         ↔ (∀ id, qId query = Some id → id = Some (GameObject.id o))
           ∧ (∀ playerId, qPlayerId query = Some playerId
                          → playerId = Some (GameObject.playerId o))
           ∧ (∀ instanceType, qInstanceType query = Some instanceType
                → ∃ c, instanceType = Some c ∧ instanceOf o c = true)
           ∧ (∀ components, qComponents query = Some components
                → Forall (λ c, hasComponent o c = true) components).
Proof.
  intros matching. subst matching.
  split; [| split; [| apply qualifies_iff]].
  - unfold GameWorld.queryObjects, forEachObject, objectsInOrder.
    destruct (returnSingle query) eqn:Hone.
    + by rewrite queryLoop_first.
    + by rewrite queryLoop_all.
  - unfold GameWorld.queryObject, GameWorld.queryObjects, forEachObject,
      objectsInOrder.
    cbn [returnSingle]. by rewrite queryLoop_first.
Qed.

Lemma filter_by_id (objs : gmap Z GameObject.t) k ids :
  NoDup ids →
  (∀ k' o, objs !! k' = Some o → GameObject.id o = k') →
  filter (λ o, qualifies (byId k) o = true) (omap (λ id, objs !! id) ids)
  = if decide (k ∈ ids) then option_list (objs !! k) else [].
Proof.
  intros Hnd Hkeyed.
  assert (Hq : ∀ o, qualifies (byId k) o = true ↔ GameObject.id o = k).
  { intros o. unfold GameWorld.qualifies. simpl.
    rewrite !andb_true_r. apply bool_decide_eq_true. }
  induction ids as [| id ids IH]; [done |].
  apply NoDup_cons in Hnd as [Hid Hnd]. specialize (IH Hnd).
  cbn [omap list_omap].
  destruct (objs !! id) as [o |] eqn:Ho.
  - destruct (decide (id = k)) as [-> | Hne].
    + rewrite filter_cons_True by (apply Hq; eauto).
      rewrite IH, decide_False by done.
      rewrite decide_True by (apply elem_of_cons; by left).
      by rewrite Ho.
    + rewrite filter_cons_False.
      2: { rewrite Hq. intros Heq. apply Hne.
           by rewrite <- (Hkeyed _ _ Ho). }
      rewrite IH. destruct (decide (k ∈ ids)) as [Hin | Hnin].
      * rewrite decide_True; [done |]. apply elem_of_cons. by right.
      * rewrite decide_False; [done |].
        intros [? | ?]%elem_of_cons; [by subst | done].
  - rewrite IH. destruct (decide (id = k)) as [-> | Hne].
    + rewrite decide_False by done.
      rewrite decide_True by (apply elem_of_cons; by left).
      by rewrite Ho.
    + destruct (decide (k ∈ ids)) as [Hin | Hnin].
      * rewrite decide_True; [done |]. apply elem_of_cons. by right.
      * rewrite decide_False; [done |].
        intros [? | ?]%elem_of_cons; [by subst | done].
Qed.

Lemma queryObject_byId w k :
  keyedById w → queryObject (byId k) w = Single (objects w !! k).
Proof.
  intros Hkeyed.
  unfold GameWorld.queryObject, GameWorld.queryObjects, forEachObject.
  cbn [returnSingle]. rewrite queryLoop_first by done.
  change {| qId := qId (byId k); qPlayerId := qPlayerId (byId k);
            qInstanceType := qInstanceType (byId k);
            qComponents := qComponents (byId k); returnSingle := true |}
    with {| qId := Some (Some k); qPlayerId := None;
            qInstanceType := None; qComponents := None;
            returnSingle := true |}.
  assert (Hsame : ∀ o,
            GameWorld.qualifies instanceOf hasComponent
              {| qId := Some (Some k); qPlayerId := None;
                 qInstanceType := None; qComponents := None;
                 returnSingle := true |} o
            = qualifies (byId k) o) by done.
  rewrite (list_filter_iff _ (λ o, qualifies (byId k) o = true));
    [| intros o; by rewrite Hsame].
  rewrite (filter_by_id _ k); [| apply JSFacts.NoDup_keys | done].
  f_equal. case_decide as Hk.
  - by destruct (objects w !! k).
  - rewrite JSFacts.elem_of_keys in Hk.
    destruct (objects w !! k) eqn:Ho; [| done].
    exfalso. apply Hk. eauto.
Qed.

Lemma keyedById_addObject o w : keyedById w → keyedById (addObject o w).
Proof.
  intros Hkeyed k o'. unfold addObject. simpl.
  intros [[<- <-] | [_ Ho]]%lookup_insert_Some; [done | by apply Hkeyed].
Qed.

Lemma keyedById_removeObject id w :
  keyedById w → keyedById (removeObject id w).
Proof.
  intros Hkeyed k o'. unfold removeObject. simpl.
  intros [_ Ho]%lookup_delete_Some. by apply Hkeyed.
Qed.

(** X4.  In a world whose objects sit under their own ids, the query
    [{ id }] is the lookup of that id: [queryObject] returns the object
    stored under it, or [null].  So an object is found under its id right
    after [addObject], an id is no longer found after [removeObject],
    and both operations keep the objects under their own ids. *)
Theorem queryObject_by_id_round_trip (w : t) (o : GameObject.t) (k : Z)
    (Hkeyed : keyedById w) :
  queryObject (byId k) w = Single (objects w !! k)
  ∧ queryObject (byId (GameObject.id o)) (addObject o w) = Single (Some o)
  ∧ queryObject (byId k) (removeObject k w) = Single None
  ∧ keyedById (addObject o w)
  ∧ keyedById (removeObject k w).
Proof.
  split; [by apply queryObject_byId |].
  split; [| split; [| split]].
  - rewrite queryObject_byId by by apply keyedById_addObject.
    unfold addObject. simpl. by rewrite lookup_insert_eq.
  - rewrite queryObject_byId by by apply keyedById_removeObject.
    unfold removeObject. simpl. by rewrite lookup_delete_eq.
  - by apply keyedById_addObject.
  - by apply keyedById_removeObject.
Qed.

End Query.

Lemma queryObjects_spec_witness :
  let query := {| qId := None; qPlayerId := Some (Some 2);
                  qInstanceType := None; qComponents := None;
                  returnSingle := false |} in
  let w := GameEngine.world Scenario.crowded in
  let matching :=
    filter (λ o, GameWorld.qualifies (λ _ _, true) (λ _ _, true) query o
                 = true)
           (objectsInOrder w) in
  GameWorld.queryObjects (λ _ _, true) (λ _ _, true) query w
  = (if returnSingle query then Single (head matching)
     else Multiple matching)
  ∧ GameWorld.queryObject (λ _ _, true) (λ _ _, true) query w
    = Single (head matching)
  ∧ ∀ o, GameWorld.qualifies (λ _ _, true) (λ _ _, true) query o = true
         ↔ (∀ id, qId query = Some id → id = Some (GameObject.id o))
           ∧ (∀ playerId, qPlayerId query = Some playerId
                          → playerId = Some (GameObject.playerId o))
           ∧ (∀ instanceType, qInstanceType query = Some instanceType
                → ∃ c, instanceType = Some c ∧ (λ _ _, true) o c = true)
           ∧ (∀ components, qComponents query = Some components
                → Forall (λ c, (λ _ _, true) o c = true) components).
Proof.
  apply (queryObjects_spec (λ _ _, true) (λ _ _, true)
           {| qId := None; qPlayerId := Some (Some 2);
              qInstanceType := None; qComponents := None;
              returnSingle := false |}
           (GameEngine.world Scenario.crowded)).
  repeat (apply JSFacts.arrayIndexKeys_insert; [lia |]).
  apply map_Forall_empty.
Defined.

Example crowded_player_2 :
  GameWorld.queryObjects (λ _ _, true) (λ _ _, true)
    {| qId := None; qPlayerId := Some (Some 2);
       qInstanceType := None; qComponents := None;
       returnSingle := false |}
    (GameEngine.world Scenario.crowded)
  = Multiple [GameObject.create 8 2; GameObject.create 9 2].
Proof. vm_compute. done. Qed.

Lemma keyedById_lobby : keyedById (GameEngine.world Scenario.lobby).
Proof.
  intros k o Hk. simpl in Hk.
  by apply lookup_singleton_Some in Hk as [<- <-].
Qed.

Lemma queryObject_by_id_round_trip_witness :
  keyedById (GameEngine.world Scenario.lobby)
  ∧ GameWorld.queryObject (λ _ _, true) (λ _ _, true) (byId 7)
      (GameEngine.world Scenario.lobby)
    = Single (objects (GameEngine.world Scenario.lobby) !! 7)
  ∧ GameWorld.queryObject (λ _ _, true) (λ _ _, true)
      (byId (GameObject.id Scenario.shadow))
      (addObject Scenario.shadow (GameEngine.world Scenario.lobby))
    = Single (Some Scenario.shadow)
  ∧ GameWorld.queryObject (λ _ _, true) (λ _ _, true) (byId 7)
      (removeObject 7 (GameEngine.world Scenario.lobby))
    = Single None
  ∧ keyedById (addObject Scenario.shadow (GameEngine.world Scenario.lobby))
  ∧ keyedById (removeObject 7 (GameEngine.world Scenario.lobby)).
Proof.
  split; [apply keyedById_lobby |].
  apply (queryObject_by_id_round_trip (λ _ _, true) (λ _ _, true)
           (GameEngine.world Scenario.lobby) Scenario.shadow 7
           keyedById_lobby).
Defined.

End QueryFacts.

Module IdFacts.
Import GameWorld.

Lemma getNewId_returns w :
  ∃ id, getNewId w = Some (id, setIdCount (id + 1) w) ∧ idCount w <= id.
Proof.
  destruct (GameWorldFacts.findFreeId_spec
              (S (size (objects w))) (objects w) (idCount w))
    as (id & Hid & Hle & _).
  { pose proof (GameWorldFacts.takenFrom_size_le (objects w) (idCount w)).
    lia. }
  exists id. unfold getNewId. rewrite Hid. done.
Qed.

Lemma world_run_snoc ops op w : run (ops ++ [op]) w = apply (run ops w) op.
Proof. unfold run. by rewrite foldl_app. Qed.

(** The ids handed out so far are below [idCount], which never falls. *)
Lemma run_ids ops : ∀ w,
  ∃ ids w',
    run ops w = Some (ids, w')
    ∧ StronglySorted Z.lt ids
    ∧ Forall (λ id, idCount w <= id < idCount w') ids
    ∧ idCount w <= idCount w'.
Proof.
  induction ops as [| op ops IH] using rev_ind; intros w.
  - exists [], w. repeat split; [constructor | constructor | lia].
  - destruct (IH w) as (ids & w' & Hrun & Hsorted & Hall & Hle).
    rewrite world_run_snoc, Hrun. destruct op as [| o | id]; simpl.
    + destruct (getNewId_returns w') as (id & -> & Hid). simpl.
      exists (ids ++ [id]), (setIdCount (id + 1) w').
      split; [done |]. split; [| split; [| simpl; lia]].
      * apply StronglySorted_app_2; [| done | repeat constructor].
        intros x1 x2 Hx1 ->%list_elem_of_singleton.
        rewrite Forall_forall in Hall. specialize (Hall _ Hx1). lia.
      * apply Forall_app. split.
        -- eapply Forall_impl; [exact Hall |]. simpl. intros x Hx. lia.
        -- repeat constructor; simpl; lia.
    + exists ids, (addObject o w'). repeat split; try done.
    + exists ids, (removeObject id w'). repeat split; try done.
Qed.

Example run_reuse :
  fst <$> run [Add (GameObject.create 0 0); NewId; Remove 1; NewId; NewId]
              create
  = Some [1; 2; 3].
Proof. vm_compute. done. Qed.

(** X5.  Whatever objects are added to or removed from the world in
    between, the ids that successive calls of [getNewId] return grow
    strictly: no id is handed out twice, not even the id of an object
    that has been removed since.  Every call returns, and each returned
    id is at or above the [idCount] the world started with. *)
Theorem getNewId_never_repeats (ops : list Op) (w : t) :
  ∃ ids w',
    run ops w = Some (ids, w')
    ∧ StronglySorted Z.lt ids
    ∧ NoDup ids
    ∧ length ids = length (filter (λ op, isNewId op = true) ops)
    ∧ Forall (λ id, idCount w <= id < idCount w') ids.
Proof.
  destruct (run_ids ops w) as (ids & w' & Hrun & Hsorted & Hall & _).
  exists ids, w'. split; [done |]. split; [done |].
  split; [| split; [| done]].
  - clear -Hsorted. induction Hsorted as [| x ids Hs IH Hx];
      constructor; [| done].
    intros Hin. rewrite Forall_forall in Hx. specialize (Hx _ Hin). lia.
  - clear -Hrun. revert ids w' Hrun.
    induction ops as [| op ops IH] using rev_ind; intros ids w' Hrun.
    + by injection Hrun as <- <-.
    + rewrite world_run_snoc in Hrun.
      destruct (run ops w) as [[ids0 w0] |] eqn:Hrun0; [| done].
      specialize (IH _ _ eq_refl). rewrite filter_app, length_app, <- IH.
      destruct op as [| o | id]; simpl in Hrun.
      * destruct (getNewId w0) as [[id w1] |]; [| done].
        injection Hrun as <- <-. rewrite length_app. done.
      * injection Hrun as <- <-. simpl. lia.
      * injection Hrun as <- <-. simpl. lia.
Qed.

(** X6.  After [initWorld] the world is empty and at step 0, and every id
    that [getNewId] hands out from then on lies in the engine's own id
    space: on a client at or above [clientIDSpace], so that the objects
    it creates count as shadow objects; on the server, where the option
    is not set, at or above 0. *)
Theorem initWorld_ids (e : GameEngine.t) (ops : list Op) :
  objects (GameEngine.world (GameEngine.initWorld e)) = ∅
  ∧ stepCount (GameEngine.world (GameEngine.initWorld e)) = 0
  ∧ ∃ ids w',
      run ops (GameEngine.world (GameEngine.initWorld e)) = Some (ids, w')
      ∧ Forall (λ id, match GameEngine.clientIDSpace e with
                      | Some c =>
                          c <= id
                          ∧ GameEngine.inClientIDSpace
                              (GameEngine.initWorld e) id = true
                      | None => 0 <= id
                      end) ids.
Proof.
  assert (Hspace : GameEngine.clientIDSpace (GameEngine.initWorld e)
                   = GameEngine.clientIDSpace e) by done.
  assert (Hcount : idCount (GameEngine.world (GameEngine.initWorld e))
                   = match GameEngine.clientIDSpace e with
                     | Some c => c
                     | None => 0
                     end).
  { unfold GameEngine.initWorld. simpl.
    destruct (GameEngine.clientIDSpace e) as [c |]; [| done].
    destruct (c =? 0) eqn:Hc; [| done]. simpl. lia. }
  split; [| split].
  - unfold GameEngine.initWorld. simpl.
    destruct (GameEngine.clientIDSpace e) as [c |]; [| done].
    by destruct (c =? 0).
  - unfold GameEngine.initWorld. simpl.
    destruct (GameEngine.clientIDSpace e) as [c |]; [| done].
    by destruct (c =? 0).
  - destruct (run_ids ops (GameEngine.world (GameEngine.initWorld e)))
      as (ids & w' & Hrun & _ & Hall & _).
    exists ids, w'. split; [done |].
    eapply Forall_impl; [exact Hall |]. intros id Hid.
    cbv beta in Hid |- *. rewrite Hcount in Hid. unfold GameEngine.inClientIDSpace.
    rewrite Hspace.
    destruct (GameEngine.clientIDSpace e) as [c |]; [| lia].
    split; [lia |]. apply Z.leb_le. lia.
Qed.

End IdFacts.

Module ShadowFacts.
Import GameEngine.

Lemma serverCopyArrived_iff (e : t) (object : GameObject.t) :
  serverCopyArrived e object = true
  ↔ ∃ k o, GameWorld.objects (world e) !! k = Some o
           ∧ sameInputId object o = true.
Proof. unfold serverCopyArrived. by rewrite bool_decide_eq_true. Qed.

Lemma serverCopyArrived_false (e : t) (object : GameObject.t) :
  serverCopyArrived e object = false →
  ∀ k o, GameWorld.objects (world e) !! k = Some o
         → sameInputId object o = false.
Proof.
  intros Hno k o Hk. destruct (sameInputId object o) eqn:Hsame; [| done].
  assert (serverCopyArrived e object = true); [| congruence].
  apply serverCopyArrived_iff. eauto.
Qed.

(** The scan stops at the first match, which leaves [true]; without a
    match it leaves what it started with. *)
Lemma scanLoop_spec object (objs : gmap Z GameObject.t) ids : ∀ arrived,
  (GameWorld.forEachLoop (scanCallback object) objs ids arrived = true
   ∧ ∃ k o, k ∈ ids ∧ objs !! k = Some o ∧ sameInputId object o = true)
  ∨ (GameWorld.forEachLoop (scanCallback object) objs ids arrived = arrived
     ∧ ∀ k o, k ∈ ids → objs !! k = Some o
              → sameInputId object o = false).
Proof.
  induction ids as [| id ids IH]; intros arrived; simpl.
  - right. split; [done |]. intros k o Hk. by apply elem_of_nil in Hk.
  - assert (Hskip :
      (∀ o, objs !! id = Some o → sameInputId object o = false) →
      (GameWorld.forEachLoop (scanCallback object) objs ids arrived = true
       ∧ ∃ k o, k ∈ id :: ids ∧ objs !! k = Some o
                ∧ sameInputId object o = true)
      ∨ (GameWorld.forEachLoop (scanCallback object) objs ids arrived
         = arrived
         ∧ ∀ k o, k ∈ id :: ids → objs !! k = Some o
                  → sameInputId object o = false)).
    { intros Hhead. destruct (IH arrived) as [[-> Hex] | [-> Hall]].
      - left. split; [done |]. destruct Hex as (k & o & Hk & Ho).
        exists k, o. split; [apply elem_of_cons; by right | done].
      - right. split; [done |].
        intros k o [-> | Hk]%elem_of_cons Ho; [by apply Hhead |].
        by apply (Hall k). }
    destruct (objs !! id) as [o |] eqn:Ho; [| by apply Hskip].
    unfold scanCallback at 1 3.
    destruct (sameInputId object o) eqn:Hsame.
    + left. split; [done |]. exists id, o.
      split; [apply elem_of_cons; by left | done].
    + apply Hskip. by intros o' [= <-].
Qed.

(** X7.  The loop that [addObjectToWorld] runs through [forEachObject],
    which stops at the first object with the same own [inputId], sets
    [serverCopyArrived] exactly when some object of the world has the
    same own [inputId] as the object to add. *)
Theorem serverCopyScan_finds_any (e : t) (object : GameObject.t) :
  serverCopyScan e object = serverCopyArrived e object
  ∧ (serverCopyScan e object = true
     ↔ ∃ k o, GameWorld.objects (world e) !! k = Some o
              ∧ GameObject.inputId o ≠ None
              ∧ GameObject.inputId o = GameObject.inputId object).
Proof.
  assert (Hscan : serverCopyScan e object = serverCopyArrived e object).
  { unfold serverCopyScan, GameWorld.forEachObject.
    destruct (scanLoop_spec object (GameWorld.objects (world e))
                (JS.keys (GameWorld.objects (world e))) false)
      as [[-> (k & o & _ & Hk & Hs)] | [-> Hall]].
    - symmetry. apply serverCopyArrived_iff. eauto.
    - symmetry. apply not_true_is_false.
      intros (k & o & Hk & Hs)%serverCopyArrived_iff.
      rewrite (Hall k o) in Hs; [done | | done].
      apply JSFacts.elem_of_keys. eauto. }
  split; [done |]. rewrite Hscan, serverCopyArrived_iff.
  split; intros (k & o & Hk & Hs); exists k, o; (split; [done |]).
  - unfold sameInputId in Hs. destruct (GameObject.inputId o) as [i |];
      [| done].
    apply bool_decide_eq_true in Hs. by rewrite Hs.
  - destruct Hs as [Hsome Heq]. unfold sameInputId.
    destruct (GameObject.inputId o) as [i |]; [| done].
    by apply bool_decide_eq_true.
Qed.

Lemma findShadowLoop_spec (e : t) (serverObj : GameObject.t) ids :
  StronglySorted Z.le ids →
  match findShadowLoop e serverObj ids with
  | Some localObj =>
      ∃ localId,
        localId ∈ ids
        ∧ GameWorld.objects (world e) !! localId = Some localObj
        ∧ belowClientIDSpace e localId = false
        ∧ sameInputId serverObj localObj = true
        ∧ ∀ k o, k ∈ ids → k < localId
                 → GameWorld.objects (world e) !! k = Some o
                 → belowClientIDSpace e k = false
                 → sameInputId serverObj o = false
  | None =>
      ∀ k o, k ∈ ids
             → GameWorld.objects (world e) !! k = Some o
             → belowClientIDSpace e k = false
             → sameInputId serverObj o = false
  end.
Proof.
  induction 1 as [| id ids Hsorted IH Hhd]; simpl.
  - intros k o Hk. by apply elem_of_nil in Hk.
  - rewrite Forall_forall in Hhd.
    assert (Hskip :
      (∀ o, GameWorld.objects (world e) !! id = Some o
            → belowClientIDSpace e id = false
            → sameInputId serverObj o = false) →
      match findShadowLoop e serverObj ids with
      | Some localObj =>
          ∃ localId,
            localId ∈ id :: ids
            ∧ GameWorld.objects (world e) !! localId = Some localObj
            ∧ belowClientIDSpace e localId = false
            ∧ sameInputId serverObj localObj = true
            ∧ ∀ k o, k ∈ id :: ids → k < localId
                     → GameWorld.objects (world e) !! k = Some o
                     → belowClientIDSpace e k = false
                     → sameInputId serverObj o = false
      | None =>
          ∀ k o, k ∈ id :: ids
                 → GameWorld.objects (world e) !! k = Some o
                 → belowClientIDSpace e k = false
                 → sameInputId serverObj o = false
      end).
    { intros Hhead. destruct (findShadowLoop e serverObj ids) as [o |].
      - destruct IH as (k & Hk & Ho & Hb & Hs & Hleast).
        exists k. split; [apply elem_of_cons; by right |].
        repeat split; try done.
        intros k' o' [-> | Hk']%elem_of_cons Hlt Ho' Hb'.
        + by apply Hhead.
        + by apply (Hleast k').
      - intros k o [-> | Hk]%elem_of_cons Ho Hb.
        + by apply Hhead.
        + by apply (IH k). }
    destruct (belowClientIDSpace e id) eqn:Hbelow.
    { apply Hskip. intros o _ Hb. congruence. }
    destruct (GameWorld.objects (world e) !! id) as [o |] eqn:Ho.
    2: { apply Hskip. intros o Ho'. congruence. }
    destruct (sameInputId serverObj o) eqn:Hsame.
    2: { apply Hskip. intros o' [= <-] _. done. }
    exists id. split; [apply elem_of_cons; by left |].
    repeat split; try done.
    intros k o' [-> | Hk]%elem_of_cons Hlt; [lia |].
    specialize (Hhd _ Hk). lia.
Qed.

(** X8.  In a world whose ids are array indices (from 0 to 2^32 - 2),
    [findLocalShadow] returns the object with the smallest id among
    the objects of the world that are not below [clientIDSpace] and have
    the own [inputId] of the server object; it returns [null] exactly
    when the world has no such object.  Objects below [clientIDSpace] are
    never returned. *)
Theorem findLocalShadow_spec (serverObj : GameObject.t) (e : t)
    (Hkeys : JS.arrayIndexKeys (GameWorld.objects (world e))) :
  match findLocalShadow serverObj e with
  | Some localObj =>
      ∃ localId,
        GameWorld.objects (world e) !! localId = Some localObj
        ∧ belowClientIDSpace e localId = false
        ∧ sameInputId serverObj localObj = true
        ∧ ∀ k o, k < localId
                 → GameWorld.objects (world e) !! k = Some o
                 → belowClientIDSpace e k = false
                 → sameInputId serverObj o = false
  | None =>
      ∀ k o, GameWorld.objects (world e) !! k = Some o
             → belowClientIDSpace e k = false
             → sameInputId serverObj o = false
  end.
Proof.
  pose proof (findShadowLoop_spec e serverObj
                (JS.keys (GameWorld.objects (world e)))
                (ServerEngineFacts.StronglySorted_keys _)) as Hloop.
  unfold findLocalShadow.
  destruct (findShadowLoop e serverObj _) as [localObj |].
  - destruct Hloop as (k & Hk & Ho & Hb & Hs & Hleast).
    exists k. repeat split; try done.
    intros k' o' Hlt Ho'. apply Hleast; [| done | done].
    apply JSFacts.elem_of_keys. eauto.
  - intros k o Ho. apply Hloop; [| done].
    apply JSFacts.elem_of_keys. eauto.
Qed.

Lemma findLocalShadow_spec_witness :
  match findLocalShadow (GameObject.create 8 2) Scenario.crowded with
  | Some localObj =>
      ∃ localId,
        GameWorld.objects (world Scenario.crowded) !! localId
        = Some localObj
        ∧ belowClientIDSpace Scenario.crowded localId = false
        ∧ sameInputId (GameObject.create 8 2) localObj = true
        ∧ ∀ k o, k < localId
                 → GameWorld.objects (world Scenario.crowded) !! k = Some o
                 → belowClientIDSpace Scenario.crowded k = false
                 → sameInputId (GameObject.create 8 2) o = false
  | None =>
      ∀ k o, GameWorld.objects (world Scenario.crowded) !! k = Some o
             → belowClientIDSpace Scenario.crowded k = false
             → sameInputId (GameObject.create 8 2) o = false
  end.
Proof.
  apply (findLocalShadow_spec (GameObject.create 8 2) Scenario.crowded).
  repeat (apply JSFacts.arrayIndexKeys_insert; [lia |]).
  apply map_Forall_empty.
Defined.

Example crowded_shadow_found :
  findLocalShadow (GameObject.create 8 2) Scenario.crowded
  = Some (GameObject.create 1000001 1).
Proof. vm_compute. done. Qed.

Lemma addObjectToWorld_cases (object : GameObject.t) (e : t) :
  (inClientIDSpace e (GameObject.id object) = true
   ∧ serverCopyArrived e object = true
   ∧ addObjectToWorld object e = (None, e))
  ∨ ((inClientIDSpace e (GameObject.id object) = false
      ∨ serverCopyArrived e object = false)
     ∧ addObjectToWorld object e
       = (Some object,
          perform [CallOnAddToWorld object; EmitObjectAdded object]
            (setWorld (GameWorld.addObject object (world e)) e))).
Proof.
  unfold addObjectToWorld.
  destruct (inClientIDSpace e (GameObject.id object)) eqn:Hin;
    destruct (serverCopyArrived e object) eqn:Harr; simpl.
  - by left.
  - right. split; [by right |]. unfold perform. simpl.
    by rewrite <- app_assoc.
  - right. split; [by left |]. unfold perform. simpl.
    by rewrite <- app_assoc.
  - right. split; [by left |]. unfold perform. simpl.
    by rewrite <- app_assoc.
Qed.

(** X9.  [addObjectToWorld] refuses an object only when its id is at or
    above [clientIDSpace] and some object of the world has the same own
    [inputId].  In every other case it returns the object, stores it
    under its id, calls [onAddToWorld] and then emits [objectAdded];
    the other objects, the step count and [idCount] stay as they were. *)
Theorem addObjectToWorld_adds (object : GameObject.t) (e : t) :
  ((addObjectToWorld object e).1 = None
   ↔ inClientIDSpace e (GameObject.id object) = true
     ∧ ∃ k o, GameWorld.objects (world e) !! k = Some o
              ∧ sameInputId object o = true)
  ∧ ((addObjectToWorld object e).1 ≠ None →
     (addObjectToWorld object e).1 = Some object
     ∧ GameWorld.objects (world (addObjectToWorld object e).2)
       = <[GameObject.id object := object]> (GameWorld.objects (world e))
     ∧ effects (addObjectToWorld object e).2
       = effects e ++ [CallOnAddToWorld object; EmitObjectAdded object]
     ∧ GameWorld.stepCount (world (addObjectToWorld object e).2)
       = GameWorld.stepCount (world e)
     ∧ GameWorld.idCount (world (addObjectToWorld object e).2)
       = GameWorld.idCount (world e)).
Proof.
  destruct (addObjectToWorld_cases object e)
    as [(Hin & Harr & ->) | [Hnot ->]]; simpl.
  - split; [| done]. split; [| done]. intros _.
    split; [done |]. by apply serverCopyArrived_iff.
  - split; [| done]. split; [done |].
    intros [Hin Harr]. apply serverCopyArrived_iff in Harr.
    destruct Hnot; congruence.
Qed.

(** X10.  A client adds a shadow object with an own [inputId]; its id is
    at or above [clientIDSpace].  When [addObjectToWorld] accepts it,
    [findLocalShadow] finds exactly this shadow for every server object
    with that [inputId]; when it refuses, the world already holds an
    object with that own [inputId] and stays as it was. *)
Theorem added_shadow_is_found
    (e : t) (shadow serverObj : GameObject.t) (c i : Z)
    (Hclient : clientIDSpace e = Some c)
    (Hid : c <= GameObject.id shadow)
    (Hshadow : GameObject.inputId shadow = Some i)
    (Hserver : GameObject.inputId serverObj = Some i) :
  match addObjectToWorld shadow e with
  | (Some o, e') => o = shadow ∧ findLocalShadow serverObj e' = Some shadow
  | (None, e') =>
      e' = e
      ∧ ∃ k o, GameWorld.objects (world e) !! k = Some o
               ∧ GameObject.inputId o = Some i
  end.
Proof.
  assert (Hsame : ∀ o, sameInputId serverObj o = sameInputId shadow o).
  { intros o. unfold sameInputId. by rewrite Hshadow, Hserver. }
  destruct (addObjectToWorld_cases shadow e)
    as [(Hin & Harr & ->) | [Hnot ->]].
  - split; [done |]. apply serverCopyArrived_iff in Harr
      as (k & o & Hk & Hs).
    exists k, o. split; [done |]. unfold sameInputId in Hs.
    destruct (GameObject.inputId o) as [j |]; [| done].
    apply bool_decide_eq_true in Hs. congruence.
  - split; [done |].
    assert (Hin : inClientIDSpace e (GameObject.id shadow) = true).
    { unfold inClientIDSpace. rewrite Hclient. by apply Z.leb_le. }
    destruct Hnot as [Hnot | Harr]; [congruence |].
    pose proof (serverCopyArrived_false e shadow Harr) as Hnone.
    set (e' := perform _ _).
    assert (Hobjs : GameWorld.objects (world e')
                    = <[GameObject.id shadow := shadow]>
                        (GameWorld.objects (world e))) by done.
    assert (Hbelow : belowClientIDSpace e' (GameObject.id shadow) = false).
    { unfold belowClientIDSpace. simpl. rewrite Hclient.
      apply Z.ltb_ge. lia. }
    assert (Hmatch : sameInputId serverObj shadow = true).
    { unfold sameInputId. rewrite Hshadow. by apply bool_decide_eq_true. }
    pose proof (findShadowLoop_spec e' serverObj
                  (JS.keys (GameWorld.objects (world e')))
                  (ServerEngineFacts.StronglySorted_keys _)) as Hspec.
    unfold findLocalShadow.
    destruct (findShadowLoop e' serverObj _) as [localObj |].
    + destruct Hspec as (k & _ & Hk & _ & Hs & _). rewrite Hobjs in Hk.
      apply lookup_insert_Some in Hk as [[_ <-] | [_ Hk]]; [done |].
      rewrite Hsame, (Hnone _ _ Hk) in Hs. done.
    + specialize (Hspec (GameObject.id shadow) shadow).
      rewrite Hobjs, lookup_insert_eq in Hspec.
      rewrite Hspec in Hmatch; try done.
      apply JSFacts.elem_of_keys. rewrite lookup_insert_eq. eauto.
Qed.

Lemma added_shadow_is_found_witness :
  match addObjectToWorld Scenario.firedShadow Scenario.lobby with
  | (Some o, e') =>
      o = Scenario.firedShadow
      ∧ findLocalShadow Scenario.firedServerCopy e'
        = Some Scenario.firedShadow
  | (None, e') =>
      e' = Scenario.lobby
      ∧ ∃ k o, GameWorld.objects (world Scenario.lobby) !! k = Some o
               ∧ GameObject.inputId o = Some 5
  end.
Proof.
  apply (added_shadow_is_found Scenario.lobby Scenario.firedShadow
           Scenario.firedServerCopy 1000000 5);
    [reflexivity | vm_compute; discriminate | reflexivity | reflexivity].
Defined.

Example firedShadow_found :
  findLocalShadow Scenario.firedServerCopy
    (addObjectToWorld Scenario.firedShadow Scenario.lobby).2
  = Some Scenario.firedShadow.
Proof. vm_compute. done. Qed.

End ShadowFacts.

Module DestroyFacts.
Import FrameSyncStrategy.

Abbreviation objectsOf e := (GameWorld.objects (GameEngine.world e)).

Lemma removal_of_present e k o :
  objectsOf e !! k = Some o →
  ∃ e', GameEngine.removeObjectFromWorld (GameEngine.ById k) e
        = (JS.Ok tt, e')
        ∧ objectsOf e' = delete k (objectsOf e)
        ∧ GameEngine.effects e'
          = GameEngine.effects e
            ++ [GameEngine.CallOnRemoveFromWorld o;
                GameEngine.EmitObjectDestroyed o]
        ∧ GameEngine.clientIDSpace e' = GameEngine.clientIDSpace e
        ∧ GameWorld.stepCount (GameEngine.world e')
          = GameWorld.stepCount (GameEngine.world e).
Proof.
  intros Hk. unfold GameEngine.removeObjectFromWorld. simpl. rewrite Hk.
  eexists. split; [done |]. simpl. by rewrite <- app_assoc.
Qed.

Lemma removal_of_absent e k :
  objectsOf e !! k = None →
  ∃ err, GameEngine.removeObjectFromWorld (GameEngine.ById k) e
         = (JS.Throw err, e).
Proof.
  intros Hk. unfold GameEngine.removeObjectFromWorld. simpl. rewrite Hk.
  by eexists.
Qed.

Lemma events_thrown k err e evs :
  foldl (destroyOnEvent k) (JS.Throw err, e) evs = (JS.Throw err, e).
Proof. induction evs as [| ev evs IH]; [done | apply IH]. Qed.

(** Once the object is gone, a further [objectDestroy] makes
    [removeObjectFromWorld] throw. *)
Lemma events_fold_absent k evs : ∀ e,
  objectsOf e !! k = None →
  (length (filter (λ ev, isDestroy ev = true) evs) = 0%nat
   ∧ foldl (destroyOnEvent k) (JS.Ok tt, e) evs = (JS.Ok tt, e))
  ∨ ((0 < length (filter (λ ev, isDestroy ev = true) evs))%nat
     ∧ ∃ err, foldl (destroyOnEvent k) (JS.Ok tt, e) evs
              = (JS.Throw err, e)).
Proof.
  induction evs as [| ev evs IH]; intros e Hk; [by left |].
  cbn [foldl destroyOnEvent]. destruct (isDestroy ev) eqn:Hev.
  - right. rewrite filter_cons_True by done. split; [simpl; lia |].
    destruct (removal_of_absent e k Hk) as [err ->].
    exists err. apply events_thrown.
  - rewrite filter_cons_False by (by rewrite Hev). by apply IH.
Qed.

Lemma events_fold k evs : ∀ e o,
  objectsOf e !! k = Some o →
  (length (filter (λ ev, isDestroy ev = true) evs) = 0%nat
   ∧ foldl (destroyOnEvent k) (JS.Ok tt, e) evs = (JS.Ok tt, e))
  ∨ (length (filter (λ ev, isDestroy ev = true) evs) = 1%nat
     ∧ foldl (destroyOnEvent k) (JS.Ok tt, e) evs
       = GameEngine.removeObjectFromWorld (GameEngine.ById k) e)
  ∨ ((1 < length (filter (λ ev, isDestroy ev = true) evs))%nat
     ∧ ∃ err e', foldl (destroyOnEvent k) (JS.Ok tt, e) evs
                 = (JS.Throw err, e')).
Proof.
  induction evs as [| ev evs IH]; intros e o Hk; [by left |].
  cbn [foldl destroyOnEvent]. destruct (isDestroy ev) eqn:Hev.
  - rewrite filter_cons_True by done. cbn [length].
    destruct (removal_of_present e k o Hk) as (e' & -> & Hobjs & _).
    assert (Hgone : objectsOf e' !! k = None).
    { rewrite Hobjs. apply lookup_delete_eq. }
    destruct (events_fold_absent k evs e' Hgone)
      as [[-> ->] | [Hn (err & ->)]].
    + right; left. done.
    + right; right. split; [lia |]. by exists err, e'.
  - rewrite filter_cons_False by (by rewrite Hev). by apply (IH e o).
Qed.

Lemma doomed_ext sync e1 e2 k :
  GameEngine.clientIDSpace e1 = GameEngine.clientIDSpace e2 →
  doomed sync e1 k = doomed sync e2 k.
Proof.
  intros Heq. unfold doomed, GameEngine.belowClientIDSpace,
    GameEngine.inClientIDSpace. by rewrite Heq.
Qed.

(** A turn for an object that has at most one [objectDestroy] event. *)
Lemma destroyTurn_once sync e k o :
  objectsOf e !! k = Some o →
  (GameEngine.inClientIDSpace e k = false → (destroyCount sync k <= 1)%nat) →
  destroyTurn sync (JS.Ok tt, e) k
  = if doomed sync e k
    then GameEngine.removeObjectFromWorld (GameEngine.ById k) e
    else (JS.Ok tt, e).
Proof.
  intros Hk Honce. unfold destroyTurn, doomed, destroyCount in *.
  destruct (syncObjects sync !! k) as [evs |] eqn:Hevs; simpl in *.
  - rewrite andb_false_r. simpl.
    destruct (GameEngine.inClientIDSpace e k) eqn:Hin; [done |]. simpl.
    specialize (Honce eq_refl).
    destruct (events_fold k evs e o Hk)
      as [[Hn ->] | [[Hn ->] | [Hn _]]]; [| | lia].
    + rewrite Hn. done.
    + rewrite Hn. done.
  - rewrite andb_true_r.
    by destruct (fullUpdate sync && GameEngine.belowClientIDSpace e k).
Qed.

Lemma destroy_fold sync e0 ids : NoDup ids → ∀ e,
  GameEngine.clientIDSpace e = GameEngine.clientIDSpace e0 →
  (∀ k, k ∈ ids → is_Some (objectsOf e !! k)) →
  (∀ k, k ∈ ids → GameEngine.inClientIDSpace e0 k = false
        → (destroyCount sync k <= 1)%nat) →
  ∃ e',
    foldl (destroyTurn sync) (JS.Ok tt, e) ids = (JS.Ok tt, e')
    ∧ GameEngine.clientIDSpace e' = GameEngine.clientIDSpace e0
    ∧ GameWorld.stepCount (GameEngine.world e')
      = GameWorld.stepCount (GameEngine.world e)
    ∧ (∀ k, objectsOf e' !! k
            = if bool_decide (k ∈ ids) && doomed sync e0 k then None
              else objectsOf e !! k)
    ∧ GameEngine.effects e'
      = GameEngine.effects e
        ++ (filter (λ k, doomed sync e0 k = true) ids
            ≫= removalEffects (objectsOf e)).
Proof.
  induction 1 as [| id ids Hid Hnd IH]; intros e Hspace Hkeys Honce.
  - exists e. repeat split; try done. simpl. by rewrite app_nil_r.
  - destruct (Hkeys id) as [o Ho]; [apply elem_of_cons; by left |].
    cbn [foldl]. rewrite (destroyTurn_once sync e id o Ho).
    2: { intros Hin. apply Honce; [apply elem_of_cons; by left |].
         unfold GameEngine.inClientIDSpace in *. by rewrite <- Hspace. }
    rewrite (doomed_ext sync e e0 id Hspace).
    destruct (doomed sync e0 id) eqn:Hdoomed.
    + destruct (removal_of_present e id o Ho)
        as (e1 & -> & Hobjs & Hfx & Hspace1 & Hstep1).
      destruct (IH e1) as (e' & -> & Hspace' & Hstep' & Hlook & Hfx').
      * congruence.
      * intros k Hk. rewrite Hobjs, lookup_delete_ne; [| by intros ->].
        apply Hkeys, elem_of_cons. by right.
      * intros k Hk. apply Honce, elem_of_cons. by right.
      * exists e'. split; [done |]. split; [done |].
        split; [congruence |]. split.
        -- intros k. rewrite Hlook, Hobjs.
           destruct (decide (k = id)) as [-> | Hne].
           ++ rewrite lookup_delete_eq, Hdoomed.
              rewrite (bool_decide_eq_true_2 (id ∈ id :: ids));
                [| apply elem_of_cons; by left].
              by destruct (bool_decide (id ∈ ids)).
           ++ rewrite lookup_delete_ne by done.
              rewrite (bool_decide_ext (k ∈ id :: ids) (k ∈ ids)); [done |].
              rewrite elem_of_cons. tauto.
        -- rewrite Hfx', Hfx, filter_cons_True by done.
           rewrite bind_cons, <- app_assoc. f_equal.
           unfold removalEffects at 2. rewrite Ho. simpl. do 2 f_equal.
           apply JSFacts.bind_ext_elem.
           intros k [_ Hk]%list_elem_of_filter. unfold removalEffects.
           rewrite Hobjs, lookup_delete_ne; [done | by intros ->].
    + destruct (IH e) as (e' & -> & Hspace' & Hstep' & Hlook & Hfx').
      * done.
      * intros k Hk. apply Hkeys, elem_of_cons. by right.
      * intros k Hk. apply Honce, elem_of_cons. by right.
      * exists e'. split; [done |]. split; [done |].
        split; [done |]. split.
        -- intros k. rewrite Hlook.
           destruct (decide (k = id)) as [-> | Hne].
           ++ rewrite Hdoomed, !andb_false_r. done.
           ++ rewrite (bool_decide_ext (k ∈ id :: ids) (k ∈ ids)); [done |].
              rewrite elem_of_cons. tauto.
        -- rewrite Hfx', filter_cons_False; [done |]. by rewrite Hdoomed.
Qed.

Lemma doomed_shadow sync e k :
  GameEngine.inClientIDSpace e k = true → doomed sync e k = false.
Proof.
  unfold doomed, GameEngine.inClientIDSpace, GameEngine.belowClientIDSpace.
  destruct (GameEngine.clientIDSpace e) as [c |]; [| done].
  intros Hin%Z.leb_le. destruct (syncObjects sync !! k).
  - rewrite (Zle_imp_le_bool _ _ Hin). done.
  - rewrite (proj2 (Z.ltb_ge k c) Hin). apply andb_false_r.
Qed.

Lemma remove_shape e k :
  GameEngine.clientIDSpace
    (GameEngine.removeObjectFromWorld (GameEngine.ById k) e).2
  = GameEngine.clientIDSpace e
  ∧ ∀ j, j ≠ k →
      objectsOf (GameEngine.removeObjectFromWorld (GameEngine.ById k) e).2
        !! j
      = objectsOf e !! j.
Proof.
  destruct (objectsOf e !! k) as [o |] eqn:Hk.
  - destruct (removal_of_present e k o Hk) as (e' & -> & Hobjs & _ & Hs & _).
    split; [done |]. intros j Hj. simpl.
    by rewrite Hobjs, lookup_delete_ne.
  - destruct (removal_of_absent e k Hk) as [err ->]. done.
Qed.

Lemma events_shape k evs : ∀ r e,
  GameEngine.clientIDSpace (foldl (destroyOnEvent k) (r, e) evs).2
  = GameEngine.clientIDSpace e
  ∧ ∀ j, j ≠ k →
      objectsOf (foldl (destroyOnEvent k) (r, e) evs).2 !! j
      = objectsOf e !! j.
Proof.
  induction evs as [| ev evs IH]; intros r e; [done |].
  cbn [foldl]. destruct r as [[] | err]; cbn [destroyOnEvent].
  - destruct (isDestroy ev); [| apply IH].
    destruct (remove_shape e k) as [Hs Hobjs].
    destruct (GameEngine.removeObjectFromWorld _ e) as [r1 e1].
    simpl in Hs, Hobjs. destruct (IH r1 e1) as [Hs' Hobjs'].
    split; [congruence |]. intros j Hj. rewrite Hobjs', Hobjs; done.
  - apply IH.
Qed.

Lemma destroyTurn_shape sync e k :
  GameEngine.clientIDSpace (destroyTurn sync (JS.Ok tt, e) k).2
  = GameEngine.clientIDSpace e
  ∧ ∀ j, j ≠ k →
      objectsOf (destroyTurn sync (JS.Ok tt, e) k).2 !! j
      = objectsOf e !! j.
Proof.
  unfold destroyTurn.
  destruct (fullUpdate sync && bool_decide (syncObjects sync !! k = None)
            && GameEngine.belowClientIDSpace e k);
    [apply remove_shape |].
  destruct (syncObjects sync !! k) as [evs |]; [| done].
  destruct (GameEngine.inClientIDSpace e k); [done |].
  apply events_shape.
Qed.

Lemma destroy_thrown sync err e ids :
  foldl (destroyTurn sync) (JS.Throw err, e) ids = (JS.Throw err, e).
Proof. induction ids as [| id ids IH]; [done | apply IH]. Qed.

Lemma destroy_fold_throws sync k ids : ∀ e,
  k ∈ ids →
  is_Some (objectsOf e !! k) →
  GameEngine.inClientIDSpace e k = false →
  (2 <= destroyCount sync k)%nat →
  JS.isThrow (foldl (destroyTurn sync) (JS.Ok tt, e) ids).1 = true.
Proof.
  induction ids as [| id ids IH]; intros e Hin Hk Hspace Htwice.
  - by apply elem_of_nil in Hin.
  - cbn [foldl]. destruct (decide (id = k)) as [-> | Hne].
    + assert (Hthrow : ∃ err e1,
                destroyTurn sync (JS.Ok tt, e) k = (JS.Throw err, e1)).
      { unfold destroyTurn, destroyCount in *.
        destruct (syncObjects sync !! k) as [evs |]; simpl in *; [| lia].
        rewrite andb_false_r, Hspace. simpl. destruct Hk as [o Ho].
        destruct (events_fold k evs e o Ho)
          as [[Hn _] | [[Hn _] | [_ Hthrow]]]; [lia | lia | done]. }
      destruct Hthrow as (err & e1 & ->). by rewrite destroy_thrown.
    + destruct (destroyTurn_shape sync e id) as [Hs Hobjs].
      destruct (destroyTurn sync (JS.Ok tt, e) id) as [[[] | err] e1].
      * simpl in Hs, Hobjs. apply IH; try done.
        -- apply elem_of_cons in Hin as [-> | Hin]; done.
        -- rewrite Hobjs; done.
        -- unfold GameEngine.inClientIDSpace in *. by rewrite Hs.
      * by rewrite destroy_thrown.
Qed.

Example destroy_full_update :
  objectsOf (destroyObjects Scenario.fullSync Scenario.crowded).2
  = {[ 7 := GameObject.create 7 1;
       1000001 := GameObject.create 1000001 1 ]}.
Proof. vm_compute. done. Qed.

(** X11.  The loop that ends [applySync] removes exactly these objects:
    on a full update, every object below [clientIDSpace] that the sync
    does not mention; and every object not at or above [clientIDSpace]
    for which the sync has an [objectDestroy] event.  Objects at or
    above [clientIDSpace], the shadows, always stay.  Each removal goes
    through [removeObjectFromWorld], by ascending id.  This is how the
    loop completes in a world whose ids are array indices (from 0 to
    2^32 - 2) when no object has more than one [objectDestroy] event. *)
Theorem destroyObjects_removes_the_doomed
    (sync : Sync) (e : GameEngine.t)
    (Hkeys : JS.arrayIndexKeys (objectsOf e))
    (Honce : ∀ k, is_Some (objectsOf e !! k)
                  → GameEngine.inClientIDSpace e k = false
                  → (destroyCount sync k <= 1)%nat) :
  ∃ e',
    destroyObjects sync e = (JS.Ok tt, e')
    ∧ (∀ k, objectsOf e' !! k
            = if doomed sync e k then None else objectsOf e !! k)
    ∧ (∀ k, GameEngine.inClientIDSpace e k = true
            → objectsOf e' !! k = objectsOf e !! k)
    ∧ GameEngine.effects e'
      = GameEngine.effects e
        ++ (filter (λ k, doomed sync e k = true) (JS.keys (objectsOf e))
            ≫= removalEffects (objectsOf e))
    ∧ GameWorld.stepCount (GameEngine.world e')
      = GameWorld.stepCount (GameEngine.world e).
Proof.
  destruct (destroy_fold sync e (JS.keys (objectsOf e))
              (JSFacts.NoDup_keys _) e eq_refl)
    as (e' & Hrun & _ & Hstep & Hlook & Hfx).
  { intros k Hk. by apply JSFacts.elem_of_keys. }
  { intros k Hk. apply Honce. by apply JSFacts.elem_of_keys. }
  assert (Hpoint : ∀ k, objectsOf e' !! k
                        = if doomed sync e k then None
                          else objectsOf e !! k).
  { intros k. rewrite Hlook. case_bool_decide as Hk; [done |].
    rewrite JSFacts.elem_of_keys in Hk. simpl.
    destruct (objectsOf e !! k) eqn:Ho; [exfalso; apply Hk; eauto |].
    by destruct (doomed sync e k). }
  exists e'. repeat split; try done.
  intros k Hshadow. by rewrite Hpoint, doomed_shadow.
Qed.

Lemma destroyObjects_removes_the_doomed_witness :
  ∃ e',
    destroyObjects Scenario.fullSync Scenario.crowded = (JS.Ok tt, e')
    ∧ (∀ k, objectsOf e' !! k
            = if doomed Scenario.fullSync Scenario.crowded k then None
              else objectsOf Scenario.crowded !! k)
    ∧ (∀ k, GameEngine.inClientIDSpace Scenario.crowded k = true
            → objectsOf e' !! k = objectsOf Scenario.crowded !! k)
    ∧ GameEngine.effects e'
      = GameEngine.effects Scenario.crowded
        ++ (filter (λ k, doomed Scenario.fullSync Scenario.crowded k = true)
                   (JS.keys (objectsOf Scenario.crowded))
            ≫= removalEffects (objectsOf Scenario.crowded))
    ∧ GameWorld.stepCount (GameEngine.world e')
      = GameWorld.stepCount (GameEngine.world Scenario.crowded).
Proof.
  apply (destroyObjects_removes_the_doomed Scenario.fullSync
           Scenario.crowded).
  { repeat (apply JSFacts.arrayIndexKeys_insert; [lia |]).
    apply map_Forall_empty. }
  intros k _ _. unfold destroyCount. simpl.
  destruct (decide (k = 7)) as [-> |]; [vm_compute; lia |].
  destruct (decide (k = 8)) as [-> |]; [vm_compute; lia |].
  rewrite lookup_insert_ne, lookup_singleton_ne by done. simpl. lia.
Defined.

(** X12.  When the sync has two or more [objectDestroy] events for an
    object of the world that is not at or above [clientIDSpace], the
    loop throws: the second event asks [removeObjectFromWorld] for an
    object that the first has removed. *)
Theorem destroyObjects_throws_on_second_destroy
    (sync : Sync) (e : GameEngine.t) (k : Z)
    (Hk : is_Some (objectsOf e !! k))
    (Hin : GameEngine.inClientIDSpace e k = false)
    (Htwice : (2 <= destroyCount sync k)%nat) :
  JS.isThrow (destroyObjects sync e).1 = true.
Proof.
  unfold destroyObjects. apply (destroy_fold_throws sync k); try done.
  by apply JSFacts.elem_of_keys.
Qed.

Lemma destroyObjects_throws_on_second_destroy_witness :
  JS.isThrow (destroyObjects Scenario.doubleDestroy Scenario.crowded).1
  = true.
Proof.
  apply (destroyObjects_throws_on_second_destroy Scenario.doubleDestroy
           Scenario.crowded 7);
    [by eexists | reflexivity | vm_compute; lia].
Defined.

End DestroyFacts.

Module SyncToFacts.
Import Serializable.

Lemma typeOf_None scheme p : typeOf scheme p = None ↔ p ∉ scheme.*1.
Proof.
  unfold typeOf.
  destruct (list_find (λ kv, kv.1 = p) scheme) as [[i [q ty]] |] eqn:Hfind.
  - split; [done |]. intros Hnot. exfalso. apply Hnot.
    apply list_find_Some in Hfind as (Hi & Hq & _). simpl in Hq. subst q.
    apply list_elem_of_fmap. exists (p, ty). split; [done |].
    by apply list_elem_of_lookup_2 in Hi.
  - split; [| done]. intros _ Hin.
    apply list_elem_of_fmap in Hin as ([q ty] & -> & Hin).
    apply list_find_None in Hfind. rewrite Forall_forall in Hfind.
    by apply (Hfind _ Hin).
Qed.

Lemma get_set_eq p v this : get (set p v this) p = v.
Proof. unfold get, set. simpl. by rewrite lookup_insert_eq. Qed.

Lemma get_set_ne p q v this : p ≠ q → get (set q v this) p = get this p.
Proof. intros Hne. unfold get, set. simpl. by rewrite lookup_insert_ne. Qed.

Lemma get_syncField_ne scheme other this p q :
  p ≠ q → get (syncField scheme other this q) p = get this p.
Proof.
  intros Hne. unfold syncField.
  destruct (typeOf scheme q) as [[] |]; try done;
    try (by apply get_set_ne).
  destruct (isStringValue (get other q)); [by apply get_set_ne | done].
Qed.

Lemma get_syncField_eq scheme other this p :
  typeOf scheme p ≠ None →
  get (syncField scheme other this p) p = synced (Some scheme) other this p.
Proof.
  intros Hty. unfold syncField, synced. simpl.
  destruct (typeOf scheme p) as [[] |]; try done;
    try (by apply get_set_eq).
  destruct (isStringValue (get other p)); [by apply get_set_eq | done].
Qed.

Lemma synced_ext scheme other this this' p :
  get this' p = get this p →
  synced scheme other this' p = synced scheme other this p.
Proof. intros Heq. unfold synced. by rewrite Heq. Qed.

Lemma synced_synced scheme other this this' p :
  get this' p = synced scheme other this p →
  synced scheme other this' p = synced scheme other this p.
Proof.
  unfold synced. intros Heq.
  destruct (scheme ≫= (λ s, typeOf s p)) as [[] |]; try done.
  by destruct (isStringValue (get other p)).
Qed.

Lemma syncLoop_spec scheme other ps : ∀ this p,
  (∀ q, q ∈ ps → typeOf scheme q ≠ None) →
  get (foldl (syncField scheme other) this ps) p
  = if bool_decide (p ∈ ps) then synced (Some scheme) other this p
    else get this p.
Proof.
  induction ps as [| q ps IH]; intros this p Hin; [done |].
  cbn [foldl]. rewrite IH.
  2: { intros q' Hq'. apply Hin, elem_of_cons. by right. }
  destruct (decide (p = q)) as [-> | Hne].
  - rewrite (bool_decide_eq_true_2 (q ∈ q :: ps));
      [| apply elem_of_cons; by left].
    assert (Hq : get (syncField scheme other this q) q
                 = synced (Some scheme) other this q).
    { apply get_syncField_eq, Hin, elem_of_cons. by left. }
    case_bool_decide; [by apply synced_synced | done].
  - rewrite (bool_decide_ext (p ∈ q :: ps) (p ∈ ps)).
    2: { rewrite elem_of_cons. tauto. }
    rewrite (synced_ext _ _ this (syncField scheme other this q)
               p (get_syncField_ne _ _ _ _ _ Hne)).
    by rewrite get_syncField_ne.
Qed.

Lemma syncTo_invariants other this :
  className (syncTo other this) = className this
  ∧ classNetScheme (syncTo other this) = classNetScheme this
  ∧ classId (syncTo other this) = classId this
  ∧ netScheme (syncTo other this) = netScheme this.
Proof.
  unfold syncTo. destruct (classNetScheme this) as [scheme |] eqn:Hs;
    [| done].
  rewrite <- Hs. clear Hs. generalize (scheme.*1). intros ps.
  revert this. induction ps as [| q ps IH]; intros this; [done |].
  cbn [foldl].
  assert (Hstep : className (syncField scheme other this q) = className this
                  ∧ classNetScheme (syncField scheme other this q)
                    = classNetScheme this
                  ∧ classId (syncField scheme other this q) = classId this
                  ∧ netScheme (syncField scheme other this q)
                    = netScheme this).
  { unfold syncField. destruct (typeOf scheme q) as [[] |]; try done.
    by destruct (isStringValue (get other q)). }
  destruct Hstep as (H1 & H2 & H3 & H4).
  destruct (IH (syncField scheme other this q)) as (H1' & H2' & H3' & H4').
  repeat split; congruence.
Qed.

Lemma get_syncTo other this p :
  get (syncTo other this) p = synced (classNetScheme this) other this p.
Proof.
  unfold syncTo. destruct (classNetScheme this) as [scheme |]; [| done].
  rewrite syncLoop_spec.
  2: { intros q Hq Hnone. by apply typeOf_None in Hnone. }
  case_bool_decide as Hp; [done |].
  apply typeOf_None in Hp. unfold synced. simpl. by rewrite Hp.
Qed.

Example syncTo_pruned :
  get (syncTo (set "title" VNull Scenario.playerNow) Scenario.playerSent)
      "title"
  = VString "pawn"
  ∧ get (syncTo Scenario.playerNow Scenario.playerSent) "title"
    = VString "king".
Proof. vm_compute. done. Qed.

(** X13.  [syncTo(other)] goes by the netScheme of the class: a field of
    a number type takes the value that [other] has; a string field takes
    the value of [other] when that is a string, and keeps its own value
    when [other] holds [null], as a pruned copy does; a list field, a
    class instance field and a field that the netScheme does not list
    are not touched.  Syncing a second time to the same object changes
    nothing more. *)
Theorem syncTo_spec (other this : Instance) (p : string) :
  get (syncTo other this) p
  = match classNetScheme this ≫= (λ s, typeOf s p) with
    | Some LIST | Some CLASSINSTANCE | None => get this p
    | Some STRING =>
        if isStringValue (get other p) then get other p else get this p
    | Some _ => get other p
    end
  ∧ get (syncTo other (syncTo other this)) p = get (syncTo other this) p
  ∧ classNetScheme (syncTo other this) = classNetScheme this
  ∧ className (syncTo other this) = className this.
Proof.
  destruct (syncTo_invariants other this) as (Hname & Hscheme & _ & _).
  split; [apply get_syncTo |]. split; [| done].
  rewrite get_syncTo, Hscheme, (get_syncTo other this p).
  apply synced_synced, get_syncTo.
Qed.

End SyncToFacts.

Module TimerFacts.
Import Timer.

Lemma tickEvent_spec s q :
  keyedById s →
  currentTime (tickEvent s q) = currentTime s
  ∧ isActive (tickEvent s q) = isActive s
  ∧ idCounter (tickEvent s q) = idCounter s
  ∧ applied (tickEvent s q)
    = applied s ++ from_option (firing (currentTime s)) [] (events s !! q)
  ∧ (∀ k, events (tickEvent s q) !! k
          = if decide (k = q) then events s !! k ≫= afterTick (currentTime s)
            else events s !! k).
Proof.
  intros Hkeyed. unfold tickEvent.
  destruct (events s !! q) as [event |] eqn:Hq; simpl.
  2: { rewrite app_nil_r. repeat split; try done.
       intros k. case_decide; [by subst; rewrite Hq | done]. }
  pose proof (Hkeyed _ _ Hq) as Hid. unfold firing, afterTick.
  destruct (type event) eqn:Hty, (due (currentTime s) event) eqn:Hdue;
    cbn; rewrite ?app_nil_r, ?Hid;
    do 4 (split; [done |]); intros k;
    destruct (decide (k = q)) as [-> | Hne]; rewrite ?Hq; cbn;
    rewrite ?Hty, ?Hdue; try done.
  - apply lookup_delete_eq.
  - by apply lookup_delete_ne.
Qed.

Lemma keyedById_tickEvent s q : keyedById s → keyedById (tickEvent s q).
Proof.
  intros Hkeyed k event.
  destruct (tickEvent_spec s q Hkeyed) as (_ & _ & _ & _ & ->).
  case_decide.
  - destruct (events s !! k) as [ev |] eqn:Hk; [| done]. simpl.
    unfold afterTick.
    destruct (type ev), (due (currentTime s) ev); try done;
      intros [= <-]; by apply Hkeyed.
  - apply Hkeyed.
Qed.

Lemma tickLoop_spec ids : NoDup ids → ∀ s,
  keyedById s →
  currentTime (foldl tickEvent s ids) = currentTime s
  ∧ isActive (foldl tickEvent s ids) = isActive s
  ∧ idCounter (foldl tickEvent s ids) = idCounter s
  ∧ applied (foldl tickEvent s ids)
    = applied s
      ++ (ids ≫= λ k, from_option (firing (currentTime s)) []
                                  (events s !! k))
  ∧ (∀ k, events (foldl tickEvent s ids) !! k
          = if bool_decide (k ∈ ids)
            then events s !! k ≫= afterTick (currentTime s)
            else events s !! k)
  ∧ keyedById (foldl tickEvent s ids).
Proof.
  induction 1 as [| q ids Hq Hnd IH]; intros s Hkeyed.
  - simpl. rewrite app_nil_r. done.
  - cbn [foldl].
    destruct (tickEvent_spec s q Hkeyed) as (Hct & Hact & Hcnt & Hfx & Hev).
    destruct (IH (tickEvent s q) (keyedById_tickEvent s q Hkeyed))
      as (Hct' & Hact' & Hcnt' & Hfx' & Hev' & Hkeyed').
    split; [congruence |]. split; [congruence |]. split; [congruence |].
    split; [| split; [| done]].
    + rewrite Hfx', Hfx, Hct, bind_cons, <- app_assoc. do 2 f_equal.
      apply JSFacts.bind_ext_elem. intros k Hk. rewrite Hev.
      rewrite decide_False; [done | by intros ->].
    + intros k. rewrite Hev', Hev, Hct.
      destruct (decide (k = q)) as [-> | Hne].
      * rewrite (bool_decide_eq_false_2 (q ∈ ids)) by done.
        rewrite bool_decide_eq_true_2; [done |]. apply elem_of_cons.
        by left.
      * rewrite (bool_decide_ext (k ∈ q :: ids) (k ∈ ids)); [done |].
        rewrite elem_of_cons. tauto.
Qed.

Lemma filter_all {A} (P : A → Prop) `{∀ x, Decision (P x)} (l : list A) :
  (∀ x, x ∈ l → P x) → filter P l = l.
Proof.
  induction l as [| x l IH]; intros Hall; [done |].
  rewrite filter_cons_True by (apply Hall, elem_of_cons; by left).
  f_equal. apply IH. intros y Hy. apply Hall, elem_of_cons. by right.
Qed.

Lemma filter_none {A} (P : A → Prop) `{∀ x, Decision (P x)} (l : list A) :
  (∀ x, x ∈ l → ¬ P x) → filter P l = [].
Proof.
  induction l as [| x l IH]; intros Hall; [done |].
  rewrite filter_cons_False by (apply Hall, elem_of_cons; by left).
  apply IH. intros y Hy. apply Hall, elem_of_cons. by right.
Qed.

Lemma filter_bind_key (f : Z → list (Z * string)) k ids :
  NoDup ids →
  (∀ k' call, k' ∈ ids → call ∈ f k' → call.1 = k') →
  filter (λ call, call.1 = k) (ids ≫= f)
  = if bool_decide (k ∈ ids) then f k else [].
Proof.
  induction 1 as [| q ids Hq Hnd IH]; intros Hown; [done |].
  rewrite bind_cons, filter_app, IH.
  2: { intros k' call Hk'. apply Hown, elem_of_cons. by right. }
  destruct (decide (k = q)) as [-> | Hne].
  - rewrite (bool_decide_eq_false_2 (q ∈ ids)) by done.
    rewrite bool_decide_eq_true_2 by (apply elem_of_cons; by left).
    rewrite app_nil_r. apply filter_all. intros call Hcall.
    apply (Hown q); [apply elem_of_cons; by left | done].
  - rewrite (bool_decide_ext (k ∈ q :: ids) (k ∈ ids)).
    2: { rewrite elem_of_cons. tauto. }
    rewrite filter_none; [done |]. intros call Hcall Heq.
    apply Hne. rewrite <- Heq.
    apply (Hown q); [apply elem_of_cons; by left | done].
Qed.

(** One tick of an active timer. *)
Lemma tick_active s :
  keyedById s → isActive s = true →
  currentTime (tick s) = currentTime s + 1
  ∧ isActive (tick s) = true
  ∧ idCounter (tick s) = idCounter s
  ∧ applied (tick s)
    = applied s
      ++ (JS.keys (events s)
          ≫= λ k, from_option (firing (currentTime s + 1)) []
                              (events s !! k))
  ∧ (∀ k, events (tick s) !! k
          = events s !! k ≫= afterTick (currentTime s + 1))
  ∧ (∀ k, callsSince k s (tick s)
          = from_option (firing (currentTime s + 1)) [] (events s !! k))
  ∧ keyedById (tick s).
Proof.
  intros Hkeyed Hact. unfold tick. rewrite Hact.
  set (s' := {| currentTime := currentTime s + 1; isActive := true;
                idCounter := idCounter s; events := events s;
                applied := applied s |}).
  destruct (tickLoop_spec (JS.keys (events s)) (JSFacts.NoDup_keys _) s')
    as (Hct & Hact' & Hcnt & Hfx & Hev & Hkeyed'); [done |].
  assert (Hpoint : ∀ k, events (foldl tickEvent s' (JS.keys (events s))) !! k
                        = events s !! k ≫= afterTick (currentTime s + 1)).
  { intros k. rewrite Hev. simpl. case_bool_decide as Hk; [done |].
    rewrite JSFacts.elem_of_keys in Hk.
    destruct (events s !! k) eqn:Hlook; [| done].
    exfalso. apply Hk. eauto. }
  repeat split; try done.
  intros k. unfold callsSince. rewrite Hfx. simpl.
  rewrite drop_app_length, filter_bind_key; [| apply JSFacts.NoDup_keys |].
  - case_bool_decide as Hk; [done |].
    rewrite JSFacts.elem_of_keys in Hk.
    destruct (events s !! k) eqn:Hlook; [| done].
    exfalso. apply Hk. eauto.
  - intros k' call _. destruct (events s !! k') as [event |] eqn:Hk';
      simpl; [| by intros ?%elem_of_nil].
    unfold firing. destruct (due _ event); [| by intros ?%elem_of_nil].
    intros ->%list_elem_of_singleton. simpl. by apply Hkeyed.
Qed.

Lemma keyedById_register type time cb s :
  keyedById s → keyedById (register type time cb s).2.
Proof.
  intros Hkeyed k event. simpl.
  intros [[<- <-] | [_ Hk]]%lookup_insert_Some; [done | by apply Hkeyed].
Qed.

(** The calls of [n] ticks come after those made before. *)
Lemma ticks_active n : ∀ s,
  keyedById s → isActive s = true →
  currentTime (ticks n s) = currentTime s + Z.of_nat n
  ∧ isActive (ticks n s) = true
  ∧ keyedById (ticks n s)
  ∧ (length (applied s) <= length (applied (ticks n s)))%nat.
Proof.
  induction n as [| n IH]; intros s Hkeyed Hact.
  - simpl. repeat split; try done. lia.
  - destruct (IH s Hkeyed Hact) as (Hct & Hact' & Hkeyed' & Hlen).
    cbn [ticks].
    destruct (tick_active (ticks n s) Hkeyed' Hact')
      as (Hct1 & Hact1 & _ & Hfx1 & _ & _ & Hkeyed1).
    repeat split; try done; [lia |].
    rewrite Hfx1, length_app. lia.
Qed.

Lemma callsSince_tick k s n :
  keyedById s → isActive s = true →
  callsSince k s (ticks (S n) s)
  = callsSince k s (ticks n s)
    ++ from_option (firing (currentTime s + Z.of_nat n + 1)) []
                   (events (ticks n s) !! k).
Proof.
  intros Hkeyed Hact.
  destruct (ticks_active n s Hkeyed Hact) as (Hct & Hact' & Hkeyed' & Hlen).
  destruct (tick_active (ticks n s) Hkeyed' Hact')
    as (_ & _ & _ & Hfx & _ & Hcalls & _).
  specialize (Hcalls k). rewrite Hct in Hcalls. rewrite <- Hcalls.
  unfold callsSince. cbn [ticks]. rewrite Hfx.
  rewrite drop_app_le by done. rewrite filter_app. f_equal.
  by rewrite drop_app_length.
Qed.

Lemma due_after_register type time cb s (n : nat) :
  1 <= time →
  due (currentTime s + Z.of_nat n + 1) (register type time cb s).1
  = bool_decide (Z.of_nat (S n) mod time = 0).
Proof.
  intros Htime. unfold due. simpl.
  destruct (time =? 0) eqn:Hz; [lia |].
  replace (currentTime s + Z.of_nat n + 1 - currentTime s)
    with (Z.of_nat (S n)) by lia.
  rewrite Z.rem_mod_nonneg by lia.
  case_bool_decide as Hmod; [by apply Z.eqb_eq | by apply Z.eqb_neq].
Qed.

Lemma div_succ (n time : Z) :
  0 <= n → 1 <= time →
  (n + 1) `div` time
  = n `div` time + (if bool_decide ((n + 1) mod time = 0) then 1 else 0).
Proof.
  intros Hn Htime.
  pose proof (Z.div_mod n time ltac:(lia)) as Hdm.
  pose proof (Z.mod_pos_bound n time ltac:(lia)) as Hr.
  destruct (decide (n mod time = time - 1)) as [Hlast | Hmid].
  - assert (Hmod : (n + 1) mod time = 0).
    { symmetry. apply (Z.mod_unique _ _ (n `div` time + 1)); lia. }
    rewrite bool_decide_eq_true_2 by done.
    symmetry. apply (Z.div_unique _ _ _ 0); lia.
  - assert (Hmod : (n + 1) mod time = n mod time + 1).
    { symmetry. apply (Z.mod_unique _ _ (n `div` time)); lia. }
    rewrite bool_decide_eq_false_2 by lia.
    symmetry. apply (Z.div_unique _ _ _ (n mod time + 1)); lia.
Qed.

Example stopwatch_run :
  applied (ticks 7 (loop 3 "beat" (add 5 "boom" (play create)).2).2)
  = [(2, "beat"); (1, "boom"); (2, "beat")]%string.
Proof. vm_compute. done. Qed.

(** X14.  A tick of a timer that is not active changes nothing.  A tick
    of an active timer advances [currentTime] by one and then applies,
    by ascending event id, the callback of every event that is due: whose
    [time] is not 0 and divides the time passed since the event was
    made.  A single event that is due is removed, every other event
    stays; an event whose [time] is 0 is never due. *)
Theorem tick_spec (timer : t) (Hkeyed : keyedById timer) :
  (isActive timer = false → tick timer = timer)
  ∧ (isActive timer = true →
     currentTime (tick timer) = currentTime timer + 1
     ∧ applied (tick timer)
       = applied timer
         ++ (JS.keys (events timer)
             ≫= λ k, from_option (firing (currentTime timer + 1)) []
                                 (events timer !! k))
     ∧ (∀ k, events (tick timer) !! k
             = events timer !! k ≫= afterTick (currentTime timer + 1))
     ∧ idCounter (tick timer) = idCounter timer
     ∧ keyedById (tick timer))
  ∧ (∀ now event,
       due now event = true
       ↔ time event ≠ 0
         ∧ Z.rem (now - startOffset event) (time event) = 0).
Proof.
  split; [| split].
  - intros Hoff. unfold tick. by rewrite Hoff.
  - intros Hact.
    destruct (tick_active timer Hkeyed Hact)
      as (Hct & _ & Hcnt & Hfx & Hev & _ & Hkeyed').
    done.
  - intros now event. unfold due.
    destruct (time event =? 0) eqn:Hz.
    + apply Z.eqb_eq in Hz. split; [done | by intros [? _]].
    + apply Z.eqb_neq in Hz. rewrite Z.eqb_eq. tauto.
Qed.

Lemma keyedById_stopwatch : keyedById (play create).
Proof. intros k event Hk. simpl in Hk. by rewrite lookup_empty in Hk. Qed.

Lemma keyedById_armed : keyedById (add 5 "boom" (play create)).2.
Proof. apply keyedById_register, keyedById_stopwatch. Qed.

Lemma tick_spec_witness :
  currentTime (tick (add 5 "boom" (play create)).2) = 1
  ∧ keyedById (tick (add 5 "boom" (play create)).2).
Proof.
  destruct (proj1 (proj2 (tick_spec (add 5 "boom" (play create)).2
                            keyedById_armed)) eq_refl)
    as (Hct & _ & _ & _ & Hkeyed).
  split; [exact Hct | exact Hkeyed].
Defined.

(** X15.  An event made by [add] with a time of at least one tick, on an
    active timer: its callback is applied exactly once, by the tick
    number [time] after the event was made, and that tick removes the
    event.  Before that tick the event waits and nothing is applied for
    it; after it nothing is applied for it any more. *)
Theorem single_event_fires_once
    (timer : t) (time : Z) (cb : string) (n : nat)
    (Hkeyed : keyedById timer) (Hact : isActive timer = true)
    (Htime : 1 <= time) :
  let event := (add time cb timer).1 in
  let timer1 := (add time cb timer).2 in
  callsSince (id event) timer1 (ticks n timer1)
  = (if bool_decide (time <= Z.of_nat n) then [(id event, cb)] else [])
  ∧ events (ticks n timer1) !! id event
    = (if bool_decide (time <= Z.of_nat n) then None else Some event).
Proof.
  intros event timer1.
  assert (Hkeyed1 : keyedById timer1) by by apply keyedById_register.
  assert (Hact1 : isActive timer1 = true) by done.
  induction n as [| n [IHcalls IHev]].
  - rewrite bool_decide_eq_false_2 by lia. split.
    + unfold callsSince. simpl. by rewrite drop_all.
    + simpl. apply lookup_insert_eq.
  - destruct (ticks_active n timer1 Hkeyed1 Hact1)
      as (Hct & Hactn & Hkeyedn & _).
    destruct (tick_active (ticks n timer1) Hkeyedn Hactn)
      as (_ & _ & _ & _ & Hev & _ & _).
    rewrite callsSince_tick by done. cbn [ticks].
    rewrite Hev, IHcalls, IHev, Hct.
    case_bool_decide as Hn.
    + rewrite bool_decide_eq_true_2 by lia. done.
    + simpl. unfold firing, afterTick.
      change (currentTime timer1) with (currentTime timer).
      change (Timer.type event) with single.
      change (callback event) with cb.
      pose proof (due_after_register single time cb timer n Htime) as Hdue.
      change (register single time cb timer).1 with event in Hdue.
      rewrite Hdue.
      destruct (decide (time = Z.of_nat (S n))) as [Hlast | Hmid].
      * rewrite bool_decide_eq_true_2 by (rewrite <- Hlast; apply Z_mod_same_full).
        rewrite bool_decide_eq_true_2 by lia. done.
      * rewrite bool_decide_eq_false_2 by (rewrite Z.mod_small; lia).
        rewrite bool_decide_eq_false_2 by lia. done.
Qed.

Lemma single_event_fires_once_witness :
  callsSince 1 (add 5 "boom" (play create)).2
             (ticks 7 (add 5 "boom" (play create)).2)
  = [(1, "boom"%string)]
  ∧ events (ticks 7 (add 5 "boom" (play create)).2) !! 1 = None.
Proof.
  exact (single_event_fires_once (play create) 5 "boom" 7
           keyedById_stopwatch eq_refl ltac:(lia)).
Defined.

(** X16.  An event made by [loop] with a time of at least one tick, on an
    active timer, stays registered, and its callback is applied by
    exactly the ticks whose number, counted from the making of the
    event, is a multiple of [time]: after [n] ticks it has been applied
    [n div time] times. *)
Theorem repeat_event_fires_every_time
    (timer : t) (time : Z) (cb : string) (n : nat)
    (Hkeyed : keyedById timer) (Hact : isActive timer = true)
    (Htime : 1 <= time) :
  let event := (loop time cb timer).1 in
  let timer1 := (loop time cb timer).2 in
  events (ticks n timer1) !! id event = Some event
  ∧ callsSince (id event) (ticks n timer1) (ticks (S n) timer1)
    = (if bool_decide (Z.of_nat (S n) mod time = 0) then [(id event, cb)]
       else [])
  ∧ callsSince (id event) timer1 (ticks n timer1)
    = replicate (Z.to_nat (Z.of_nat n `div` time)) (id event, cb).
Proof.
  intros event timer1.
  assert (Hkeyed1 : keyedById timer1) by by apply keyedById_register.
  assert (Hact1 : isActive timer1 = true) by done.
  assert (Hstay : ∀ m, events (ticks m timer1) !! id event = Some event).
  { induction m as [| m IH]; [apply lookup_insert_eq |].
    destruct (ticks_active m timer1 Hkeyed1 Hact1)
      as (_ & Hactm & Hkeyedm & _).
    destruct (tick_active (ticks m timer1) Hkeyedm Hactm)
      as (_ & _ & _ & _ & Hev & _ & _).
    cbn [ticks]. by rewrite Hev, IH. }
  assert (Hbeat : ∀ m,
            from_option
              (firing (currentTime timer1 + Z.of_nat m + 1)) []
              (events (ticks m timer1) !! id event)
            = if bool_decide (Z.of_nat (S m) mod time = 0)
              then [(id event, cb)] else []).
  { intros m. rewrite Hstay. simpl. unfold firing.
    change (currentTime timer1) with (currentTime timer).
    pose proof (due_after_register repeat time cb timer m Htime) as Hdue.
    change (register repeat time cb timer).1 with event in Hdue.
    by rewrite Hdue. }
  split; [apply Hstay |]. split.
  - destruct (ticks_active n timer1 Hkeyed1 Hact1)
      as (Hct & Hactn & Hkeyedn & _).
    destruct (tick_active (ticks n timer1) Hkeyedn Hactn)
      as (_ & _ & _ & _ & _ & Hcalls & _).
    cbn [ticks]. rewrite Hcalls, Hct. apply Hbeat.
  - induction n as [| n IH].
    + unfold callsSince. simpl. by rewrite drop_all.
    + rewrite callsSince_tick, IH, Hbeat by done.
      replace (Z.of_nat (S n)) with (Z.of_nat n + 1) by lia.
      rewrite (div_succ (Z.of_nat n) time) by lia.
      pose proof (Z.div_pos (Z.of_nat n) time ltac:(lia) ltac:(lia)).
      case_bool_decide.
      * rewrite Z2Nat.inj_add by lia. rewrite replicate_add.
        done.
      * by rewrite Z.add_0_r, app_nil_r.
Qed.

Lemma repeat_event_fires_every_time_witness :
  events (ticks 7 (loop 3 "beat" (play create)).2) !! 1
  = Some (loop 3 "beat" (play create)).1
  ∧ callsSince 1 (ticks 7 (loop 3 "beat" (play create)).2)
               (ticks 8 (loop 3 "beat" (play create)).2)
    = []
  ∧ callsSince 1 (loop 3 "beat" (play create)).2
               (ticks 7 (loop 3 "beat" (play create)).2)
    = [(1, "beat"%string); (1, "beat"%string)].
Proof.
  exact (repeat_event_fires_every_time (play create) 3 "beat" 7
           keyedById_stopwatch eq_refl ltac:(lia)).
Defined.

End TimerFacts.

Module DrainFacts.
Import ServerEngine ServerEngineFacts.

Lemma run_tick ops s : run (Tick :: ops) s = run ops (step s).
Proof. done. Qed.

(** Without a bucket that is due, the queue is empty or its oldest
    bucket lies ahead of the step count. *)
Lemma oldestDue_None sc (q : gmap Z (list Input.Descriptor)) :
  oldestDue sc q = None →
  q = ∅ ∨ ∃ m, is_Some (q !! m) ∧ sc < m.
Proof.
  unfold oldestDue.
  destruct (JS.min (JS.keys q)) as [m |] eqn:Hmin.
  - destruct (Z.leb_spec m sc); [done |]. intros _. right. exists m.
    apply JSFacts.min_spec in Hmin as [Hin _].
    split; [by apply JSFacts.elem_of_keys | done].
  - intros _. left. apply JSFacts.min_None in Hmin.
    apply map_empty. intros k.
    destruct (q !! k) eqn:Hk; [| done].
    assert (k ∈ JS.keys q) as Hin by (apply JSFacts.elem_of_keys; eauto).
    rewrite Hmin in Hin. by apply elem_of_nil in Hin.
Qed.

Lemma pendingOf_empty : pendingOf ∅ = [].
Proof. unfold pendingOf. by rewrite JSFacts.keys_empty. Qed.

Lemma drain bound p n : ∀ s,
  (∀ k, is_Some (queueOf s p !! k) → k <= bound) →
  (size (queueOf s p) + Z.to_nat (bound - stepCount s) <= n)%nat →
  queueOf (run (replicate n Tick) s) p = ∅
  ∧ served p (run (replicate n Tick) s)
    = served p s ++ pendingOf (queueOf s p).
Proof.
  induction n as [| n IH]; intros s Hbound Hn.
  - assert (Hempty : queueOf s p = ∅).
    { apply map_size_empty_iff. lia. }
    simpl. rewrite Hempty, pendingOf_empty, app_nil_r. done.
  - cbn [replicate]. rewrite run_tick.
    destruct (step_spec s p) as (Hsc & Hq & Hserved).
    assert (Hbound' : ∀ k, is_Some (queueOf (step s) p !! k) → k <= bound).
    { intros k. rewrite Hq. unfold afterPop.
      destruct (oldestDue (stepCount s) (queueOf s p)); [| apply Hbound].
      intros [b [_ Hk]%lookup_delete_Some]. apply Hbound. eauto. }
    destruct (IH (step s) Hbound') as [Hdone Hall].
    + rewrite Hq, Hsc. unfold afterPop.
      destruct (oldestDue (stepCount s) (queueOf s p)) as [m |] eqn:Hdue.
      * apply oldestDue_spec in Hdue as ([b Hm] & _ & _).
        pose proof (map_size_delete m (queueOf s p)) as Hsize.
        rewrite Hm in Hsize. simpl in Hsize.
        assert (size (queueOf s p) ≠ 0%nat).
        { intros Hz%map_size_empty_iff. by rewrite Hz in Hm. }
        lia.
      * destruct (oldestDue_None _ _ Hdue) as [Hempty | (m & Hm & Hlt)].
        -- rewrite Hempty, map_size_empty in *. lia.
        -- pose proof (Hbound m Hm). lia.
    + split; [done |].
      rewrite Hall, Hserved, Hq, <- app_assoc. f_equal.
      symmetry. apply pendingOf_pop_exact.
Qed.

Example traffic_drained :
  pending 1 (run (Scenario.traffic ++ replicate 20 Tick)
                 (start Scenario.server10))
  = [].
Proof. vm_compute. done. Qed.

(** X17.  No queued input is left behind.  When no further input
    arrives, a player's queue is empty after as many server steps as it
    has buckets, plus the steps the world still needs to reach the
    latest bucket; by then every input of the queue has been handed to
    [processInput], bucket after bucket by ascending step and in arrival
    order within a bucket. *)
Theorem queued_inputs_are_all_served
    (s : t) (p : Z) (bound : Z) (n : nat)
    (Hbound : ∀ k, is_Some ((playerInputQueues s !!! p) !! k) → k <= bound)
    (Hticks : (size (playerInputQueues s !!! p)
               + Z.to_nat (bound - stepCount s) <= n)%nat) :
  playerInputQueues (run (replicate n Tick) s) !!! p = ∅
  ∧ pending p (run (replicate n Tick) s) = []
  ∧ dispatched p (GameEngine.effects
                    (gameEngine (run (replicate n Tick) s)))
    = dispatched p (GameEngine.effects (gameEngine s)) ++ pending p s
  ∧ stepCount (run (replicate n Tick) s) = stepCount s + Z.of_nat n.
Proof.
  destruct (drain bound p n s Hbound Hticks) as [Hempty Hserved].
  split; [done |]. split; [| split; [done |]].
  - unfold pending. by rewrite Hempty, pendingOf_empty.
  - clear. revert s. induction n as [| n IH]; intros s; [simpl; lia |].
    cbn [replicate]. rewrite run_tick, IH.
    destruct (step_spec s 0) as (-> & _). lia.
Qed.

Lemma queued_inputs_are_all_served_witness :
  playerInputQueues
    (run (replicate 22 Tick)
         (run Scenario.traffic (start Scenario.server10))) !!! 1 = ∅
  ∧ pending 1 (run (replicate 22 Tick)
                   (run Scenario.traffic (start Scenario.server10))) = []
  ∧ dispatched 1 (GameEngine.effects
                    (gameEngine
                       (run (replicate 22 Tick)
                            (run Scenario.traffic
                                 (start Scenario.server10)))))
    = dispatched 1 (GameEngine.effects
                      (gameEngine
                         (run Scenario.traffic (start Scenario.server10))))
      ++ pending 1 (run Scenario.traffic (start Scenario.server10))
  ∧ stepCount (run (replicate 22 Tick)
                   (run Scenario.traffic (start Scenario.server10)))
    = stepCount (run Scenario.traffic (start Scenario.server10))
      + Z.of_nat 22.
Proof.
  apply (queued_inputs_are_all_served
           (run Scenario.traffic (start Scenario.server10)) 1 30 22).
  - intros k [b Hk]. vm_compute in Hk.
    destruct (decide (k = 30)) as [-> |]; [lia |].
    exfalso. revert Hk. 
    change (({[ 30 := [Scenario.mkInput "down" 3 30 true] ]}
             : gmap Z (list Input.Descriptor)) !! k = Some b → False).
    by rewrite lookup_singleton_ne.
  - vm_compute. lia.
Defined.

End DrainFacts.

Module RoomFacts.
Import ServerRooms.

Lemma getPlayer_nil sid : getPlayer sid [] = None.
Proof. done. Qed.

Lemma getPlayer_cons sid k p players :
  getPlayer sid ((k, p) :: players)
  = if decide (k = sid) then Some p else getPlayer sid players.
Proof.
  unfold getPlayer. cbn [list_find]. simpl.
  destruct (decide (k = sid)) as [Hk | Hk]; [done |].
  by destruct (list_find _ players) as [[i [k' p']] |].
Qed.

Lemma eqb_decide (a b : string) :
  String.eqb a b = bool_decide (a = b).
Proof.
  destruct (String.eqb_spec a b).
  - by rewrite bool_decide_eq_true_2.
  - by rewrite bool_decide_eq_false_2.
Qed.

Lemma getPlayer_setPlayer sid sid' p players :
  getPlayer sid (setPlayer sid' p players)
  = if decide (sid' = sid) then Some p else getPlayer sid players.
Proof.
  induction players as [| [k q] players IH]; simpl.
  - rewrite getPlayer_cons. by case_decide.
  - rewrite eqb_decide. case_bool_decide as Hk.
    + subst k. rewrite !getPlayer_cons. by case_decide.
    + rewrite !getPlayer_cons, IH.
      destruct (decide (k = sid)), (decide (sid' = sid)); congruence.
Qed.


Lemma markSynced_id room players :
  (∀ entry, entry ∈ players → inRoom room entry = true
            → isNew entry = false) →
  markSynced room players = players.
Proof.
  intros Hsynced. unfold markSynced.
  induction players as [| entry players IH]; [done |].
  rewrite fmap_cons. f_equal.
  - destruct (inRoom room entry) eqn:Hin; [| done].
    rewrite (Hsynced entry); [done | apply elem_of_cons; by left | done].
  - apply IH. intros e He. apply Hsynced, elem_of_cons. by right.
Qed.

Lemma existsb_isNew_false room players :
  (∀ entry, entry ∈ players → inRoom room entry = true
            → isNew entry = false) →
  existsb isNew (filter (λ entry, inRoom room entry = true) players)
  = false.
Proof.
  intros Hsynced. apply not_true_is_false.
  intros (entry & Hin & Hnew)%existsb_exists.
  apply list_elem_of_In, list_elem_of_filter in Hin as [Hroom Hin].
  rewrite (Hsynced entry Hin Hroom) in Hnew. done.
Qed.



Lemma remIsZero_divide a b :
  remIsZero a b = true ↔ b ≠ 0 ∧ a mod b = 0.
Proof.
  unfold remIsZero. destruct (b =? 0) eqn:Hb.
  - apply Z.eqb_eq in Hb. split; [done | by intros [? _]].
  - apply Z.eqb_neq in Hb. rewrite Z.eqb_eq.
    rewrite Z.rem_divide, Z.mod_divide by done. tauto.
Qed.

Lemma div_step (n time : Z) :
  1 <= time →
  (n + 1) `div` time
  = n `div` time + (if bool_decide ((n + 1) mod time = 0) then 1 else 0).
Proof.
  intros Htime.
  pose proof (Z.div_mod n time ltac:(lia)) as Hdm.
  pose proof (Z.mod_pos_bound n time ltac:(lia)) as Hr.
  destruct (decide (n mod time = time - 1)) as [Hlast | Hmid].
  - assert (Hmod : (n + 1) mod time = 0).
    { symmetry. apply (Z.mod_unique _ _ (n `div` time + 1)); lia. }
    rewrite bool_decide_eq_true_2 by done.
    symmetry. apply (Z.div_unique _ _ _ 0); lia.
  - assert (Hmod : (n + 1) mod time = n mod time + 1).
    { symmetry. apply (Z.mod_unique _ _ (n `div` time)); lia. }
    rewrite bool_decide_eq_false_2 by lia.
    symmetry. apply (Z.div_unique _ _ _ (n mod time + 1)); lia.
Qed.

Section WithPayload.
Variable Payload : Type.
Variable serializeUpdate : t Payload → string → bool → JS.Result Payload.

Abbreviation syncStateToClients :=
  (ServerRooms.syncStateToClients Payload serializeUpdate).
Abbreviation stepsAndSyncs :=
  (ServerRooms.stepsAndSyncs Payload serializeUpdate).

Lemma serializeCalls_app room (fx1 fx2 : list (Effect Payload)) :
  serializeCalls Payload room (fx1 ++ fx2)
  = serializeCalls Payload room fx1 ++ serializeCalls Payload room fx2.
Proof. unfold serializeCalls. apply omap_app. Qed.

Lemma serializeCalls_worldUpdates room payload
      (players : list (string * Player)) :
  serializeCalls Payload room
    ((λ entry, SocketWorldUpdate entry.1 payload) <$> players)
  = [].
Proof. induction players as [| entry players IH]; [done | apply IH]. Qed.

(** One sync of a room without new players and without requests: what
    it leaves behind, whether [serializeUpdate] completes or throws. *)
Lemma sync_plain room c (s : t Payload) :
  rooms s !! room
  = Some {| syncCounter := c; requestImmediateSync := false;
            requestFullSync := false |} →
  (∀ entry, entry ∈ connectedPlayers s → inRoom room entry = true
            → isNew entry = false) →
  let due := remIsZero (GameWorld.stepCount (world s))
                       (updateRate (options s)) in
  let d := negb (remIsZero c (fullSyncRate (options s))) in
  ∃ s0,
    world s0 = world s
    ∧ (syncStateToClients room s).1
      = (if due
         then match serializeUpdate s0 room d with
              | JS.Ok _ => JS.Ok tt
              | JS.Throw err => JS.Throw err
              end
         else JS.Ok tt)
    ∧ world (syncStateToClients room s).2 = world s
    ∧ options (syncStateToClients room s).2 = options s
    ∧ connectedPlayers (syncStateToClients room s).2 = connectedPlayers s
    ∧ rooms (syncStateToClients room s).2 !! room
      = Some {| syncCounter := if due then c + 1 else c;
                requestImmediateSync := false;
                requestFullSync := false |}
    ∧ serializeCalls Payload room (effects (syncStateToClients room s).2)
      = serializeCalls Payload room (effects s)
        ++ (if due then [d] else []).
Proof.
  intros Hroom Hsynced due d. subst due.
  unfold ServerRooms.syncStateToClients. rewrite Hroom.
  unfold syncDue. cbn [requestImmediateSync orb].
  destruct (remIsZero _ (updateRate (options s))) eqn:Hdue.
  2: { exists s. rewrite app_nil_r. done. }
  unfold diffUpdateOf. cbn [syncCounter requestFullSync].
  rewrite (existsb_isNew_false room _ Hsynced), orb_false_r.
  rewrite (markSynced_id room _ Hsynced).
  set (d' := if remIsZero c _ then false else negb false).
  assert (Hd : d' = d).
  { subst d' d. by destruct (remIsZero c _). }
  rewrite Hd.
  match goal with
  | |- context [serializeUpdate ?s1 room d] => exists s1
  end.
  split; [done |].
  assert (Hcalls : ∀ fx : list (Effect Payload),
            serializeCalls Payload room
              (fx ++ [CallSerializeUpdate room d])
            = serializeCalls Payload room fx ++ [d]).
  { intros fx. rewrite serializeCalls_app. simpl.
    by rewrite String.eqb_refl. }
  destruct (serializeUpdate _ room d) as [payload | err].
  - cbn. rewrite lookup_insert_eq.
    repeat split; try done.
    match goal with
    | |- omap ?f ?l = _ =>
        change (omap f l) with (serializeCalls Payload room l)
    end.
    rewrite serializeCalls_app, serializeCalls_worldUpdates, app_nil_r.
    apply Hcalls.
  - cbn. rewrite lookup_insert_eq.
    repeat split; try done. apply Hcalls.
Qed.

(** The step count that a sync is due at. *)
Lemma due_step (n U : Z) :
  1 <= U → (n + 1) mod U = 0 → n + 1 = U * ((n + 1) `div` U).
Proof.
  intros HU Hmod. pose proof (Z.div_mod (n + 1) U ltac:(lia)). lia.
Qed.

Lemma cadence_run room c (s : t Payload) (n : nat) :
  rooms s !! room
  = Some {| syncCounter := c; requestImmediateSync := false;
            requestFullSync := false |} →
  (∀ entry, entry ∈ connectedPlayers s → inRoom room entry = true
            → isNew entry = false) →
  1 <= updateRate (options s) →
  let sc := GameWorld.stepCount (world s) in
  let U := updateRate (options s) in
  let diff i := negb (remIsZero (c + i) (fullSyncRate (options s))) in
  let m := (sc + Z.of_nat n) `div` U - sc `div` U in
  let r := stepsAndSyncs n room s in
  0 <= m
  ∧ options r.2 = options s
  ∧ connectedPlayers r.2 = connectedPlayers s
  ∧ ∃ k,
      0 <= k <= m
      ∧ serializeCalls Payload room (effects r.2)
        = serializeCalls Payload room (effects s) ++ (diff <$> seqZ 0 k)
      ∧ rooms r.2 !! room
        = Some {| syncCounter := c + k; requestImmediateSync := false;
                  requestFullSync := false |}
      ∧ match r.1 with
        | JS.Ok _ =>
            k = m ∧ GameWorld.stepCount (world r.2) = sc + Z.of_nat n
        | JS.Throw err =>
            1 <= k
            ∧ GameWorld.stepCount (world r.2) = U * (sc `div` U + k)
            ∧ ∃ s0,
                GameWorld.stepCount (world s0) = U * (sc `div` U + k)
                ∧ serializeUpdate s0 room (diff (k - 1)) = JS.Throw err
        end.
Proof.
  intros Hroom Hsynced Hrate.
  induction n as [| n IH].
  - cbv zeta. rewrite Z.add_0_r, Z.sub_diag. split; [done |].
    split; [done |]. split; [done |].
    exists 0. simpl. rewrite Z.add_0_r, app_nil_r. done.
  - cbv zeta in IH |- *.
    set (sc := GameWorld.stepCount (world s)) in *.
    set (U := updateRate (options s)) in *.
    set (diff := λ i, negb (remIsZero (c + i) (fullSyncRate (options s))))
      in *.
    set (m := (sc + Z.of_nat n) `div` U - sc `div` U) in *.
    pose proof (div_step (sc + Z.of_nat n) U Hrate) as Hdiv.
    replace (sc + Z.of_nat (S n)) with (sc + Z.of_nat n + 1) by lia.
    set (m' := (sc + Z.of_nat n + 1) `div` U - sc `div` U).
    assert (Hm' : m' = m + (if bool_decide ((sc + Z.of_nat n + 1) mod U = 0)
                            then 1 else 0)) by (subst m m'; lia).
    clearbody m'.
    destruct IH as (Hm & Hopt & Hplayers & k & Hk & Hcalls & Hroom' & Hend).
    cbn [ServerRooms.stepsAndSyncs].
    destruct (stepsAndSyncs n room s) as [[[] | err] s'] eqn:Hrun;
      cbn [fst snd] in *.
    2: { split; [destruct (bool_decide _); lia |].
         split; [done |]. split; [done |].
         exists k. split; [destruct (bool_decide _); lia |]. done. }
    destruct Hend as [-> Hsc].
    assert (Hdue : remIsZero (sc + Z.of_nat n + 1) U
                   = bool_decide ((sc + Z.of_nat n + 1) mod U = 0)).
    { case_bool_decide as Hmod.
      - apply remIsZero_divide. split; [lia | done].
      - apply not_true_is_false. intros [_ ?]%remIsZero_divide. done. }
    destruct (sync_plain room (c + m) (advance Payload s')) as
      (s0 & Hworld0 & Hres & Hworld & Hopt' & Hplayers' & Hroom''
       & Hcalls'').
    { done. }
    { simpl. by rewrite Hplayers. }
    cbn [advance world options connectedPlayers effects
         GameWorld.setStepCount GameWorld.stepCount] in *.
    rewrite Hsc, Hopt in *. fold U in Hres, Hroom'', Hcalls''.
    fold (diff m) in Hres, Hcalls''.
    rewrite Hdue in Hres, Hroom'', Hcalls''.
    split; [destruct (bool_decide _); lia |].
    split; [done |]. split; [congruence |].
    rewrite Hres, Hroom'', Hcalls'', Hcalls, Hworld. cbn [GameWorld.stepCount].
    case_bool_decide as Hmod.
    + assert (Hstep : sc + Z.of_nat n + 1 = U * (sc `div` U + (m + 1))).
      { rewrite (due_step _ U Hrate Hmod) at 1. f_equal.
        subst m. lia. }
      exists (m + 1). split; [lia |].
      split.
      { rewrite (seqZ_app 0 m 1) by lia. rewrite fmap_app, <- app_assoc.
        done. }
      split; [do 2 f_equal; lia |].
      destruct (serializeUpdate s0 room (diff m)) as [payload | err] eqn:Hs0.
      * split; [lia | done].
      * split; [lia |]. split; [done |].
        exists s0. rewrite Hworld0. cbn [GameWorld.stepCount].
        split; [done |]. by replace (m + 1 - 1) with m by lia.
    + exists m. split; [lia |]. rewrite app_nil_r.
      split; [done |]. split; [done |]. split; [lia | done].
Qed.

(** X18.  The cadence of the syncs of a room that has no new player and
    no request pending, whatever [serializeUpdate] does.  Over [n]
    server steps the room is synced once for every step count reached
    that is a multiple of [updateRate], and not otherwise, up to the
    first sync whose [serializeUpdate] throws: that throw ends the
    server step and the run.  Every sync raises [syncCounter] by one,
    the one that throws too; a sync is a full update exactly when the
    [syncCounter] it finds is a multiple of [fullSyncRate], every other
    sync is a diff.  When no call throws, all the syncs that are due
    take place. *)
Theorem sync_cadence (room : string) (c : Z) (s : t Payload) (n : nat)
    (Hroom : rooms s !! room
             = Some {| syncCounter := c; requestImmediateSync := false;
                       requestFullSync := false |})
    (Hsynced : ∀ entry, entry ∈ connectedPlayers s
                        → inRoom room entry = true → isNew entry = false)
    (Hrate : 1 <= updateRate (options s)) :
  let sc := GameWorld.stepCount (world s) in
  let U := updateRate (options s) in
  let diff i := negb (remIsZero (c + i) (fullSyncRate (options s))) in
  let m := (sc + Z.of_nat n) `div` U - sc `div` U in
  let r := stepsAndSyncs n room s in
  ∃ k,
    0 <= k <= m
    ∧ serializeCalls Payload room (effects r.2)
      = serializeCalls Payload room (effects s) ++ (diff <$> seqZ 0 k)
    ∧ rooms r.2 !! room
      = Some {| syncCounter := c + k; requestImmediateSync := false;
                requestFullSync := false |}
    ∧ match r.1 with
      | JS.Ok _ =>
          k = m ∧ GameWorld.stepCount (world r.2) = sc + Z.of_nat n
      | JS.Throw err =>
          1 <= k
          ∧ GameWorld.stepCount (world r.2) = U * (sc `div` U + k)
          ∧ ∃ s0,
              GameWorld.stepCount (world s0) = U * (sc `div` U + k)
              ∧ serializeUpdate s0 room (diff (k - 1)) = JS.Throw err
      end.
Proof.
  intros sc U diff m r.
  destruct (cadence_run room c s n Hroom Hsynced Hrate)
    as (_ & _ & _ & k & Hk & Hcalls & Hroom' & Hend).
  exists k. done.
Qed.


Lemma findPlayer_Some playerId players sid player :
  findPlayer playerId players = Some (sid, player) →
  (sid, player) ∈ players
  ∧ socketPlayerId (socket player) = Some playerId.
Proof.
  unfold findPlayer. intros Hlast.
  apply last_Some in Hlast as [l' Hl'].
  assert (Hin : (sid, player)
                  ∈ filter (λ entry, socketPlayerId (socket entry.2)
                                     = Some playerId) players).
  { rewrite Hl'. apply elem_of_app. right. apply elem_of_cons. by left. }
  apply list_elem_of_filter in Hin as [Hid Hin]. done.
Qed.

Lemma findPlayer_None playerId players :
  findPlayer playerId players = None
  ↔ ∀ entry, entry ∈ players
             → socketPlayerId (socket entry.2) ≠ Some playerId.
Proof.
  unfold findPlayer. rewrite last_None. split.
  - intros Hnil entry Hin Hid.
    assert (entry ∈ filter (λ entry, socketPlayerId (socket entry.2)
                                     = Some playerId) players)
      as Hf by (by apply list_elem_of_filter).
    rewrite Hnil in Hf. by apply elem_of_nil in Hf.
  - intros Hnone. apply TimerFacts.filter_none. done.
Qed.

(** X20.  [assignPlayerToRoom]: for a room that does not exist it does
    nothing; for a room that exists it throws a TypeError, and changes
    nothing, when no connected socket has the playerId as its
    [playerId] property.  Otherwise it moves the last connected player
    with that playerId into the room, tells the socket and the game
    engine, and asks the room for an immediate full sync: the next sync
    of the room is due whatever the step count and hands
    [serializeUpdate] a [diffUpdate] of false. *)
Theorem assignPlayerToRoom_spec
    (playerId : Z) (room : string) (s : t Payload) :
  (rooms s !! room = None →
   assignPlayerToRoom Payload playerId room s = (JS.Ok tt, s))
  ∧ (is_Some (rooms s !! room) →
     (∀ entry, entry ∈ connectedPlayers s
               → socketPlayerId (socket entry.2) ≠ Some playerId) →
     JS.isThrow (assignPlayerToRoom Payload playerId room s).1 = true
     ∧ (assignPlayerToRoom Payload playerId room s).2 = s)
  ∧ (∀ r sid player,
       rooms s !! room = Some r →
       findPlayer playerId (connectedPlayers s) = Some (sid, player) →
       ∃ s',
         assignPlayerToRoom Payload playerId room s = (JS.Ok tt, s')
         ∧ getPlayer sid (connectedPlayers s')
           = Some {| socket := socket player; state := state player;
                     roomName := room |}
         ∧ effects s'
           = effects s
             ++ [SocketRoomUpdate sid playerId (roomName player) room;
                 EngineRoomUpdate playerId (roomName player) room]
         ∧ rooms s' !! room
           = Some {| syncCounter := syncCounter r;
                     requestImmediateSync := true;
                     requestFullSync := true |}
         ∧ (∀ r', rooms s' !! room = Some r' →
              syncDue Payload r' s' = true
              ∧ diffUpdateOf Payload room r' s' = false)).
Proof.
  unfold assignPlayerToRoom. split; [| split].
  - intros ->. done.
  - intros [r ->] Hnone. apply findPlayer_None in Hnone.
    by rewrite Hnone.
  - intros r sid player -> ->. eexists. split; [done |]. cbn.
    split; [| split; [done |]; split].
    + rewrite getPlayer_setPlayer. by rewrite decide_True.
    + by rewrite lookup_insert_eq.
    + intros r'. rewrite lookup_insert_eq. intros [= <-].
      unfold syncDue, diffUpdateOf. cbn. by rewrite orb_true_r.
Qed.

Lemma getPlayer_connect sock sid (s : t Payload) :
  getPlayer sid (connectedPlayers (onPlayerConnected Payload sock s).2)
  = if decide (socketId sock = sid)
    then Some {| socket :=
                   {| socketId := socketId sock;
                      socketPlayerId := socketPlayerId sock;
                      dataPlayerId :=
                        Some (onPlayerConnected Payload sock s).1 |};
                 state := new; roomName := DEFAULT_ROOM_NAME |}
    else getPlayer sid (connectedPlayers s).
Proof.
  unfold onPlayerConnected. destruct (getPlayerId sock); cbn;
    apply getPlayer_setPlayer.
Qed.

Lemma connect_fresh sock (s : t Payload) :
  getPlayerId sock = None →
  (onPlayerConnected Payload sock s).1
  = GameWorld.playerCount (world s) + 1
  ∧ GameWorld.playerCount (world (onPlayerConnected Payload sock s).2)
    = GameWorld.playerCount (world s) + 1.
Proof. intros Hnone. unfold onPlayerConnected. by rewrite Hnone. Qed.

Lemma connectAll_snoc sockets sock (s : t Payload) :
  connectAll Payload (sockets ++ [sock]) s
  = (onPlayerConnected Payload sock (connectAll Payload sockets s)).2.
Proof. unfold connectAll. by rewrite foldl_app. Qed.

(** X21.  Sockets that come without a playerId of their own (undefined
    or 0) and connect one after the other are numbered in the order of
    their connection: the socket number [i] gets the playerId
    [playerCount + i + 1], which is written to its [data.playerId], and
    [playerCount] ends that much higher.  So no two of them get the same
    playerId; each is registered as a new player of the default room. *)
Theorem connected_players_get_fresh_ids
    (sockets : list Socket) (s : t Payload)
    (Hfresh : ∀ sock, sock ∈ sockets → getPlayerId sock = None)
    (Hdistinct : NoDup (socketId <$> sockets)) :
  GameWorld.playerCount (world (connectAll Payload sockets s))
  = GameWorld.playerCount (world s) + Z.of_nat (length sockets)
  ∧ ∀ (i : nat) sock,
      sockets !! i = Some sock →
      getPlayer (socketId sock)
                (connectedPlayers (connectAll Payload sockets s))
      = Some {| socket :=
                  {| socketId := socketId sock;
                     socketPlayerId := socketPlayerId sock;
                     dataPlayerId :=
                       Some (GameWorld.playerCount (world s)
                             + Z.of_nat i + 1) |};
                state := new; roomName := DEFAULT_ROOM_NAME |}.
Proof.
  induction sockets as [| sock sockets IH] using rev_ind.
  - simpl. split; [lia | done].
  - rewrite fmap_app in Hdistinct.
    apply NoDup_app in Hdistinct as (Hnd & Hnotin & _).
    destruct IH as [Hcount Hget].
    { intros sk Hsk. apply Hfresh, elem_of_app. by left. }
    { done. }
    rewrite connectAll_snoc.
    destruct (connect_fresh sock (connectAll Payload sockets s))
      as [Hid Hcount'].
    { apply Hfresh, elem_of_app. right. apply elem_of_cons. by left. }
    split.
    + rewrite Hcount', Hcount, length_app. simpl. lia.
    + intros i sk Hi. rewrite getPlayer_connect.
      apply lookup_app_Some in Hi as [Hi | [Hlen Hi]].
      * rewrite decide_False; [by apply Hget |].
        intros Heq. apply (Hnotin (socketId sk)).
        -- apply list_elem_of_fmap. exists sk. split; [done |].
           by apply list_elem_of_lookup_2 in Hi.
        -- rewrite <- Heq. simpl. apply elem_of_cons. by left.
      * destruct (i - length sockets)%nat as [| j] eqn:Hj; [| done].
        injection Hi as <-. rewrite decide_True by done.
        rewrite Hid, Hcount. do 4 f_equal. lia.
Qed.

End WithPayload.

(** With the server's own [serializeUpdate]: an empty lobby is synced
    at every sixth step, the first sync a full update and the others
    diffs. *)
Example idle_cadence :
  (λ r, (r.1, GameWorld.stepCount (world r.2),
         serializeCalls _ DEFAULT_ROOM_NAME (effects r.2),
         rooms r.2 !! DEFAULT_ROOM_NAME))
    (ServerRooms.stepsAndSyncs _ Scenario.ownSerializeUpdate 130
       DEFAULT_ROOM_NAME Scenario.idleServer)
  = (JS.Ok tt, 130, [false] ++ replicate 19 true ++ [false],
     Some {| syncCounter := 21; requestImmediateSync := false;
             requestFullSync := false |}).
Proof. vm_compute. done. Qed.

(** With an object in the lobby the full update at step 6 completes and
    the diff update at step 12 throws, in [serialize]: the run ends
    there, with both syncs counted. *)
Example busy_cadence :
  (λ r, (r.1, GameWorld.stepCount (world r.2),
         serializeCalls _ DEFAULT_ROOM_NAME (effects r.2),
         rooms r.2 !! DEFAULT_ROOM_NAME))
    (ServerRooms.stepsAndSyncs _ Scenario.ownSerializeUpdate 130
       DEFAULT_ROOM_NAME Scenario.busyServer)
  = (JS.Throw (JS.TypeError "netScheme.sort is not a function"), 12,
     [false; true],
     Some {| syncCounter := 2; requestImmediateSync := false;
             requestFullSync := false |}).
Proof. vm_compute. done. Qed.

Lemma sync_cadence_witness :
  let s := Scenario.busyServer in
  let sc := GameWorld.stepCount (world s) in
  let U := updateRate (options s) in
  let diff i := negb (remIsZero (0 + i) (fullSyncRate (options s))) in
  let m := (sc + Z.of_nat 130) `div` U - sc `div` U in
  let r := ServerRooms.stepsAndSyncs _ Scenario.ownSerializeUpdate 130
             DEFAULT_ROOM_NAME s in
  ∃ k,
    0 <= k <= m
    ∧ serializeCalls _ DEFAULT_ROOM_NAME (effects r.2)
      = serializeCalls _ DEFAULT_ROOM_NAME (effects s)
        ++ (diff <$> seqZ 0 k)
    ∧ rooms r.2 !! DEFAULT_ROOM_NAME
      = Some {| syncCounter := 0 + k; requestImmediateSync := false;
                requestFullSync := false |}
    ∧ match r.1 with
      | JS.Ok _ =>
          k = m ∧ GameWorld.stepCount (world r.2) = sc + Z.of_nat 130
      | JS.Throw err =>
          1 <= k
          ∧ GameWorld.stepCount (world r.2) = U * (sc `div` U + k)
          ∧ ∃ s0,
              GameWorld.stepCount (world s0) = U * (sc `div` U + k)
              ∧ Scenario.ownSerializeUpdate s0 DEFAULT_ROOM_NAME
                  (diff (k - 1))
                = JS.Throw err
      end.
Proof.
  apply (sync_cadence _ Scenario.ownSerializeUpdate DEFAULT_ROOM_NAME 0
           Scenario.busyServer 130).
  - reflexivity.
  - intros entry Hin. by apply elem_of_nil in Hin.
  - vm_compute. discriminate.
Defined.


Lemma connected_players_get_fresh_ids_witness :
  GameWorld.playerCount
    (world (connectAll Z [Scenario.alice; Scenario.bob]
              Scenario.quietServer))
  = GameWorld.playerCount (world Scenario.quietServer) + Z.of_nat 2
  ∧ ∀ (i : nat) sock,
      [Scenario.alice; Scenario.bob] !! i = Some sock →
      getPlayer (socketId sock)
        (connectedPlayers (connectAll Z [Scenario.alice; Scenario.bob]
                             Scenario.quietServer))
      = Some {| socket :=
                  {| socketId := socketId sock;
                     socketPlayerId := socketPlayerId sock;
                     dataPlayerId :=
                       Some (GameWorld.playerCount
                               (world Scenario.quietServer)
                             + Z.of_nat i + 1) |};
                state := new; roomName := DEFAULT_ROOM_NAME |}.
Proof.
  apply (connected_players_get_fresh_ids Z
           [Scenario.alice; Scenario.bob] Scenario.quietServer).
  - intros sock Hin. rewrite !elem_of_cons in Hin.
    destruct Hin as [-> | [-> | Hin]]; [done | done |].
    by apply elem_of_nil in Hin.
  - vm_compute. repeat constructor; rewrite ?elem_of_cons;
      try (intros [? | ?]; discriminate || by apply elem_of_nil in H);
      apply not_elem_of_nil.
Defined.

End RoomFacts.


Module BufferFacts.
Import ExtrapolateStrategy.

Lemma saveAll_snoc inputs input s :
  saveAll (inputs ++ [input]) s = clientInputSave input (saveAll inputs s).
Proof. unfold saveAll. by rewrite foldl_app. Qed.

Lemma saved_bucket input s k :
  recentInputs (clientInputSave input s) !!! k
  = recentInputs s !!! k
    ++ (if decide (Input.step input = k) then [input] else []).
Proof.
  unfold clientInputSave. simpl.
  destruct (decide (Input.step input = k)) as [<- | Hne].
  - rewrite lookup_total_insert_eq.
    rewrite lookup_total_alt.
    by destruct (recentInputs s !! Input.step input).
  - rewrite lookup_total_insert_ne by done. by rewrite app_nil_r.
Qed.

Lemma saveAll_spec inputs s :
  wfBuffer (recentInputs (saveAll inputs s))
  ∧ gameEngine (saveAll inputs s) = gameEngine s
  ∧ ∀ k, recentInputs (saveAll inputs s) !!! k
         = filter (λ input, Input.step input = k) inputs.
Proof.
  induction inputs as [| input inputs IH] using rev_ind.
  - split; [apply ExtrapolateStrategyFacts.wfBuffer_empty |].
    split; [done |]. intros k.
    change (recentInputs (saveAll [] s))
      with (∅ : gmap Z (list Input.Descriptor)).
    by rewrite lookup_total_empty.
  - destruct IH as (Hwf & Hengine & Hbuckets). rewrite saveAll_snoc.
    split; [by apply ExtrapolateStrategyFacts.wfBuffer_save |].
    split; [done |].
    intros k. by rewrite saved_bucket, Hbuckets, filter_app.
Qed.

Example client100_saved :
  recentInputs (saveAll [Scenario.mkInput "up" 4 95 true;
                         Scenario.mkInput "fire" 8 98 false;
                         Scenario.mkInput "up" 7 98 true]
                        Scenario.client100) !!! 98
  = [Scenario.mkInput "fire" 8 98 false; Scenario.mkInput "up" 7 98 true].
Proof. vm_compute. done. Qed.

(** X22.  The buffer that [clientInputSave] builds, from empty, keeps
    under every step the inputs of that step in the order they came.
    [cleanRecentInputs(lastServerStep)] never throws on it; it drops the
    inputs of the steps up to and including [lastServerStep] and keeps
    those of every later step, in their order. *)
Theorem saved_inputs_survive_cleaning
    (inputs : list Input.Descriptor) (lastServerStep : Z) (s : t) :
  (∀ k, recentInputs (saveAll inputs s) !!! k
        = filter (λ input, Input.step input = k) inputs)
  ∧ (cleanRecentInputs lastServerStep (saveAll inputs s)).1 = JS.Ok tt
  ∧ (∀ k, recentInputs
            (cleanRecentInputs lastServerStep (saveAll inputs s)).2 !!! k
          = if decide (k <= lastServerStep) then []
            else filter (λ input, Input.step input = k) inputs)
  ∧ gameEngine (cleanRecentInputs lastServerStep (saveAll inputs s)).2
    = gameEngine s.
Proof.
  destruct (saveAll_spec inputs s) as (Hwf & Hengine & Hbuckets).
  destruct (ExtrapolateStrategyFacts.cleanRecentInputs_spec
              lastServerStep (saveAll inputs s) Hwf)
    as (Hok & Hengine' & Hclean).
  split; [done |]. split; [done |]. split; [| congruence].
  intros k. rewrite lookup_total_alt, Hclean.
  case_decide; [done |]. by rewrite <- Hbuckets, lookup_total_alt.
Qed.

Example future_sync_required :
  (λ r, (r.1, stepCount r.2, recentInputs r.2))
    <$> applySync 130 true Scenario.client100
  = Some (JS.Ok SYNC_APPLIED, 130, ∅).
Proof. vm_compute. done. Qed.

(** X23.  A sync whose [stepCount] lies ahead of the client's step.
    When it is not required, [applySync] puts it off: it returns
    undefined and changes nothing.  When it is required, [applySync]
    applies it without re-enacting anything: the re-enactment loop adds
    no engine step and replays no input, [world.stepCount] is set
    forward to the step of the sync, [needFirstSync] is cleared, and
    the input buffer loses every entry of a step up to that step. *)
Theorem applySync_of_the_future
    (s : t) (syncStepCount : Z)
    (Hfuture : stepCount s < syncStepCount)
    (Hmax : 0 <= maxReEnactSteps (options s))
    (Hwf : wfBuffer (recentInputs s)) :
  applySync syncStepCount false s = Some (JS.Ok NotApplied, s)
  ∧ ∃ s',
      applySync syncStepCount true s = Some (JS.Ok SYNC_APPLIED, s')
      ∧ stepCount s' = syncStepCount
      ∧ GameEngine.effects (gameEngine s')
        = GameEngine.effects (gameEngine s)
      ∧ needFirstSync s' = false
      ∧ (∀ k, recentInputs s' !! k
              = if decide (k <= syncStepCount) then None
                else recentInputs s !! k).
Proof.
  split.
  - unfold applySync. simpl.
    by rewrite (proj2 (Z.ltb_lt _ _) Hfuture).
  - unfold applySync, reenact, clampServerStep. cbn [negb andb].
    set (s0 := {| gameEngine := gameEngine s;
                  recentInputs := recentInputs s; options := options s;
                  needFirstSync := false |}).
    change (stepCount s0) with (stepCount s).
    change (options s0) with (options s).
    rewrite (proj2 (Z.ltb_ge syncStepCount
                      (stepCount s - maxReEnactSteps (options s))))
      by lia.
    replace (Z.to_nat (stepCount s - syncStepCount)) with 0%nat by lia.
    cbn [reenactLoop].
    change (stepCount (setStepCount syncStepCount s0)) with syncStepCount.
    rewrite (proj2 (Z.ltb_ge syncStepCount (stepCount s))) by lia.
    cbn [mbind option_bind].
    destruct (ExtrapolateStrategyFacts.cleanRecentInputs_spec
                syncStepCount (setStepCount syncStepCount s0) Hwf)
      as (Hok & Hengine & Hclean).
    eexists. rewrite Hok. split; [done |].
    unfold stepCount. rewrite Hengine. repeat split; try done.
Qed.

Lemma applySync_of_the_future_witness :
  applySync 130 false Scenario.client100
  = Some (JS.Ok NotApplied, Scenario.client100)
  ∧ ∃ s',
      applySync 130 true Scenario.client100
      = Some (JS.Ok SYNC_APPLIED, s')
      ∧ stepCount s' = 130
      ∧ GameEngine.effects (gameEngine s')
        = GameEngine.effects (gameEngine Scenario.client100)
      ∧ needFirstSync s' = false
      ∧ (∀ k, recentInputs s' !! k
              = if decide (k <= 130) then None
                else recentInputs Scenario.client100 !! k).
Proof.
  apply (applySync_of_the_future Scenario.client100 130).
  - vm_compute. done.
  - vm_compute. discriminate.
  - apply (proj1 (saveAll_spec
                    [Scenario.mkInput "up" 4 95 true;
                     Scenario.mkInput "up" 5 96 true;
                     Scenario.mkInput "left" 6 97 true;
                     Scenario.mkInput "up" 7 98 true;
                     Scenario.mkInput "fire" 8 98 false;
                     Scenario.mkInput "up" 9 99 true]
                    Scenario.client100)).
Defined.

End BufferFacts.

Module SerializeUpdateFacts.
Import Serializable.

Section WithSerializer.
Variable fieldLoop :
  Instance → NetScheme → list string → bool → option Buffer → Z → Z →
  JS.Result Serialized.
Variable deserialize : Buffer → Instance.
Variable construct : Instance → gmap string Value.

Local Abbreviation serializeUpdate :=
  (Serializable.serializeUpdate fieldLoop deserialize construct).
Local Abbreviation serializeUpdateTurn :=
  (Serializable.serializeUpdateTurn fieldLoop deserialize construct).

(** In a full update every turn adds its object and keeps [objMemory]. *)
Lemma full_turns stepCount (objects : gmap Z Instance) ids :
  ∀ events objMemory,
    foldl (serializeUpdateTurn false stepCount objects)
          (JS.Ok (events, objMemory)) ids
    = JS.Ok (events
             ++ (ObjectUpdate stepCount <$> omap (λ o, objects !! o) ids),
             objMemory).
Proof.
  induction ids as [| o ids IH]; intros events objMemory.
  - simpl. by rewrite app_nil_r.
  - cbn [foldl omap list_omap].
    unfold Serializable.serializeUpdateTurn at 2. cbn [mbind JS.bind].
    destruct (objects !! o) as [obj |] eqn:Hobj.
    + simpl. rewrite IH. by rewrite <- app_assoc.
    + simpl. by rewrite IH.
Qed.

Lemma elem_of_roomObjects (objects : gmap Z Instance) roomName o :
  o ∈ roomObjects objects roomName
  ↔ ∃ obj, objects !! o = Some obj
           ∧ get obj "_roomName" = VString roomName.
Proof.
  unfold roomObjects. rewrite list_elem_of_filter, JSFacts.elem_of_keys.
  unfold isInRoom. split.
  - intros [Hroom [obj Hobj]]. rewrite Hobj in Hroom.
    exists obj. split; [done |]. by apply bool_decide_eq_true in Hroom.
  - intros (obj & Hobj & Hroom). rewrite Hobj.
    split; [by apply bool_decide_eq_true | by eexists].
Qed.

(** X24.  In a world whose ids are array indices (from 0 to 2^32 - 2),
    a full update ([diffUpdate] false) never throws before the
    payload is serialized and leaves [objMemory] as it is.  It adds to
    the transmitter the sync header, with the step count of the world
    and [fullUpdate] 1, and then one [objectUpdate] for each object of
    the world whose [_roomName] is the room, by ascending id, and for
    no other object. *)
Theorem full_update_sends_the_room
    (stepCount : Z) (objects : gmap Z Instance)
    (objMemory : gmap Z Buffer) (roomName : string)
    (Hkeys : JS.arrayIndexKeys objects) :
  ∃ ids,
    serializeUpdate stepCount objects objMemory roomName false
    = JS.Ok (SyncHeader stepCount 1
             :: (ObjectUpdate stepCount <$> omap (λ o, objects !! o) ids),
             objMemory)
    ∧ StronglySorted Z.le ids
    ∧ NoDup ids
    ∧ length (omap (λ o, objects !! o) ids) = length ids
    ∧ ∀ o, o ∈ ids
           ↔ ∃ obj, objects !! o = Some obj
                    ∧ get obj "_roomName" = VString roomName.
Proof.
  exists (roomObjects objects roomName).
  split; [apply full_turns |].
  split.
  { apply ServerEngineFacts.StronglySorted_filter,
          ServerEngineFacts.StronglySorted_keys. }
  split; [apply NoDup_filter, JSFacts.NoDup_keys |].
  split; [| apply elem_of_roomObjects].
  assert (Hall : ∀ o, o ∈ roomObjects objects roomName
                      → is_Some (objects !! o)).
  { intros o (obj & Hobj & _)%elem_of_roomObjects. by eexists. }
  induction (roomObjects objects roomName) as [| o ids IH]; [done |].
  cbn [omap list_omap].
  destruct (Hall o) as [obj Hobj]; [by left |]. rewrite Hobj. simpl.
  f_equal. apply IH. intros o' Ho'. apply Hall. by right.
Qed.

End WithSerializer.

Lemma full_update_sends_the_room_witness :
  ∃ ids,
    Serializable.serializeUpdate Scenario.noFields
      (λ _, Scenario.playerSent) (λ _, ∅) 12 Scenario.roomWorld ∅
      "/lobby" false
    = JS.Ok (SyncHeader 12 1
             :: (ObjectUpdate 12
                   <$> omap (λ o, Scenario.roomWorld !! o) ids),
             ∅)
    ∧ StronglySorted Z.le ids
    ∧ NoDup ids
    ∧ length (omap (λ o, Scenario.roomWorld !! o) ids) = length ids
    ∧ ∀ o, o ∈ ids
           ↔ ∃ obj, Scenario.roomWorld !! o = Some obj
                    ∧ get obj "_roomName" = VString "/lobby".
Proof.
  apply (full_update_sends_the_room Scenario.noFields
           (λ _, Scenario.playerSent) (λ _, ∅) 12 Scenario.roomWorld ∅
           "/lobby").
  repeat (apply JSFacts.arrayIndexKeys_insert; [lia |]).
  apply map_Forall_empty.
Defined.

Example lobby_update :
  Serializable.serializeUpdate Scenario.noFields
    (λ _, Scenario.playerSent) (λ _, ∅) 12 Scenario.roomWorld ∅
    "/lobby" false
  = JS.Ok ([SyncHeader 12 1;
            ObjectUpdate 12
              (Serializable.set "_roomName" (VString "/lobby")
                                Scenario.physicalObject)], ∅).
Proof. vm_compute. done. Qed.

End SerializeUpdateFacts.

Module NetworkMonitorFacts.
Import Num NetworkMonitor.

Section WithNumber.
Context {A : Type} `{Number A}.
Variable NaN : A.

Local Abbreviation run := (NetworkMonitor.run NaN).
Local Abbreviation apply := (NetworkMonitor.apply NaN).
Local Abbreviation onReceivedRTTQuery := (NetworkMonitor.onReceivedRTTQuery NaN).
Local Abbreviation RTTOf := (NetworkMonitor.RTTOf NaN).

Lemma monitor_run_snoc ops op (s : t A) :
  run (ops ++ [op]) s = apply (run ops s) op.
Proof. unfold NetworkMonitor.run. by rewrite foldl_app. Qed.

Lemma updates_app (es1 es2 : list (Effect A)) :
  updates (es1 ++ es2) = updates es1 ++ updates es2.
Proof. unfold updates. by rewrite omap_app. Qed.

Lemma queries_app (es1 es2 : list (Effect A)) :
  queries (es1 ++ es2) = queries es1 ++ queries es2.
Proof. unfold queries. by rewrite omap_app. Qed.

Lemma run_size ops (s : t A) :
  movingFPSAverageSize (run ops s) = movingFPSAverageSize s.
Proof.
  induction ops as [| op ops IH] using rev_ind; [done |].
  rewrite monitor_run_snoc, <- IH. destruct op as [now | now queryId]; [done |].
  simpl. unfold NetworkMonitor.onReceivedRTTQuery.
  by destruct (reduceAdd _).
Qed.

(** One more sample through the window. *)
Lemma window_step (size : option Z) (all : list A) (RTT : A) :
  (∀ n, size = Some n → 1 <= n) →
  let frame := kept size all ++ [RTT] in
  (if match size with
      | Some n => n <? Z.of_nat (length frame)
      | None => false
      end
   then tail frame else frame)
  = kept size (all ++ [RTT])
  ∧ kept size (all ++ [RTT]) ≠ [].
Proof.
  intros Hsize frame. unfold frame, kept. destruct size as [n |].
  - specialize (Hsize n eq_refl).
    rewrite !length_app, length_drop. cbn [length].
    assert (Hne : drop (length all + 1 - Z.to_nat n) (all ++ [RTT]) ≠ []).
    { intros Hnil. apply (f_equal length) in Hnil.
      rewrite length_drop, length_app in Hnil. simpl in Hnil. lia. }
    split; [| done].
    destruct (n <? _) eqn:Hover.
    + apply Z.ltb_lt in Hover.
      rewrite <- drop_app_le by lia.
      replace (length all + 1 - Z.to_nat n)%nat
        with (length all - Z.to_nat n + 1)%nat by lia.
      rewrite <- drop_drop. by destruct (drop _ (all ++ [RTT])).
    + apply Z.ltb_ge in Hover.
      replace (length all - Z.to_nat n)%nat with 0%nat by lia.
      by replace (length all + 1 - Z.to_nat n)%nat with 0%nat by lia.
  - split; [done |]. by destruct all.
Qed.

Lemma receive_spec now queryId size all (s : t A) :
  movingFPSAverageSize s = size →
  (∀ n, size = Some n → 1 <= n) →
  movingRTTAverageFrame s = kept size all →
  let RTT := RTTOf now queryId s in
  let frame := kept size (all ++ [RTT]) in
  ∃ sum,
    reduceAdd frame = JS.Ok sum
    ∧ onReceivedRTTQuery now queryId s
      = (JS.Ok tt,
         {| queryIdCounter := queryIdCounter s;
            RTTQueries := RTTQueries s;
            movingRTTAverage := div sum (ofZ (Z.of_nat (length frame)));
            movingRTTAverageFrame := frame;
            movingFPSAverageSize := movingFPSAverageSize s;
            effects :=
              effects s
              ++ [EmitRTTUpdate RTT
                    (div sum (ofZ (Z.of_nat (length frame))))] |}).
Proof.
  intros Hs Hsize Hframe RTT frame.
  destruct (window_step size all RTT Hsize) as [Hstep Hne].
  unfold NetworkMonitor.onReceivedRTTQuery, overfull.
  rewrite Hs, Hframe. fold RTT. rewrite Hstep. fold frame.
  destruct frame as [| a rest] eqn:Hfr; [done |].
  exists (foldl add a rest). split; [done |]. reflexivity.
Qed.

(** X25.  The moving window of round-trip times.  With a sample size of
    at least 1, or none at all, no response makes the handler throw;
    every response emits one [RTTUpdate]; after any sequence of queries
    sent and responses received, [movingRTTAverageFrame] holds the RTTs
    of the most recent [movingFPSAverageSize] updates, oldest first (all
    of them when the size is undefined), and [movingRTTAverage] is their
    sum divided by their number. *)
Theorem moving_RTT_window (s : t A) (ops : list (Op A))
    (Hsize : ∀ n, movingFPSAverageSize s = Some n → 1 <= n)
    (Hframe : ∀ n, movingFPSAverageSize s = Some n →
                   Z.of_nat (length (movingRTTAverageFrame s)) <= n) :
  ∃ new,
    effects (run ops s) = effects s ++ new
    ∧ length (updates new) = length (filter (λ op, isReceive op = true) ops)
    ∧ movingRTTAverageFrame (run ops s)
      = kept (movingFPSAverageSize s)
             (movingRTTAverageFrame s ++ updates new)
    ∧ (updates new ≠ [] →
       ∃ sum,
         reduceAdd (movingRTTAverageFrame (run ops s)) = JS.Ok sum
         ∧ movingRTTAverage (run ops s)
           = div sum
                 (ofZ (Z.of_nat
                         (length (movingRTTAverageFrame (run ops s)))))).
Proof.
  induction ops as [| op ops IH] using rev_ind.
  - exists []. rewrite !app_nil_r. split; [done |]. split; [done |].
    split; [| done]. simpl. unfold kept.
    destruct (movingFPSAverageSize s) as [n |] eqn:Hn; [| done].
    specialize (Hframe n eq_refl).
    by replace (length (movingRTTAverageFrame s) - Z.to_nat n)%nat
         with 0%nat by lia.
  - destruct IH as (new & Heff & Hlen & Hfr & Havg).
    rewrite monitor_run_snoc, filter_app, length_app.
    destruct op as [now | now queryId].
    + exists (new ++ [SocketEmitRTTQuery (queryIdCounter (run ops s))]).
      cbn [NetworkMonitor.apply sendRTTQuery effects movingRTTAverageFrame
           movingRTTAverage].
      rewrite Heff, app_assoc, updates_app. cbn [updates omap list_omap].
      rewrite !app_nil_r. split; [done |]. split.
      { rewrite Hlen. rewrite filter_cons_False by done. simpl. lia. }
      split; done.
    + cbn [NetworkMonitor.apply].
      destruct (receive_spec now queryId (movingFPSAverageSize s)
                  (movingRTTAverageFrame s ++ updates new) (run ops s)
                  (run_size ops s) Hsize Hfr) as (sum & Hsum & Hrecv).
      rewrite Hrecv. cbn [snd effects movingRTTAverageFrame movingRTTAverage].
      eexists (new ++ [EmitRTTUpdate _ _]).
      rewrite Heff, app_assoc, updates_app. cbn [updates omap list_omap].
      split; [done |]. split.
      { rewrite length_app, Hlen. by rewrite filter_cons_True by done. }
      rewrite <- app_assoc. rewrite <- app_assoc in Hsum. split; [done |].
      intros _. by exists sum.
Qed.

(** X26.  With a sample size of zero or less the window is emptied again
    after every push: every response makes the handler throw the
    TypeError of a [reduce] over an empty array, no [RTTUpdate] is ever
    emitted and [movingRTTAverage] is never set. *)
Theorem no_RTTUpdate_without_a_window (s : t A) (ops : list (Op A)) (n : Z)
    (Hsize : movingFPSAverageSize s = Some n)
    (Hn : n <= 0)
    (Hframe : movingRTTAverageFrame s = []) :
  updates (effects (run ops s)) = updates (effects s)
  ∧ movingRTTAverage (run ops s) = movingRTTAverage s
  ∧ movingRTTAverageFrame (run ops s) = []
  ∧ ∀ now queryId,
      (onReceivedRTTQuery now queryId (run ops s)).1
      = JS.Throw (JS.TypeError "Reduce of empty array with no initial value").
Proof.
  assert (Hthrow : ∀ s' : t A,
            movingFPSAverageSize s' = Some n →
            movingRTTAverageFrame s' = [] →
            ∀ now queryId,
              onReceivedRTTQuery now queryId s'
              = (JS.Throw (JS.TypeError
                             "Reduce of empty array with no initial value"),
                 {| queryIdCounter := queryIdCounter s';
                    RTTQueries := RTTQueries s';
                    movingRTTAverage := movingRTTAverage s';
                    movingRTTAverageFrame := [];
                    movingFPSAverageSize := movingFPSAverageSize s';
                    effects := effects s' |})).
  { intros s' Hs' Hf' now queryId.
    unfold NetworkMonitor.onReceivedRTTQuery, overfull.
    rewrite Hs', Hf'. cbn [app length].
    by rewrite (proj2 (Z.ltb_lt n (Z.of_nat 1))) by lia. }
  assert (Hinv : updates (effects (run ops s)) = updates (effects s)
                 ∧ movingRTTAverage (run ops s) = movingRTTAverage s
                 ∧ movingRTTAverageFrame (run ops s) = []).
  { induction ops as [| op ops IH] using rev_ind; [done |].
    destruct IH as (Hup & Havg & Hfr). rewrite monitor_run_snoc.
    destruct op as [now | now queryId].
    - cbn [NetworkMonitor.apply sendRTTQuery effects movingRTTAverageFrame
           movingRTTAverage].
      rewrite updates_app. cbn [updates omap list_omap].
      by rewrite app_nil_r.
    - cbn [NetworkMonitor.apply].
      rewrite (Hthrow (run ops s)); [done | | done].
      by rewrite run_size. }
  destruct Hinv as (Hup & Havg & Hfr).
  split; [done |]. split; [done |]. split; [done |].
  intros now queryId. rewrite (Hthrow (run ops s)); [done | | done].
  by rewrite run_size.
Qed.

Lemma seqZ_snoc (m n : Z) : 0 <= n → seqZ m (n + 1) = seqZ m n ++ [m + n].
Proof. intros Hn. by rewrite seqZ_app by lia. Qed.

Lemma run_keeps ops : ∀ (s : t A) (queryId : Z),
  queryId < queryIdCounter s →
  RTTQueries (run ops s) !! queryId = RTTQueries s !! queryId
  ∧ queryIdCounter s <= queryIdCounter (run ops s)
  ∧ queries (effects (run ops s))
    = queries (effects s)
      ++ seqZ (queryIdCounter s)
              (queryIdCounter (run ops s) - queryIdCounter s).
Proof.
  induction ops as [| op ops IH] using rev_ind; intros s queryId Hlt.
  - simpl. rewrite Z.sub_diag. simpl. by rewrite app_nil_r.
  - destruct (IH s queryId Hlt) as (Hq & Hle & Hids). rewrite monitor_run_snoc.
    destruct op as [now | now q].
    + cbn [NetworkMonitor.apply sendRTTQuery RTTQueries queryIdCounter
           effects].
      rewrite lookup_insert_ne by lia. split; [done |]. split; [lia |].
      rewrite queries_app, Hids. cbn [queries omap list_omap].
      rewrite <- app_assoc. f_equal.
      replace (queryIdCounter (run ops s) + 1 - queryIdCounter s)
        with (queryIdCounter (run ops s) - queryIdCounter s + 1) by lia.
      rewrite seqZ_snoc by lia. do 2 f_equal. lia.
    + cbn [NetworkMonitor.apply].
      unfold NetworkMonitor.onReceivedRTTQuery.
      destruct (reduceAdd _); cbn [snd RTTQueries queryIdCounter effects].
      * split; [done |]. split; [done |].
        rewrite queries_app. cbn [queries omap list_omap].
        by rewrite app_nil_r.
      * done.
Qed.

(** X27.  Round trip of a query.  [sendRTTQuery] gives every query the
    next id, so the ids sent are consecutive and no two queries share
    one; whatever is sent and received after a query, the response to
    its id measures the time since that query was sent: the [RTT] of the
    update is the time of the response minus the time of the send. *)
Theorem RTT_round_trip (s : t A) (sent : A) (ops : list (Op A))
    (received : A) :
  let queryId := queryIdCounter s in
  let s1 := run ops (sendRTTQuery sent s) in
  RTTOf received queryId s1 = sub received sent
  ∧ (∀ s2, onReceivedRTTQuery received queryId s1 = (JS.Ok tt, s2) →
           ∃ average,
             effects s2
             = effects s1 ++ [EmitRTTUpdate (sub received sent) average])
  ∧ queryId < queryIdCounter s1
  ∧ queries (effects s1)
    = queries (effects s)
      ++ seqZ queryId (queryIdCounter s1 - queryId).
Proof.
  intros queryId s1.
  destruct (run_keeps ops (sendRTTQuery sent s) queryId)
    as (Hq & Hle & Hids); [simpl; lia |].
  fold s1 in Hq, Hle, Hids.
  cbn [sendRTTQuery RTTQueries queryIdCounter effects] in Hq, Hle, Hids.
  fold queryId in Hq, Hle, Hids.
  rewrite lookup_insert_eq in Hq.
  assert (HRTT : RTTOf received queryId s1 = sub received sent).
  { unfold NetworkMonitor.RTTOf. by rewrite Hq. }
  split; [done |]. split.
  - intros s2. unfold NetworkMonitor.onReceivedRTTQuery.
    fold (RTTOf received queryId s1). rewrite HRTT.
    destruct (reduceAdd _); [| done].
    intros [= <-]. by eexists.
  - split; [lia |].
    rewrite Hids, queries_app. cbn [queries omap list_omap].
    rewrite <- app_assoc. f_equal.
    rewrite (seqZ_cons queryId) by lia. simpl. do 2 f_equal; lia.
Qed.

End WithNumber.

Example pings_measured :
  (λ s, (movingRTTAverageFrame s, movingRTTAverage s, updates (effects s),
         queries (effects s)))
    (run PrimFloat.nan Scenario.pings Scenario.monitor)
  = ([30%float; 20%float], 25%float, [40%float; 30%float; 20%float],
     [0; 1; 2]).
Proof. vm_compute. reflexivity. Qed.

Lemma moving_RTT_window_witness :
  ∃ new,
    effects (run PrimFloat.nan Scenario.pings Scenario.monitor)
    = effects Scenario.monitor ++ new
    ∧ length (updates new)
      = length (filter (λ op, isReceive op = true) Scenario.pings)
    ∧ movingRTTAverageFrame
        (run PrimFloat.nan Scenario.pings Scenario.monitor)
      = kept (movingFPSAverageSize Scenario.monitor)
             (movingRTTAverageFrame Scenario.monitor ++ updates new)
    ∧ (updates new ≠ [] →
       ∃ sum,
         reduceAdd (movingRTTAverageFrame
                      (run PrimFloat.nan Scenario.pings Scenario.monitor))
         = JS.Ok sum
         ∧ movingRTTAverage
             (run PrimFloat.nan Scenario.pings Scenario.monitor)
           = div sum
                 (ofZ (Z.of_nat
                         (length
                            (movingRTTAverageFrame
                               (run PrimFloat.nan Scenario.pings
                                    Scenario.monitor)))))).
Proof.
  apply (moving_RTT_window PrimFloat.nan Scenario.monitor Scenario.pings).
  - intros n [= <-]. lia.
  - intros n [= <-]. simpl. lia.
Defined.

Lemma no_RTTUpdate_without_a_window_witness :
  updates (effects (run PrimFloat.nan Scenario.pings
                        Scenario.monitorWithoutWindow))
  = updates (effects Scenario.monitorWithoutWindow)
  ∧ movingRTTAverage (run PrimFloat.nan Scenario.pings
                          Scenario.monitorWithoutWindow)
    = movingRTTAverage Scenario.monitorWithoutWindow
  ∧ movingRTTAverageFrame (run PrimFloat.nan Scenario.pings
                               Scenario.monitorWithoutWindow)
    = []
  ∧ ∀ now queryId,
      (onReceivedRTTQuery PrimFloat.nan now queryId
         (run PrimFloat.nan Scenario.pings
              Scenario.monitorWithoutWindow)).1
      = JS.Throw (JS.TypeError "Reduce of empty array with no initial value").
Proof.
  apply (no_RTTUpdate_without_a_window PrimFloat.nan
           Scenario.monitorWithoutWindow Scenario.pings 0).
  - reflexivity.
  - lia.
  - reflexivity.
Defined.

End NetworkMonitorFacts.

Module SchedulerFacts.
Import Num Scheduler.

Section WithNumber.
Context {A : Type} `{Number A}.

Lemma adjust_keeps calls : ∀ s : t A,
  options (foldl adjust s calls) = options s
  ∧ delayCounter (foldl adjust s calls) = delayCounter s
  ∧ effects (foldl adjust s calls) = effects s.
Proof.
  induction calls as [| call calls IH]; intros s; [done |].
  cbn [foldl]. destruct (IH (adjust s call)) as (-> & -> & ->).
  by destruct call.
Qed.

Lemma signals_app (es1 es2 : list (Effect A)) :
  signals (es1 ++ es2) = signals es1 ++ signals es2.
Proof. unfold signals. by rewrite omap_app. Qed.

Lemma bind_seqZ_shift {B} (f : Z → list B) (m n : Z) :
  seqZ (1 + m) n ≫= f = seqZ m n ≫= (λ k, f (1 + k)).
Proof.
  rewrite <- fmap_add_seqZ.
  induction (seqZ m n) as [| k l IH]; [done |].
  cbn [fmap list_fmap mbind list_bind]. by rewrite <- IH.
Qed.

(** The part of a late tick in the signals: [loopRunningSlow] first when
    it is the tenth in a row. *)
Lemma nextTick_late (tk : Tick A) (s : t A) :
  tick (options s) = true →
  0 <= delayCounter s < LOOP_SLOW_COUNT →
  slow (stepStartTime tk) s = true →
  ∃ s' new,
    nextTick tk s = (JS.Ok tt, s')
    ∧ options s' = options s
    ∧ delayCounter s' = (delayCounter s + 1) mod LOOP_SLOW_COUNT
    ∧ effects s' = effects s ++ new
    ∧ signals new
      = if (delayCounter s + 1) mod LOOP_SLOW_COUNT =? 0
        then [true; false] else [false].
Proof.
  unfold LOOP_SLOW_COUNT. intros Htick Hcount Hslow.
  unfold nextTick, callTick. rewrite Hslow.
  cbn [delayCounter setDelayCounter]. unfold LOOP_SLOW_COUNT.
  destruct (10 <=? delayCounter s + 1) eqn:Hten.
  - apply Z.leb_le in Hten.
    assert (Hnine : delayCounter s = 9) by lia.
    cbn [options setDelayCounter perform]. rewrite Htick.
    match goal with
    | |- context [foldl adjust ?s0 ?cs] =>
        destruct (adjust_keeps cs s0) as (Hopt & Hdc & Heff);
        set (s1 := foldl adjust s0 cs) in *
    end.
    eexists _, (_ :: _ :: _ :: []). split; [reflexivity |].
    cbn [options delayCounter effects perform setRequestedDelay
         setNextExecTime setDelayCounter] in *.
    rewrite Hopt, Hdc, Heff, Hnine. split; [done |]. split; [done |].
    rewrite <- !app_assoc. split; [reflexivity |]. done.
  - apply Z.leb_gt in Hten. cbn [options setDelayCounter]. rewrite Htick.
    match goal with
    | |- context [foldl adjust ?s0 ?cs] =>
        destruct (adjust_keeps cs s0) as (Hopt & Hdc & Heff);
        set (s1 := foldl adjust s0 cs) in *
    end.
    eexists _, (_ :: _ :: []). split; [reflexivity |].
    cbn [options delayCounter effects perform setRequestedDelay
         setNextExecTime setDelayCounter] in *.
    rewrite Hopt, Hdc, Heff. split; [done |].
    rewrite Z.mod_small by lia. split; [done |].
    rewrite <- !app_assoc. split; [reflexivity |].
    by rewrite (proj2 (Z.eqb_neq _ _)) by lia.
Qed.

(** X28.  Detection of a slow loop, where [nextTick] alone drives the
    ticks and [options.tick] is a function.  Over a run of ticks that
    each start later than [nextExecTime + period * 0.3], no tick throws,
    [tick] is called once per run of [nextTick], and [loopRunningSlow] is
    emitted, just before the call of [tick], exactly at every tenth late
    tick in a row: at the [k]-th tick when [delayCounter + k] is a
    multiple of 10.  [delayCounter] stays below 10.  A tick that starts
    on time is not signalled and puts [delayCounter] back to 0. *)
Theorem loopRunningSlow_every_tenth_late_tick
    (ticks : list (Tick A)) (s : t A)
    (Htick : tick (options s) = true)
    (Hcount : 0 <= delayCounter s < LOOP_SLOW_COUNT)
    (Hslow : slowRun ticks s = true) :
  (∃ s' new,
     nextTicks ticks s = (JS.Ok tt, s')
     ∧ delayCounter s'
       = (delayCounter s + Z.of_nat (length ticks)) mod LOOP_SLOW_COUNT
     ∧ effects s' = effects s ++ new
     ∧ signals new
       = seqZ 1 (Z.of_nat (length ticks))
           ≫= (λ k, if (delayCounter s + k) mod LOOP_SLOW_COUNT =? 0
                    then [true; false] else [false]))
  ∧ ∀ tk, slow (stepStartTime tk) s = false →
          ∃ s' new,
            nextTick tk s = (JS.Ok tt, s')
            ∧ delayCounter s' = 0
            ∧ effects s' = effects s ++ new
            ∧ signals new = [false].
Proof.
  split.
  - revert s Htick Hcount Hslow.
    induction ticks as [| tk ticks IH]; intros s Htick Hcount Hslow.
    + exists s, []. unfold LOOP_SLOW_COUNT in *. simpl.
      rewrite Z.add_0_r, Z.mod_small, app_nil_r by lia. done.
    + cbn [slowRun] in Hslow. apply andb_true_iff in Hslow as [Hlate Hrest].
      destruct (nextTick_late tk s Htick Hcount Hlate)
        as (s1 & new1 & Hnext & Hopt & Hdc & Heff & Hsig).
      rewrite Hnext in Hrest. cbn [snd] in Hrest.
      destruct (IH s1) as (s' & new & Hrun & Hdc' & Heff' & Hsig').
      { by rewrite Hopt. }
      { rewrite Hdc. unfold LOOP_SLOW_COUNT. apply Z.mod_pos_bound. lia. }
      { done. }
      exists s', (new1 ++ new). unfold nextTicks. cbn [foldl runTick].
      rewrite Hnext. split; [exact Hrun |].
      unfold LOOP_SLOW_COUNT in *. split.
      { rewrite Hdc', Hdc. cbn [length]. rewrite Zplus_mod_idemp_l.
        f_equal. lia. }
      split; [by rewrite Heff', Heff, app_assoc |].
      rewrite signals_app, Hsig, Hsig'. cbn [length].
      rewrite Nat2Z.inj_succ.
      rewrite (seqZ_cons 1 (Z.succ (Z.of_nat (length ticks)))) by lia.
      cbn [mbind list_bind]. rewrite Z.pred_succ. f_equal.
      replace (Z.succ 1) with (1 + 1) by lia.
      rewrite bind_seqZ_shift.
      apply list_bind_ext; [| done]. intros k.
      rewrite Hdc. rewrite Zplus_mod_idemp_l.
      by replace (delayCounter s + 1 + k) with (delayCounter s + (1 + k))
        by lia.
  - intros tk Hontime. unfold nextTick, callTick. rewrite Hontime.
    cbn [delayCounter setDelayCounter]. unfold LOOP_SLOW_COUNT.
    cbn [Z.leb Z.compare]. cbn [options setDelayCounter]. rewrite Htick.
    match goal with
    | |- context [foldl adjust ?s0 ?cs] =>
        destruct (adjust_keeps cs s0) as (Hopt & Hdc & Heff);
        set (s1 := foldl adjust s0 cs) in *
    end.
    eexists _, (_ :: _ :: []). split; [reflexivity |].
    cbn [options delayCounter effects perform setRequestedDelay
         setNextExecTime setDelayCounter] in *.
    rewrite Hdc, Heff. split; [done |].
    rewrite <- !app_assoc. split; [reflexivity |]. done.
Qed.

End WithNumber.

(** In doubles the threshold is the double that the literal 0.3 is. *)
Example LOOP_SLOW_THRESH_double :
  LOOP_SLOW_THRESH (A := float) = 0x1.3333333333333p-2%float.
Proof. vm_compute. reflexivity. Qed.

Example lateTicks_signalled :
  (λ r, (r.1, delayCounter r.2, signals (effects r.2)))
    (nextTicks Scenario.lateTicks Scenario.scheduler)
  = (JS.Ok tt, 2,
     replicate 9 false ++ [true; false] ++ [false; false]).
Proof. vm_compute. reflexivity. Qed.

Lemma loopRunningSlow_every_tenth_late_tick_witness :
  (∃ s' new,
     nextTicks Scenario.lateTicks Scenario.scheduler = (JS.Ok tt, s')
     ∧ delayCounter s'
       = (delayCounter Scenario.scheduler
          + Z.of_nat (length Scenario.lateTicks)) mod LOOP_SLOW_COUNT
     ∧ effects s' = effects Scenario.scheduler ++ new
     ∧ signals new
       = seqZ 1 (Z.of_nat (length Scenario.lateTicks))
           ≫= (λ k, if (delayCounter Scenario.scheduler + k)
                         mod LOOP_SLOW_COUNT =? 0
                    then [true; false] else [false]))
  ∧ ∀ tk, slow (stepStartTime tk) Scenario.scheduler = false →
          ∃ s' new,
            nextTick tk Scenario.scheduler = (JS.Ok tt, s')
            ∧ delayCounter s' = 0
            ∧ effects s' = effects Scenario.scheduler ++ new
            ∧ signals new = [false].
Proof.
  apply (loopRunningSlow_every_tenth_late_tick
           Scenario.lateTicks Scenario.scheduler).
  - reflexivity.
  - change (0 <= 0 < 10). lia.
  - vm_compute. reflexivity.
Defined.

End SchedulerFacts.
